(** * Verification of the RF engine: link analyzer, tile cache, site
      optimizer and sieve.

    The development embeds five source files of [rf-engine]:

    - [rf_physics.py]      (module [Physics]):  haversine distance, terrain
      profile, Fresnel clearance and link classification;
    - [tile_manager.py]    (modules [Tiles], [TileFetch]):  bilinear
      interpolation of a point elevation inside a 16x16 tile, the cache, the
      batched fetch from the elevation API and the upsampled grid;
    - [network_planner.py] (modules [Planner], [Builder]):  the greedy
      weighted set cover, the sampling of targets and the coverage graph;
    - [rf_worker.py]       (modules [Sieve], [Viewshed]):  the local-maxima
      scan and the view score;
    - [server.py]          (module [TerrainRGB]):  the Terrain-RGB encoding
      of elevation tiles.

    Python floats are idealised: real numbers where the code needs square
    roots and trigonometry ([Physics]), rationals where it only adds,
    multiplies, divides and compares (the other modules); the rational
    models compute.  A raised Python exception is an explicit outcome:
    [None] or [Raised] where one exception is possible, [Raises e] where
    the tile manager passes on the exceptions of [mercantile] and of the
    fetch. *)

From Stdlib Require Import Reals Lra Lia ZArith QArith Qround Qminmax List Psatz Sorted.
From stdpp Require Import gmap strings pretty.
Import ListNotations.

(* ================================================================== *)
(** * rf_physics.py *)
(* ================================================================== *)

Module Physics.

Local Open Scope R_scope.

Definition EARTH_RADIUS_KM : R := 6371.0.

(** [math.radians]. *)
Definition radians (x : R) : R := x * PI / 180.

(** [math.atan2 y x], the angle of the point [(x, y)] in (-PI, PI]. *)
Definition atan2 (y x : R) : R :=
  if Rlt_dec 0 x then atan (y / x)
  else if Rlt_dec x 0 then
    (if Rle_dec 0 y then atan (y / x) + PI else atan (y / x) - PI)
  else if Rlt_dec 0 y then PI / 2
  else if Rlt_dec y 0 then - (PI / 2)
  else 0.

(** [int(x)] on a float: truncation toward zero. *)
Definition int (x : R) : Z :=
  if Rle_dec 0 x then Int_part x else (- Int_part (- x))%Z.

Definition Rltb (x y : R) : bool := if Rlt_dec x y then true else false.

Definition haversine_distance (lat1 lon1 lat2 lon2 : R) : R :=
  let R_m := EARTH_RADIUS_KM * 1000 in
  let phi1 := radians lat1 in
  let phi2 := radians lat2 in
  let dphi := radians (lat2 - lat1) in
  let dlambda := radians (lon2 - lon1) in
  let a := sin (dphi / 2) ^ 2 + cos phi1 * cos phi2 * sin (dlambda / 2) ^ 2 in
  let c := 2 * atan2 (sqrt a) (sqrt (1 - a)) in
  R_m * c.

(** [np.linspace(a, b, n)]: [n] evenly spaced samples, both ends included. *)
Definition linspace (a b : R) (n : nat) : list R :=
  match n with
  | O => []
  | S O => [a]
  | _ => map (fun i => a + INR i * ((b - a) / INR (n - 1))) (seq 0 n)
  end.

(** The tile manager is used through [get_elevation lat lon] only. *)
Definition tile_manager : Type := R -> R -> R.

Definition step_meters : R := 30.

Definition generate_profile (tm : tile_manager) (lat1 lon1 lat2 lon2 : R)
  : list R * R :=
  let dist_m := haversine_distance lat1 lon1 lat2 lon2 in
  if Req_dec_T dist_m 0 then ([tm lat1 lon1], 0)
  else
    let num_points := Z.to_nat (Z.max 2 (int (dist_m / step_meters))) in
    let lats := linspace lat1 lat2 num_points in
    let lons := linspace lon1 lon2 num_points in
    (map (fun p => tm (fst p) (snd p)) (combine lats lons), dist_m).

(** [calculate_fresnel_zone]; [None] is a raised exception: division by a
    zero frequency or distance, square root of a negative number.  (At the
    samples where [analyze_link] calls it the distance is at least 2.) *)
Definition calculate_fresnel_zone (dist_m freq_mhz p_d1 p_d2 : R) : option R :=
  let c := 2.99792e8 in
  if Req_dec_T (freq_mhz * 1e6) 0 then None
  else
    let wavelength := c / (freq_mhz * 1e6) in
    if Req_dec_T dist_m 0 then None
    else
      let x := (1 * wavelength * p_d1 * p_d2) / dist_m in
      if Rlt_dec x 0 then None else Some (sqrt x).

Inductive status : Type := viable | degraded | blocked.

Record LinkResult : Type := mkLinkResult {
  dist_km : R;
  link_status : status;
  min_clearance_ratio : R;
  path_loss_db : R;
  profile : list R
}.

(** The variables the clearance loop of [analyze_link] updates. *)
Record scan : Type := mkScan {
  fresnel_radii : list R;
  scan_min : R;
  worst_point_idx : Z
}.

Definition scan_init : scan :=
  {| fresnel_radii := []; scan_min := 100.0; worst_point_idx := (-1)%Z |}.

(** One iteration of [for i in range(num_points)]. *)
Definition scan_step (dist_m freq_mhz : R) (dists clearance : list R)
    (st : scan) (i : nat) : option scan :=
  let d1 := nth i dists 0 in
  let d2 := dist_m - d1 in
  if Rltb d1 1 || Rltb d2 1 then
    Some {| fresnel_radii := fresnel_radii st ++ [0.1];
            scan_min := scan_min st;
            worst_point_idx := worst_point_idx st |}
  else
    f1 ← calculate_fresnel_zone dist_m freq_mhz d1 d2;
    let ratio := nth i clearance 0 / f1 in
    if Rlt_dec ratio (scan_min st) then
      Some {| fresnel_radii := fresnel_radii st ++ [f1];
              scan_min := ratio;
              worst_point_idx := Z.of_nat i |}
    else
      Some {| fresnel_radii := fresnel_radii st ++ [f1];
              scan_min := scan_min st;
              worst_point_idx := worst_point_idx st |}.

Fixpoint scan_loop (dist_m freq_mhz : R) (dists clearance : list R)
    (idxs : list nat) (st : scan) : option scan :=
  match idxs with
  | [] => Some st
  | i :: rest =>
      st' ← scan_step dist_m freq_mhz dists clearance st i;
      scan_loop dist_m freq_mhz dists clearance rest st'
  end.

Definition classify (r : R) : status :=
  if Rlt_dec r 0 then blocked
  else if Rlt_dec r 0.6 then degraded
  else viable.

Definition k_factor : R := 1.333.
Definition R_eff : R := k_factor * EARTH_RADIUS_KM * 1000.

(** The clearance vector [los_h - terrain_h] of [analyze_link]. *)
Definition clearance_of (elevs : list R) (dist_m tx_h rx_h : R) : list R :=
  let num_points := length elevs in
  let dists := linspace 0 dist_m num_points in
  let d_tx := dists in
  let d_rx := map (fun d => dist_m - d) dists in
  let bulge := map (fun x => x / (2 * R_eff)) (zip_with Rmult d_tx d_rx) in
  let terrain_h := zip_with Rplus elevs bulge in
  let tx_alt := nth 0 elevs 0 + tx_h in
  let rx_alt := List.last elevs 0 + rx_h in
  let los_h := linspace tx_alt rx_alt num_points in
  zip_with Rminus los_h terrain_h.

(** The clearance loop run on a profile, from the initial state. *)
Definition analyze_scan (elevs : list R) (dist_m freq_mhz tx_h rx_h : R)
  : option scan :=
  let num_points := length elevs in
  let dists := linspace 0 dist_m num_points in
  scan_loop dist_m freq_mhz dists (clearance_of elevs dist_m tx_h rx_h)
    (seq 0 num_points) scan_init.

Definition analyze_link (tm : tile_manager)
    (lat1 lon1 lat2 lon2 freq_mhz tx_h rx_h : R) : option LinkResult :=
  let '(elevs, dist_m) := generate_profile tm lat1 lon1 lat2 lon2 in
  st ← analyze_scan elevs dist_m freq_mhz tx_h rx_h;
  Some {| dist_km := dist_m / 1000;
          link_status := classify (scan_min st);
          min_clearance_ratio := scan_min st;
          path_loss_db := 0.0;
          profile := elevs |}.

(** ** Reference quantities the claims speak about *)

(** The first Fresnel-zone radius as a number: what
    [calculate_fresnel_zone] returns when it returns. *)
Definition fresnel_radius (dist_m freq_mhz p_d1 p_d2 : R) : R :=
  sqrt ((1 * (2.99792e8 / (freq_mhz * 1e6)) * p_d1 * p_d2) / dist_m).

(** Sample [i] is interior when it lies at least 1 m from both ends: the
    samples for which the loop does not [continue]. *)
Definition interior (dist_m : R) (dists : list R) (i : nat) : bool :=
  negb (Rltb (nth i dists 0) 1 || Rltb (dist_m - nth i dists 0) 1).

Definition ratio_at (dist_m freq_mhz : R) (dists clearance : list R)
    (i : nat) : R :=
  nth i clearance 0 /
  fresnel_radius dist_m freq_mhz (nth i dists 0) (dist_m - nth i dists 0).

(** The clearance ratios of the interior samples, in profile order. *)
Definition interior_ratios (elevs : list R) (dist_m freq_mhz tx_h rx_h : R)
  : list R :=
  let dists := linspace 0 dist_m (length elevs) in
  map (ratio_at dist_m freq_mhz dists (clearance_of elevs dist_m tx_h rx_h))
      (filter (fun i => interior dist_m dists i = true) (seq 0 (length elevs))).

(** Running minimum of a list from a start value. *)
Definition list_min (m0 : R) (l : list R) : R := fold_left Rmin l m0.

(** [m] is the minimum of the list [l]. *)
Definition is_minimum (m : R) (l : list R) : Prop :=
  In m l /\ forall x, In x l -> m <= x.

(** Terrain of constant elevation, and the longitude on the equator that
    lies [d] metres east of longitude 0. *)
Definition flat_terrain (e : R) : tile_manager := fun _ _ => e.
Definition lon_at (d : R) : R := d * 180 / (EARTH_RADIUS_KM * 1000 * PI).

(** [math.log10]; the caller checks the argument is positive. *)
Definition log10 (x : R) : R := ln x / ln 10.

(** [calculate_itm_loss]; [None] is the [ValueError] of [math.log10] on a
    frequency that is not positive. *)
Definition calculate_itm_loss (dist_m : R) (elevs : list R)
    (freq_mhz tx_h rx_h : R) : option R :=
  let dist_km := dist_m / 1000 in
  if Rlt_dec dist_km 0.001 then Some 0
  else if Rle_dec freq_mhz 0 then None
  else Some (20 * log10 dist_km + 20 * log10 freq_mhz + 32.44).

(** The free-space path loss formula of the specification. *)
Definition fspl (d_km f_mhz : R) : R :=
  20 * log10 d_km + 20 * log10 f_mhz + 32.44.

End Physics.

(* ================================================================== *)
(** * tile_manager.py *)
(* ================================================================== *)

Module Tiles.

Local Open Scope Q_scope.

(** A [mercantile.Tile] and the [mercantile.LngLatBbox] of a tile. *)
Record tile : Type := mkTile { tile_x : Z; tile_y : Z; tile_z : Z }.

Record bounds : Type := mkBounds {
  west : Q; south : Q; east : Q; north : Q
}.

(** The unpacked tile record: a dictionary from keys to sample lists. *)
Abbreviation dict := (gmap string (list Q)).

(** The cache, keyed by the triple that the key [tile:z:x:y] spells out. *)
Abbreviation cache := (gmap (Z * Z * Z) dict).

Definition tile_key (t : tile) : Z * Z * Z := (tile_z t, tile_x t, tile_y t).

(** The exceptions that leave the functions of the tile manager. *)
Inductive exception : Type :=
  | InvalidLatitudeError   (* [mercantile.tile] at a pole *)
  | TypeError              (* an operation on a [None] among numbers *)
  | IndexError.            (* an index outside the 16 x 16 grid *)

(** A call returns a value or raises. *)
Inductive raising (A : Type) : Type :=
  | Returns (a : A)
  | Raises (e : exception).
Arguments Returns {A} a.
Arguments Raises {A} e.

(** What the tile manager does not implement itself: the tiling scheme of
    [mercantile] at the fixed zoom ([mercantile.tile] raises
    [InvalidLatitudeError], here [None], where the projection is not
    defined) and the elevation API behind [_fetch_tile_from_api], which
    returns a record, returns [None] when the fetch does not yield 256
    samples, or raises (module [TileFetch] embeds its body). *)
Record env : Type := mkEnv {
  mercantile_tile : Q -> Q -> option tile;       (* lon, lat *)
  mercantile_bounds : tile -> bounds;
  _fetch_tile_from_api : tile -> raising (option dict)
}.

(** Python truthiness of [data]: neither [None] nor an empty dictionary. *)
Definition truthy (data : option dict) : bool :=
  match data with
  | Some d => negb (Nat.eqb (size d) 0)
  | None => false
  end.

Definition has_key (k : string) (d : dict) : bool :=
  match d !! k with Some _ => true | None => false end.

(** [get_tile_data] called with [tile_x], [tile_y] and [zoom]; the cache
    is threaded.  An exception of the fetch leaves the cache as it was. *)
Definition get_tile_data (E : env) (c : cache) (t : tile)
  : raising (option dict) * cache :=
  match c !! tile_key t with
  | Some d => (Returns (Some d), c)
  | None =>
      match _fetch_tile_from_api E t with
      | Raises e => (Raises e, c)
      | Returns data =>
          match data with
          | Some d => if truthy data then (Returns data, <[tile_key t := d]> c)
                      else (Returns data, c)
          | None => (Returns None, c)
          end
      end
  end.

(** [get_tile_data] called with [lat] and [lon]: the tile is that of
    [mercantile.tile(lon, lat, self.zoom)]. *)
Definition get_tile_data_at (E : env) (c : cache) (lat lon : Q)
  : raising (option dict) * cache :=
  match mercantile_tile E lon lat with
  | None => (Raises InvalidLatitudeError, c)
  | Some t => get_tile_data E c t
  end.

(** Indexing one axis of a numpy array of extent [n]: negative indices
    count from the end, anything else out of range raises. *)
Definition np_index (n k : Z) : option Z :=
  if (0 <=? k)%Z && (k <? n)%Z then Some k
  else if (- n <=? k)%Z && (k <? 0)%Z then Some (k + n)%Z
  else None.

(** [grid[r, c]] on the flat sample list reshaped to 16 x 16. *)
Definition grid_get (raw : list Q) (r c : Z) : option Q :=
  r' ← np_index 16 r;
  c' ← np_index 16 c;
  raw !! Z.to_nat (r' * 16 + c').

(** [np.clip(x, lo, hi)]. *)
Definition clip (x lo hi : Q) : Q := Qmin (Qmax x lo) hi.

(** The clamped fractional grid position of a coordinate. *)
Definition grid_pos (x lo hi : Q) : Q :=
  clip ((x - lo) / (hi - lo) * 15) 0 15.

(** [_extract_elevation_from_tile]; [None] is a raised [IndexError]. *)
Definition _extract_elevation_from_tile (E : env) (data : option dict)
    (lat lon : Q) (t : tile) : option Q :=
  match data with
  | None => Some 0
  | Some d =>
    if negb (truthy data) || negb (has_key "elevation" d) then Some 0
    else
      let raw_elev := default [] (d !! "elevation") in
      if negb (Nat.eqb (length raw_elev) 256) then Some 0
      else
        let b := mercantile_bounds E t in
        let lat_min := south b in
        let lat_max := north b in
        let lon_min := west b in
        let lon_max := east b in
        if Qeq_bool lat_max lat_min || Qeq_bool lon_max lon_min then Some 0
        else
          let u := grid_pos lat lat_min lat_max in
          let v := grid_pos lon lon_min lon_max in
          let i := Qfloor u in
          let j := Qfloor v in
          let u_ratio := u - inject_Z i in
          let v_ratio := v - inject_Z j in
          let i_next := Z.min (i + 1) 15 in
          let j_next := Z.min (j + 1) 15 in
          p00 ← grid_get raw_elev j i;
          p10 ← grid_get raw_elev j i_next;
          p01 ← grid_get raw_elev j_next i;
          p11 ← grid_get raw_elev j_next i_next;
          let val_j := p00 * (1 - u_ratio) + p10 * u_ratio in
          let val_jnext := p01 * (1 - u_ratio) + p11 * u_ratio in
          Some (val_j * (1 - v_ratio) + val_jnext * v_ratio)
  end.

(** [get_elevation]: the exceptions of [mercantile.tile], of the fetch and
    of the grid lookups are not caught. *)
Definition get_elevation (E : env) (c : cache) (lat lon : Q)
  : raising Q * cache :=
  match mercantile_tile E lon lat with
  | None => (Raises InvalidLatitudeError, c)
  | Some t =>
      let '(r, c') := get_tile_data_at E c lat lon in
      match r with
      | Raises e => (Raises e, c')
      | Returns data =>
          if truthy data then
            match _extract_elevation_from_tile E data lat lon t with
            | Some result => (Returns result, c')
            | None => (Raises IndexError, c')
            end
          else (Returns 0, c')
      end
  end.

(** The tile data is usable: present, with 256 samples, on a tile whose
    bounds are not degenerate. *)
Definition usable (E : env) (data : option dict) (t : tile) : bool :=
  match data with
  | None => false
  | Some d =>
      truthy data && has_key "elevation" d
      && Nat.eqb (length (default [] (d !! "elevation"))) 256
      && negb (Qeq_bool (north (mercantile_bounds E t))
                        (south (mercantile_bounds E t))
               || Qeq_bool (east (mercantile_bounds E t))
                           (west (mercantile_bounds E t)))
  end.

(** A test tile: bounds [0,1] x [0,1], sample [k] at flat position [k]. *)
Definition ramp_env : env :=
  {| mercantile_tile := fun _ _ => Some (mkTile 0 0 12);
     mercantile_bounds := fun _ => mkBounds 0 0 1 1;
     _fetch_tile_from_api := fun _ =>
       Returns
         (Some {[ "elevation" :=
                    map (fun k => inject_Z (Z.of_nat k)) (seq 0 256) ]})
  |}.

(** The same tile under a tiling that, as [mercantile.tile] does, raises
    at the poles. *)
Definition polar_env : env :=
  {| mercantile_tile := fun _ lat =>
       if Qeq_bool lat 90 || Qeq_bool lat (-90) then None
       else Some (mkTile 0 0 12);
     mercantile_bounds := mercantile_bounds ramp_env;
     _fetch_tile_from_api := _fetch_tile_from_api ramp_env |}.

End Tiles.

(* ================================================================== *)
(** * network_planner.py *)
(* ================================================================== *)

Module Planner.

Local Open Scope Q_scope.

(** The value of the [type] attribute of a node. *)
Inductive node_type : Type := candidate | target | untyped.

(** The attribute dictionary of a node; [weight] is [None] when the
    attribute is missing or holds no number. *)
Record attrs (D : Type) : Type := mkAttrs {
  ntype : node_type;
  weight : option Q;
  data : D
}.
Arguments mkAttrs {D}.
Arguments ntype {D}.
Arguments weight {D}.
Arguments data {D}.

(** A [networkx.Graph]: the node dictionary in insertion order and the
    neighbour sets. *)
Record graph (D : Type) : Type := mkGraph {
  nodes : list (string * attrs D);
  adjacency : string -> gset string
}.
Arguments mkGraph {D}.
Arguments nodes {D}.
Arguments adjacency {D}.

(** How a run ends: with a value, with a raised exception ([KeyError] for
    a missing weight, [TypeError] for one that is no number), or (in the
    model only) with the loop bound exhausted. *)
Inductive outcome (A : Type) : Type :=
  | Ok (a : A)
  | Raised
  | OutOfFuel.
Arguments Ok {A}.
Arguments Raised {A}.
Arguments OutOfFuel {A}.

Section Optimizer.
Context {D : Type}.
Variable G : graph D.

(** [G.nodes[n]]. *)
Fixpoint lookup_node (l : list (string * attrs D)) (n : string)
  : option (attrs D) :=
  match l with
  | [] => None
  | (k, a) :: rest => if String.eqb k n then Some a else lookup_node rest n
  end.

Definition is_type (ty : node_type) (p : string * attrs D) : bool :=
  match ntype (snd p), ty with
  | candidate, candidate | target, target | untyped, untyped => true
  | _, _ => false
  end.

(** [universe] and [candidates] of [optimize_sites]. *)
Definition universe : gset string :=
  list_to_set (map fst (List.filter (is_type target) (nodes G))).

Definition candidates : list string :=
  map fst (List.filter (is_type candidate) (nodes G)).

Definition Qltb (x y : Q) : bool := negb (Qle_bool y x).

(** [neighbors.intersection(universe) - covered] for a candidate. *)
Definition new_cover (covered : gset string) (cand : string) : gset string :=
  (adjacency G cand ∩ universe) ∖ covered.

(** [weight / count] for a candidate; [None] is the exception raised for
    a candidate without a weight to divide. *)
Definition ratio_of (covered : gset string) (cand : string) : option Q :=
  a ← lookup_node (nodes G) cand;
  w ← weight a;
  Some (w / inject_Z (Z.of_nat (size (new_cover covered cand)))).

(** The best candidate so far: [None] while [best_ratio] is still infinite
    and [made_progress] false. *)
Definition best_t : Type := option (string * Q * gset string).

(** One iteration of [for cand in candidates]. *)
Definition round_step (covered : gset string) (selected : list string)
    (best : best_t) (cand : string) : option best_t :=
  if bool_decide (cand ∈ selected) then Some best
  else
    let nc := new_cover covered cand in
    let count := size nc in
    if (0 <? count)%nat then
      ratio ← ratio_of covered cand;
      match best with
      | None => Some (Some (cand, ratio, nc))
      | Some (_, best_ratio, _) =>
          if Qltb ratio best_ratio then Some (Some (cand, ratio, nc))
          else Some best
      end
    else Some best.

Fixpoint round (covered : gset string) (selected : list string)
    (cands : list string) (best : best_t) : option best_t :=
  match cands with
  | [] => Some best
  | cand :: rest =>
      best' ← round_step covered selected best cand;
      round covered selected rest best'
  end.

(** The [while len(covered) < len(universe)] loop; [fuel] bounds the number
    of rounds. *)
Fixpoint greedy_loop (fuel : nat) (covered : gset string)
    (selected : list string) : outcome (list string * gset string) :=
  if (size covered <? size universe)%nat then
    match fuel with
    | O => OutOfFuel
    | S fuel' =>
        match round covered selected candidates None with
        | None => Raised
        | Some None => Ok (selected, covered)
        | Some (Some (best_cand, _, best_new_cover)) =>
            greedy_loop fuel' (covered ∪ best_new_cover)
              (selected ++ [best_cand])
        end
    end
  else Ok (selected, covered).

(** The selection as node ids together with the covered set. *)
Definition select_sites : outcome (list string * gset string) :=
  greedy_loop (S (size universe)) ∅ [].

Definition coverage_fraction (covered : gset string) : Q :=
  if (size universe =? 0)%nat then 0
  else inject_Z (Z.of_nat (size covered))
       / inject_Z (Z.of_nat (size universe)).

Definition optimize_sites : outcome (list D * Q) :=
  match select_sites with
  | Ok (selected, covered) =>
      match mapM (fun n => data <$> lookup_node (nodes G) n) selected with
      | Some ds => Ok (ds, coverage_fraction covered)
      | None => Raised
      end
  | Raised => Raised
  | OutOfFuel => OutOfFuel
  end.

(** ** Reference notions for the claims *)

(** A candidate is eligible in a round when it is not yet selected and
    covers at least one uncovered target. *)
Definition eligible (covered : gset string) (selected : list string)
    (cand : string) : Prop :=
  (cand ∉ selected) /\ (0 < size (new_cover covered cand))%nat.

(** The targets covered by a selection. *)
Definition covered_by (selected : list string) : gset string :=
  ⋃ (map (fun c => adjacency G c ∩ universe) selected).

(** [best] is what a pass over [cands] must leave: nothing when no
    candidate is eligible, otherwise the eligible candidate of least ratio,
    the earliest one in the order of [cands] among those of least ratio. *)
Definition first_minimiser (covered : gset string) (selected : list string)
    (cands : list string) (best : best_t) : Prop :=
  match best with
  | None => forall c, c ∈ cands -> ~ eligible covered selected c
  | Some (b, r, nc) =>
      exists l1 l2,
        cands = l1 ++ b :: l2 /\
        eligible covered selected b /\
        ratio_of covered b = Some r /\
        nc = new_cover covered b /\
        (forall c, c ∈ l1 -> eligible covered selected c ->
           exists rc, ratio_of covered c = Some rc /\ r < rc) /\
        (forall c, c ∈ l2 -> eligible covered selected c ->
           exists rc, ratio_of covered c = Some rc /\ r <= rc)
  end.

(** What holds between rounds: the covered set is the set of targets
    adjacent to the selection, and the selection consists of candidates. *)
Definition loop_inv (covered : gset string) (selected : list string) : Prop :=
  covered = covered_by selected /\
  covered ⊆ universe /\
  (forall c, c ∈ selected -> c ∈ candidates).

(** Every candidate node carries a weight (as [build_coverage_graph]
    ensures), so that no lookup raises. *)
Definition weights_present : bool :=
  forallb (fun c => match lookup_node (nodes G) c with
                    | Some a => match weight a with Some _ => true | None => false end
                    | None => false
                    end) candidates.

(** ** The round as the specification words it *)

(** Modelled from the spec: the candidates in iteration order, the nodes
    of type [candidate] in the order of the node dictionary. *)
Fixpoint candidates_in_order (l : list (string * attrs D)) : list string :=
  match l with
  | [] => []
  | (n, a) :: rest =>
      match ntype a with
      | candidate => n :: candidates_in_order rest
      | _ => candidates_in_order rest
      end
  end.

(** Modelled from the spec: a target is a node of type [target]. *)
Definition is_target (t : string) : Prop :=
  exists a, In (t, a) (nodes G) /\ ntype a = target.

(** Modelled from the spec: the weight of a node. *)
Definition has_weight (n : string) (w : Q) : Prop :=
  exists a, In (n, a) (nodes G) /\ weight a = Some w.

(** Modelled from the spec: a target that [cand] would newly cover, one
    adjacent to it and not yet covered. *)
Definition newly_covers (covered : gset string) (cand t : string) : Prop :=
  is_target t /\ (t ∈ adjacency G cand) /\ (t ∉ covered).

(** Modelled from the spec: [nc] is the set of the targets that [cand]
    would newly cover. *)
Definition newly_covered (covered : gset string) (cand : string)
    (nc : gset string) : Prop :=
  forall t, t ∈ nc <-> newly_covers covered cand t.

(** Modelled from the spec: [r] is [weight / newly_covered_count] of
    [cand]. *)
Definition has_ratio (covered : gset string) (cand : string) (r : Q) : Prop :=
  exists w nc,
    has_weight cand w /\ newly_covered covered cand nc /\
    r = w / inject_Z (Z.of_nat (size nc)).

(** Modelled from the spec: a candidate that a round considers, not yet
    selected and covering at least one uncovered target. *)
Definition considered (covered : gset string) (selected : list string)
    (cand : string) : Prop :=
  In cand (candidates_in_order (nodes G)) /\ (cand ∉ selected) /\
  exists t, newly_covers covered cand t.

(** Modelled from the spec: [b] with ratio [r] is the choice of a round,
    a considered candidate whose ratio is least; those before it in
    iteration order have a strictly larger ratio, so that of several
    candidates with the least ratio the earliest is the choice. *)
Definition round_choice (covered : gset string) (selected : list string)
    (b : string) (r : Q) : Prop :=
  exists l1 l2,
    candidates_in_order (nodes G) = l1 ++ b :: l2 /\
    considered covered selected b /\
    has_ratio covered b r /\
    (forall c, In c l1 -> considered covered selected c ->
       exists rc, has_ratio covered c rc /\ r < rc) /\
    (forall c, In c l2 -> considered covered selected c ->
       exists rc, has_ratio covered c rc /\ r <= rc).

End Optimizer.

(** A small graph for tests: three candidates, four targets. *)
Definition attr (ty : node_type) (w : option Q) : attrs unit :=
  mkAttrs ty w tt.

Definition demo_graph : graph unit :=
  mkGraph
    [ ("cand_0", attr candidate (Some 2));
      ("cand_1", attr candidate (Some 1));
      ("cand_2", attr candidate (Some 1));
      ("t0", attr target None); ("t1", attr target None);
      ("t2", attr target None); ("t3", attr target None) ]
    (fun n =>
       if String.eqb n "cand_0" then {[ "t0"; "t1"; "t2"; "t3" ]}
       else if String.eqb n "cand_1" then {[ "t0"; "t1" ]}
       else if String.eqb n "cand_2" then {[ "t2"; "t3" ]}
       else ∅).

Definition empty_universe_graph : graph unit :=
  mkGraph [ ("cand_0", attr candidate (Some 1)) ] (fun _ => ∅).

End Planner.

(* ================================================================== *)
(** * rf_worker.py: the sieve *)
(* ================================================================== *)

Module Sieve.
Import Tiles.

Local Open Scope Q_scope.

(** A 2-D array as a list of rows. *)
Abbreviation grid := (list (list Q)).

Definition grid_size : nat := 16.

Fixpoint chunks (fuel w : nat) (l : list Q) : grid :=
  match fuel with
  | O => []
  | S fuel' => firstn w l :: chunks fuel' w (skipn w l)
  end.

(** [np.array(raw).reshape((16, 16))]; [None] is the [ValueError] raised
    when the list does not hold 256 samples. *)
Definition reshape16 (raw : list Q) : option grid :=
  if Nat.eqb (length raw) (grid_size * grid_size)
  then Some (chunks grid_size grid_size raw)
  else None.

Definition cell (g : grid) (r c : nat) : Q := nth c (nth r g []) 0.

(** Index extension of [scipy.ndimage] in its default mode [reflect]:
    [(d c b a | a b c d | d c b a)]. *)
Definition reflect (n : nat) (i : Z) : nat :=
  if (i <? 0)%Z then Z.to_nat (- i - 1)
  else if (Z.of_nat n <=? i)%Z then Z.to_nat (2 * Z.of_nat n - i - 1)
  else Z.to_nat i.

Definition offsets : list Z := [-1; 0; 1]%Z.

(** The 3 x 3 window centred on [(r, c)], in row-major order. *)
Definition window (g : grid) (r c : nat) : list Q :=
  flat_map (fun dr =>
    map (fun dc => cell g (reflect grid_size (Z.of_nat r + dr))
                          (reflect grid_size (Z.of_nat c + dc)))
        offsets) offsets.

(** [maximum_filter(elevs, size=3)] at one cell. *)
Definition local_max (g : grid) (r c : nat) : Q :=
  fold_right Qmax (cell g r c) (window g r c).

(** [peaks_mask = (elevs == local_max)]. *)
Definition peaks_mask (g : grid) (r c : nat) : bool :=
  Qeq_bool (cell g r c) (local_max g r c).

(** [np.argwhere(peaks_mask)]: the flagged cells in row-major order. *)
Definition peak_indices (g : grid) : list (nat * nat) :=
  flat_map (fun r =>
    flat_map (fun c => if peaks_mask g r c then [(r, c)] else [])
             (seq 0 grid_size))
    (seq 0 grid_size).

(** [np.linspace(a, b, n)] on rationals. *)
Definition linspace (a b : Q) (n : nat) : list Q :=
  match n with
  | O => []
  | S O => [a]
  | _ => map (fun i => a + inject_Z (Z.of_nat i)
                           * ((b - a) / inject_Z (Z.of_nat (n - 1))))
             (seq 0 n)
  end.

(** [np.meshgrid(xs, ys)] with the default [xy] indexing: both results
    have one row per element of [ys]; [X[i][j] = xs[j]], [Y[i][j] = ys[i]]. *)
Definition meshgrid (xs ys : list Q) : grid * grid :=
  (map (fun _ => xs) ys, map (fun y => map (fun _ => y) xs) ys).

Record site : Type := mkSite {
  lat : Q; lon : Q; elev : Q; site_tile_x : Z; site_tile_y : Z
}.

Record scored_site : Type := mkScored { the_site : site; score : Q }.

(** The coordinates the sieve gives to the flagged cell [(r, c)]. *)
Definition cell_lat (b : bounds) (r c : nat) : Q :=
  let lats := linspace (south b) (north b) grid_size in
  let lons := linspace (west b) (east b) grid_size in
  cell (fst (meshgrid lats lons)) r c.

Definition cell_lon (b : bounds) (r c : nat) : Q :=
  let lats := linspace (south b) (north b) grid_size in
  let lons := linspace (west b) (east b) grid_size in
  cell (snd (meshgrid lats lons)) r c.

Definition in_bbox (min_lat min_lon max_lat max_lon p_lat p_lon : Q) : bool :=
  Qle_bool min_lat p_lat && Qle_bool p_lat max_lat
  && Qle_bool min_lon p_lon && Qle_bool p_lon max_lon.

(** The candidates of one reshaped tile. *)
Definition tile_candidates (min_lat min_lon max_lat max_lon : Q)
    (t : tile) (b : bounds) (elevs : grid) : list site :=
  flat_map (fun rc =>
    let p_lat := cell_lat b (fst rc) (snd rc) in
    let p_lon := cell_lon b (fst rc) (snd rc) in
    let p_elev := cell elevs (fst rc) (snd rc) in
    if in_bbox min_lat min_lon max_lat max_lon p_lat p_lon
    then [mkSite p_lat p_lon p_elev (tile_x t) (tile_y t)]
    else [])
    (peak_indices elevs).

Definition tile_lat_center (E : env) (t : tile) : Q :=
  (south (mercantile_bounds E t) + north (mercantile_bounds E t)) / 2.

Definition tile_lon_center (E : env) (t : tile) : Q :=
  (west (mercantile_bounds E t) + east (mercantile_bounds E t)) / 2.

(** How a scan ends: with its result, with the [ValueError] of the
    reshape, or with an exception that the tile manager raised. *)
Inductive scan_result (A : Type) : Type :=
  | Scanned (a : A)
  | ReshapeFailed
  | TileManagerRaised (e : exception).
Arguments Scanned {A} a.
Arguments ReshapeFailed {A}.
Arguments TileManagerRaised {A} e.

(** The body of [for tile in tiles].  The cache is threaded through both
    [get_tile_data] calls. *)
Definition scan_tile (E : env) (min_lat min_lon max_lat max_lon : Q)
    (c : cache) (t : tile) : scan_result (list site * cache) :=
  let '(data, c1) :=
    get_tile_data_at E c (tile_lat_center E t) (tile_lon_center E t) in
  match data with
  | Raises e => TileManagerRaised e
  | Returns _ =>
      let b := mercantile_bounds E t in
      let c_lat := (south b + north b) / 2 in
      let c_lon := (west b + east b) / 2 in
      let '(raw_data, c2) := get_tile_data_at E c1 c_lat c_lon in
      match raw_data with
      | Raises e => TileManagerRaised e
      | Returns None => Scanned ([], c2)
      | Returns (Some d) =>
          if negb (truthy (Some d)) || negb (has_key "elevation" d)
          then Scanned ([], c2)
          else
            match reshape16 (default [] (d !! "elevation")) with
            | None => ReshapeFailed
            | Some elevs =>
                Scanned (tile_candidates min_lat min_lon max_lat max_lon t
                           (mercantile_bounds E t) elevs, c2)
            end
      end
  end.

Fixpoint scan_tiles (E : env) (min_lat min_lon max_lat max_lon : Q)
    (c : cache) (tiles : list tile) (all_candidates : list site)
  : scan_result (list site) :=
  match tiles with
  | [] => Scanned all_candidates
  | t :: rest =>
      match scan_tile E min_lat min_lon max_lat max_lon c t with
      | Scanned r =>
          scan_tiles E min_lat min_lon max_lat max_lon (snd r) rest
            (all_candidates ++ fst r)
      | ReshapeFailed => ReshapeFailed
      | TileManagerRaised e => TileManagerRaised e
      end
  end.

(** [list.sort(key=..., reverse=True)]: descending and stable. *)
Fixpoint insert_desc {A : Type} (key : A -> Q) (x : A) (l : list A) : list A :=
  match l with
  | [] => [x]
  | y :: ys =>
      if Qle_bool (key y) (key x) then x :: y :: ys
      else y :: insert_desc key x ys
  end.

Definition sort_desc {A : Type} (key : A -> Q) (l : list A) : list A :=
  fold_right (insert_desc key) [] l.

(** What the task returns: the [status] field with its payload.  The
    message of an error is a text of the program, the text numpy gives
    the failed reshape, or [str(e)] of an exception [e] of the tile
    manager, a text of its library. *)
Inductive task_result : Type :=
  | Success (locations : list scored_site)
  | Error (message : string)
  | ErrorOf (e : exception).

(** [optimize_location_task]; [tiles] is the list that
    [mercantile.tiles] yields for the bounding box, and [c] the cache. *)
Definition optimize_location_task (E : env) (tiles : list tile) (c : cache)
    (min_lat min_lon max_lat max_lon freq_mhz height_m : Q) : task_result :=
  match tiles with
  | [] => Error "No tiles found for area"
  | _ =>
      match scan_tiles E min_lat min_lon max_lat max_lon c tiles [] with
      | ReshapeFailed => Error "cannot reshape array into shape (16,16)"
      | TileManagerRaised e => ErrorOf e
      | Scanned all_candidates =>
          let sorted := sort_desc elev all_candidates in
          let top_candidates := firstn 20 sorted in
          let scored_candidates :=
            map (fun cand => mkScored cand (elev cand * 1)) top_candidates in
          Success (firstn 3 (sort_desc score scored_candidates))
      end
  end.

(** ** Test data *)

(** The 16 x 16 grid of the scenario: zero except 100 at row 8, column 8. *)
Definition peak_raw : list Q :=
  map (fun k => if Nat.eqb k (8 * 16 + 8) then 100 else 0) (seq 0 256).

Definition peak_grid : grid := chunks grid_size grid_size peak_raw.

(** A cell lies in the 3 x 3 block around [(8, 8)]. *)
Definition near_peak (rc : nat * nat) : bool :=
  (7 <=? fst rc)%nat && (fst rc <=? 9)%nat
  && (7 <=? snd rc)%nat && (snd rc <=? 9)%nat.

Definition all_cells : list (nat * nat) :=
  flat_map (fun r => map (fun c => (r, c)) (seq 0 grid_size)) (seq 0 grid_size).

(** The cells away from the peak's 3 x 3 block, and the peak itself. *)
Definition flagged_on_peak_grid (rc : nat * nat) : bool :=
  negb (near_peak rc) || (Nat.eqb (fst rc) 8 && Nat.eqb (snd rc) 8).

(** Two tiles side by side; the cache holds a truncated record (255
    samples) for the first and the peak grid for the second. *)
Definition two_tile_env : env :=
  {| mercantile_tile := fun lon _ =>
       Some (if Qle_bool 1 lon then mkTile 1 0 12 else mkTile 0 0 12);
     mercantile_bounds := fun t =>
       if (tile_x t =? 0)%Z then mkBounds 0 0 1 1 else mkBounds 1 0 2 1;
     _fetch_tile_from_api := fun _ => Returns None |}.

Definition truncated_cache : cache :=
  {[ (12, 0, 0)%Z := {[ "elevation" := firstn 255 peak_raw ]};
     (12, 1, 0)%Z := {[ "elevation" := peak_raw ]} ]}.

Definition absent_cache : cache :=
  {[ (12, 1, 0)%Z := {[ "elevation" := peak_raw ]} ]}.

End Sieve.

(* ================================================================== *)
(** * tile_manager.py: fetching and upsampling *)
(* ================================================================== *)

Module TileFetch.
Import Tiles Sieve.

Local Open Scope Q_scope.

(** The [elevation] entry of one element of the [results] array: absent,
    JSON [null], or a number. *)
Inductive api_elevation : Type :=
  | Missing
  | Null
  | Value (q : Q).

(** What one request to the elevation API comes to: an exception inside
    the [try] block (time-out, connection error, undecodable body), a status
    code other than 200, or a decoded body with its [status == 'OK'] test
    and its [results] array when the key is present. *)
Inductive response : Type :=
  | RequestFailed
  | HttpError
  | Body (status_ok : bool) (results : option (list api_elevation)).

(** The API, asked for the batch that starts at sample [i]. *)
Definition elevation_api : Type := nat -> list (Q * Q) -> response.

(** The 256 sample coordinates [(lat, lon)] of a tile in the flat order of
    [lat_grid.flatten()], [lon_grid.flatten()]. *)
Definition tile_points (b : bounds) : list (Q * Q) :=
  let lats := linspace (south b) (north b) 16 in
  let lons := linspace (west b) (east b) 16 in
  let lat_flat := concat (fst (meshgrid lats lons)) in
  let lon_flat := concat (snd (meshgrid lats lons)) in
  combine lat_flat lon_flat.

Definition batch_size : nat := 100.

(** [range(start, stop, step)] for a positive step. *)
Fixpoint range_step (fuel start stop step : nat) : list nat :=
  match fuel with
  | O => []
  | S fuel' =>
      if (start <? stop)%nat
      then start :: range_step fuel' (start + step) stop step
      else []
  end.

Definition batch_starts (len : nat) : list nat :=
  range_step len 0 len batch_size.

(** The elevations one batch of [n] points adds to [all_elevations];
    [None] is a Python [None] taken from a [null] entry. *)
Definition batch_elevations (r : response) (n : nat) : list (option Q) :=
  match r with
  | Body true (Some results) =>
      map (fun e => match e with
                    | Missing => Some 0
                    | Null => None
                    | Value q => Some q
                    end) results
  | _ => repeat (Some 0) n
  end.

(** The slice [[i : i + batch_size]] of the sample coordinates. *)
Definition batch_at (pts : list (Q * Q)) (i : nat) : list (Q * Q) :=
  firstn batch_size (skipn i pts).

Definition all_elevations (api : elevation_api) (b : bounds)
  : list (option Q) :=
  let pts := tile_points b in
  flat_map (fun i =>
              let batch := batch_at pts i in
              batch_elevations (api i batch) (length batch))
           (batch_starts (length pts)).

Definition is_number (e : option Q) : bool :=
  match e with Some _ => true | None => false end.

(** [_fetch_tile_from_api]: it returns a record or [None], or the
    [min]/[max] of its log line raises [TypeError] on a [None] sample. *)
Definition _fetch_tile_from_api (api : elevation_api) (b : bounds)
  : raising (option dict) :=
  let all := all_elevations api b in
  if Nat.eqb (length all) 256 then
    if forallb is_number all
    then Returns (Some {[ "elevation" := map (default 0) all ]})
    else Raises TypeError
  else Returns None.

(** ** [get_interpolated_grid] *)

Definition zeros (rows cols : nat) : grid := repeat (repeat 0 cols) rows.

(** [.T] of a 16 x 16 array and [np.flipud]. *)
Definition transpose16 (g : grid) : grid :=
  map (fun j => map (fun i => cell g i j) (seq 0 16)) (seq 0 16).

Definition flipud (g : grid) : grid := rev g.

(** The oriented grid handed to [scipy.ndimage.zoom]. *)
Definition oriented_grid (raw : list Q) : grid :=
  flipud (transpose16 (chunks 16 16 raw)).

(** [get_interpolated_grid]; [zoom] stands for
    [scipy.ndimage.zoom(_, zoom_factor, order=1)].  What [get_tile_data]
    raises is passed on. *)
Definition get_interpolated_grid (E : env) (zoom : grid -> Q -> grid)
    (c : cache) (t : tile) (size : nat) : raising grid * cache :=
  let '(data, c') := get_tile_data E c t in
  match data with
  | Raises e => (Raises e, c')
  | Returns None => (Returns (zeros size size), c')
  | Returns (Some d) =>
      if negb (truthy (Some d)) || negb (has_key "elevation" d)
      then (Returns (zeros size size), c')
      else
        let raw_elev := default [] (d !! "elevation") in
        if negb (Nat.eqb (length raw_elev) (16 * 16))
        then (Returns (zeros size size), c')
        else
          let zoom_factor := inject_Z (Z.of_nat size) / 16 in
          (Returns (zoom (oriented_grid raw_elev) zoom_factor), c')
  end.

(** An API that answers every point with the value of a terrain function,
    one that always fails, and one that answers [null] everywhere. *)
Definition terrain_api (f : Q -> Q -> Q) : elevation_api :=
  fun _ batch => Body true (Some (map (fun p => Value (f (fst p) (snd p))) batch)).

Definition failing_api : elevation_api := fun _ _ => RequestFailed.

Definition null_api : elevation_api :=
  fun _ batch => Body true (Some (map (fun _ => Null) batch)).

(** An API that drops the last result of every batch. *)
Definition short_api : elevation_api :=
  fun _ batch => Body true (Some (map (fun _ => Value 1) (removelast batch))).

(** A response that adds nothing but zeros: anything but a 200 body with
    status OK and a [results] array. *)
Definition answers_nothing (r : response) : bool :=
  match r with
  | Body true (Some _) => false
  | _ => true
  end.

(** A response whose [results], if it has any, are as many as the batch. *)
Definition well_sized (r : response) (batch : list (Q * Q)) : bool :=
  match r with
  | Body true (Some results) => Nat.eqb (length results) (length batch)
  | _ => true
  end.

(** A response without a [null] elevation. *)
Definition no_null (r : response) : bool :=
  match r with
  | Body true (Some results) =>
      forallb (fun e => match e with Null => false | _ => true end) results
  | _ => true
  end.

(** Every record of the cache holds 256 samples under [elevation]. *)
Definition well_formed (c : cache) : Prop :=
  forall k d, c !! k = Some d ->
    exists raw, d !! "elevation" = Some raw /\ length raw = 256%nat.

(** The environment whose fetch is [_fetch_tile_from_api] over [api]. *)
Definition env_over (tile_of : Q -> Q -> option tile)
    (bounds_of : tile -> bounds) (api : elevation_api) : env :=
  {| mercantile_tile := tile_of;
     mercantile_bounds := bounds_of;
     Tiles._fetch_tile_from_api := fun t =>
       _fetch_tile_from_api api (bounds_of t) |}.

End TileFetch.

(* ================================================================== *)
(** * server.py: Terrain-RGB tiles *)
(* ================================================================== *)

Module TerrainRGB.
Import Tiles Sieve TileFetch.

Local Open Scope Q_scope.

(** One pixel of [get_elevation_tile] from its computed [h_scaled]: clip
    to 24 bits, truncate to an unsigned integer, split into the three
    channel bytes. *)
Definition encode_scaled (h_scaled : Q) : Z * Z * Z :=
  let h_scaled := clip h_scaled 0 16777215 in
  let v := Qfloor h_scaled in
  let r := Z.land (Z.shiftr v 16) 255 in
  let g := Z.land (Z.shiftr v 8) 255 in
  let b := Z.land v 255 in
  (r, g, b).

(** One pixel from the height, with [h_scaled = (grid + 10000) * 10] in
    exact arithmetic. *)
Definition encode_height (h : Q) : Z * Z * Z :=
  let h_scaled := (h + 10000) * 10 in
  encode_scaled h_scaled.

(** The decoding rule of the docstring:
    [height = -10000 + ((R * 256 * 256 + G * 256 + B) * 0.1)]. *)
Definition decode_height (rgb : Z * Z * Z) : Q :=
  let '(r, g, b) := rgb in
  -10000 + inject_Z (r * 256 * 256 + g * 256 + b) * (1 # 10).

(** The 24-bit value behind a pixel. *)
Definition pixel_value (h : Q) : Z :=
  Qfloor (clip ((h + 10000) * 10) 0 16777215).

(** The RGB array of [get_elevation_tile], before it is written as PNG.
    What [get_interpolated_grid] raises is passed on. *)
Definition get_elevation_tile (E : env) (zoom : grid -> Q -> grid)
    (c : cache) (z x y : Z) : raising (list (list (Z * Z * Z))) * cache :=
  let '(g, c') := get_interpolated_grid E zoom c (mkTile x y z) 256 in
  match g with
  | Raises e => (Raises e, c')
  | Returns g => (Returns (map (map encode_height) g), c')
  end.

End TerrainRGB.

(* ================================================================== *)
(** * network_planner.py: sampling targets and building the graph *)
(* ================================================================== *)

Module Builder.
Import Tiles Planner.

Local Open Scope Q_scope.

(** A value of the request's JSON where the planner expects a number: a
    number (a boolean counts as 1 or 0), or anything else ([null], a
    string, a list, an object). *)
Inductive value : Type :=
  | Number (q : Q)
  | NotNumber.

(** A candidate of the request, an unvalidated dictionary: [lat], [lon]
    and the optional keys [height] and [weight] with the values they
    hold. *)
Record candidate_site : Type := mkCandidate {
  c_lat : Q; c_lon : Q; c_height : option value; c_weight : option value
}.

(** A target point as [sample_target_points] builds it. *)
Record target_point : Type := mkTarget {
  t_id : string; t_lat : Q; t_lon : Q; t_elev : Q
}.

(** The [data] attribute of a node: the candidate or the target. *)
Definition node_data : Type := (candidate_site + target_point)%type.

(** [f"cand_{i}"] and [f"tgt_{k}"]. *)
Definition cand_id (i : nat) : string := "cand_" +:+ pretty i.
Definition tgt_id (k : nat) : string := "tgt_" +:+ pretty k.

(** ** [sample_target_points] *)

(** The polygon as [shapely] presents it: its bounding box
    [(minx, miny, maxx, maxy)] and its point test. *)
Record polygon : Type := mkPolygon {
  minx : Q; miny : Q; maxx : Q; maxy : Q;
  contains : Q -> Q -> bool          (* x, y *)
}.

(** [np.arange(start, stop, step)] for a non-zero step:
    [ceil((stop - start) / step)] values [start + k * step]. *)
Definition arange (start stop step : Q) : list Q :=
  map (fun k => start + inject_Z (Z.of_nat k) * step)
      (seq 0 (Z.to_nat (Qceiling ((stop - start) / step)))).

(** The body of the two nested loops over the grid points [(x, y)];
    [None] is an exception raised by [get_elevation]. *)
Fixpoint sample_points (E : env) (poly : polygon) (pts : list (Q * Q))
    (c : cache) (points : list target_point)
  : option (list target_point * cache) :=
  match pts with
  | [] => Some (points, c)
  | (x, y) :: rest =>
      if contains poly x y then
        let '(e, c') := get_elevation E c y x in
        match e with
        | Raises _ => None
        | Returns elev =>
            sample_points E poly rest c'
              (points ++ [mkTarget (tgt_id (length points)) y x elev])
        end
      else sample_points E poly rest c points
  end.

(** [sample_target_points]; [None] is a raised exception (a zero step
    makes [np.arange] raise [ZeroDivisionError]). *)
Definition sample_target_points (E : env) (poly : polygon)
    (spacing_meters : Q) (c : cache) : option (list target_point * cache) :=
  let step := spacing_meters / 111000 in
  if Qeq_bool step 0 then None
  else
    sample_points E poly
      (flat_map (fun x => map (fun y => (x, y))
                              (arange (miny poly) (maxy poly) step))
                (arange (minx poly) (maxx poly) step))
      c [].

(** ** [build_coverage_graph] *)

(** The [status] that [self.physics.analyze_link] reports for
    [lat1 lon1 lat2 lon2 freq_mhz tx_h rx_h]; [None] when it raises.  The
    transmitter height is the candidate's value as it is. *)
Definition physics_engine : Type :=
  Q -> Q -> Q -> Q -> Q -> value -> Q -> option Physics.status.

(** [G.add_node(n, **attrs)]: a new node is appended to the node
    dictionary, an existing one has the given attributes updated. *)
Fixpoint add_node (l : list (string * attrs node_data)) (n : string)
    (new : attrs node_data) (update : attrs node_data -> attrs node_data)
  : list (string * attrs node_data) :=
  match l with
  | [] => [(n, new)]
  | (k, a) :: rest =>
      if String.eqb k n then (k, update a) :: rest
      else (k, a) :: add_node rest n new update
  end.

(** The [weight] attribute that holds [v]: a value that is not a number
    is no weight to divide. *)
Definition weight_attr (v : value) : option Q :=
  match v with
  | Number q => Some q
  | NotNumber => None
  end.

(** [G.add_node(c_id, type="candidate", data=c, weight=c.get('weight', 1))]:
    the default is for a missing key only. *)
Definition add_candidate_node (l : list (string * attrs node_data))
    (i : nat) (c : candidate_site) : list (string * attrs node_data) :=
  let a :=
    mkAttrs candidate (weight_attr (default (Number 1) (c_weight c)))
            (inl c) in
  add_node l (cand_id i) a (fun _ => a).

(** [G.add_node(t['id'], type="target", data=t)]: a weight the node
    already has is kept. *)
Definition add_target_node (l : list (string * attrs node_data))
    (t : target_point) : list (string * attrs node_data) :=
  add_node l (t_id t) (mkAttrs target None (inr t))
           (fun a => mkAttrs target (weight a) (inr t)).

(** [G.add_edge(u, v)] on the neighbour sets. *)
Definition add_edge (adj : string -> gset string) (u v : string)
  : string -> gset string :=
  fun n => (if String.eqb n u then {[ v ]} else ∅)
           ∪ (if String.eqb n v then {[ u ]} else ∅)
           ∪ adj n.

Definition enumerate {A : Type} (l : list A) : list (nat * A) :=
  combine (seq 0 (length l)) l.

(** [status == 'viable' or status == 'degraded']. *)
Definition link_ok (s : Physics.status) : bool :=
  match s with
  | Physics.viable | Physics.degraded => true
  | Physics.blocked => false
  end.

(** The inner loop [for t in targets] for one candidate. *)
Fixpoint add_edges_for (physics : physics_engine) (freq_mhz rx_height : Q)
    (c_id : string) (c : candidate_site) (targets : list target_point)
    (adj : string -> gset string) : option (string -> gset string) :=
  match targets with
  | [] => Some adj
  | t :: rest =>
      let tx_h := default (Number 10) (c_height c) in
      result ← physics (c_lat c) (c_lon c) (t_lat t) (t_lon t)
                       freq_mhz tx_h rx_height;
      add_edges_for physics freq_mhz rx_height c_id c rest
        (if link_ok result then add_edge adj c_id (t_id t) else adj)
  end.

(** The outer loop [for i, c in enumerate(candidates)]. *)
Fixpoint add_edges (physics : physics_engine) (freq_mhz rx_height : Q)
    (cands : list (nat * candidate_site)) (targets : list target_point)
    (adj : string -> gset string) : option (string -> gset string) :=
  match cands with
  | [] => Some adj
  | (i, c) :: rest =>
      adj' ← add_edges_for physics freq_mhz rx_height (cand_id i) c
               targets adj;
      add_edges physics freq_mhz rx_height rest targets adj'
  end.

(** [build_coverage_graph]; [None] when a link analysis raises. *)
Definition build_coverage_graph (physics : physics_engine)
    (candidates : list candidate_site) (targets : list target_point)
    (freq_mhz rx_height : Q) : option (graph node_data) :=
  let nodes1 :=
    fold_left (fun l ic => add_candidate_node l (fst ic) (snd ic))
              (enumerate candidates) [] in
  let nodes2 := fold_left add_target_node targets nodes1 in
  adj ← add_edges physics freq_mhz rx_height (enumerate candidates)
          targets (fun _ => ∅);
  Some (mkGraph nodes2 adj).

(** The link from a candidate to a target counts. *)
Definition link_counts (physics : physics_engine) (freq_mhz rx_height : Q)
    (c : candidate_site) (t : target_point) : Prop :=
  exists s,
    physics (c_lat c) (c_lon c) (t_lat t) (t_lon t) freq_mhz
            (default (Number 10) (c_height c)) rx_height = Some s /\
    link_ok s = true.

(** The candidate's [weight] is missing or a number. *)
Definition weight_is_number (c : candidate_site) : Prop :=
  c_weight c <> Some NotNumber.

(** A node carries a weight if it is a candidate. *)
Definition weighted_if_candidate (p : string * attrs node_data) : Prop :=
  ntype (snd p) = candidate -> exists w, weight (snd p) = Some w.

(** ** Test data *)

(** The unit square, two candidates, and an engine that sees every target
    south of latitude 1/2 from the first candidate only. *)
Definition unit_square : polygon :=
  mkPolygon 0 0 1 1 (fun x y => Qle_bool 0 x && Qle_bool 0 y).

Definition two_candidates : list candidate_site :=
  [ mkCandidate 0 0 None None;
    mkCandidate 1 1 (Some (Number 20)) (Some (Number 3)) ].

(** A candidate whose [weight] is [null]. *)
Definition null_weight_candidates : list candidate_site :=
  [ mkCandidate 0 0 None (Some NotNumber) ].

Definition south_engine : physics_engine :=
  fun lat1 _ lat2 _ _ _ _ =>
    if Qle_bool lat1 0 && Qle_bool lat2 (1 # 2)
    then Some Physics.viable else Some Physics.blocked.

Definition two_targets : list target_point :=
  [ mkTarget (tgt_id 0) 0 0 5; mkTarget (tgt_id 1) 1 0 7 ].

End Builder.

(* ================================================================== *)
(** * rf_worker.py: the view score *)
(* ================================================================== *)

Module Viewshed.
Import Sieve.

Local Open Scope Q_scope.

Definition directions : list (Z * Z) :=
  [ (0, 1); (0, -1); (1, 0); (-1, 0);
    (1, 1); (1, -1); (-1, 1); (-1, -1) ]%Z.

Definition max_dist : nat := 50.

(** [elev_grid.shape] of a grid given as its list of rows. *)
Definition rows (g : grid) : Z := Z.of_nat (length g).
Definition cols (g : grid) : Z := Z.of_nat (length (nth 0 g [])).

(** [elev_grid[r, c]] for indices inside the grid. *)
Definition elev_at (g : grid) (r c : Z) : Q :=
  nth (Z.to_nat c) (nth (Z.to_nat r) g []) 0.

Definition in_map (g : grid) (r c : Z) : bool :=
  (0 <=? r)%Z && (r <? rows g)%Z && (0 <=? c)%Z && (c <? cols g)%Z.

(** The loop [for i in range(1, max_dist)] from its iteration [i] on, with
    [steps] iterations left; the result is the final [dist]. *)
Fixpoint look (g : grid) (site_elev : Q) (dr dc : Z)
    (current_r current_c : Z) (i steps dist : nat) : nat :=
  match steps with
  | O => dist
  | S steps' =>
      let current_r := (current_r + dr)%Z in
      let current_c := (current_c + dc)%Z in
      if negb (in_map g current_r current_c) then i
      else if Qle_bool site_elev (elev_at g current_r current_c) then i
      else look g site_elev dr dc current_r current_c (S i) steps' i
  end.

(** The distance seen in one direction. *)
Definition view_distance (g : grid) (r c : nat) (d : Z * Z) : nat :=
  look g (elev_at g (Z.of_nat r) (Z.of_nat c) + 10) (fst d) (snd d)
       (Z.of_nat r) (Z.of_nat c) 1 (max_dist - 1) 0.

(** [calculate_view_score]; [None] is the [IndexError] of a site outside
    the grid. *)
Definition calculate_view_score (r c : nat) (g : grid) : option nat :=
  if in_map g (Z.of_nat r) (Z.of_nat c)
  then Some (list_sum (map (view_distance g r c) directions))
  else None.

(** Two grids of the same shape. *)
Definition same_shape (g g' : grid) : Prop :=
  rows g' = rows g /\ cols g' = cols g.

End Viewshed.

(* ================================================================== *)
(** * Properties of the link analyzer *)
(* ================================================================== *)

Module PhysicsProofs.
Import Physics.
Local Open Scope R_scope.

(** ** Lists and running minima *)

Lemma list_min_le_start (l : list R) (m0 : R) : list_min m0 l <= m0.
Proof.
  unfold list_min. revert m0.
  induction l as [|x l IH]; intros m0; simpl; [lra|].
  eapply Rle_trans; [apply IH|apply Rmin_l].
Qed.

Lemma list_min_le_elem (l : list R) (m0 x : R) :
  In x l -> list_min m0 l <= x.
Proof.
  unfold list_min. revert m0.
  induction l as [|y l IH]; intros m0 Hin; simpl in *; [tauto|].
  destruct Hin as [->|Hin].
  - eapply Rle_trans; [apply (list_min_le_start l)|apply Rmin_r].
  - now apply IH.
Qed.

Lemma list_min_cases (l : list R) (m0 : R) :
  list_min m0 l = m0 \/ In (list_min m0 l) l.
Proof.
  unfold list_min. revert m0.
  induction l as [|y l IH]; intros m0; simpl; [now left|].
  destruct (IH (Rmin m0 y)) as [H|H].
  - rewrite H. unfold Rmin. destruct (Rle_dec m0 y); auto.
  - auto.
Qed.

Lemma list_min_ge (l : list R) (m0 b : R) :
  b <= m0 -> (forall x, In x l -> b <= x) -> b <= list_min m0 l.
Proof.
  intros H0 Hl. destruct (list_min_cases l m0) as [->|Hin]; auto.
Qed.

(** ** [linspace] *)

Lemma linspace_length (a b : R) (n : nat) : length (linspace a b n) = n.
Proof.
  destruct n as [|[|n]]; simpl; try reflexivity.
  now rewrite length_map, length_seq.
Qed.

Lemma linspace_nth (a b : R) (n i : nat) :
  (2 <= n)%nat -> (i < n)%nat ->
  nth i (linspace a b n) 0 = a + INR i * ((b - a) / INR (n - 1)).
Proof.
  intros Hn Hi. destruct n as [|[|n]]; try lia.
  unfold linspace.
  set (g := fun k : nat => a + INR k * ((b - a) / INR (S (S n) - 1))).
  change 0 with (0 : R).
  rewrite (nth_indep _ 0 (g O)) by (now rewrite length_map, length_seq).
  rewrite (map_nth g), seq_nth by lia. reflexivity.
Qed.

Lemma linspace_const (a : R) (n i : nat) :
  (i < n)%nat -> nth i (linspace a a n) 0 = a.
Proof.
  intros Hi. destruct n as [|[|n]]; try lia.
  - destruct i; [reflexivity|lia].
  - rewrite linspace_nth by lia. unfold Rdiv. ring.
Qed.

(** ** The clearance loop *)

Lemma Rltb_true (x y : R) : Rltb x y = true <-> x < y.
Proof. unfold Rltb. destruct (Rlt_dec x y); split; intros; (lra || discriminate || auto). Qed.

Lemma Rltb_false (x y : R) : Rltb x y = false <-> y <= x.
Proof. unfold Rltb. destruct (Rlt_dec x y); split; intros; (lra || discriminate || auto). Qed.

Lemma interior_true (dist_m : R) (dists : list R) (i : nat) :
  interior dist_m dists i = true <->
  1 <= nth i dists 0 /\ 1 <= dist_m - nth i dists 0.
Proof.
  unfold interior. rewrite negb_true_iff, orb_false_iff, !Rltb_false. tauto.
Qed.

Lemma fresnel_zone_some (dist_m freq_mhz d1 d2 f1 : R) :
  calculate_fresnel_zone dist_m freq_mhz d1 d2 = Some f1 ->
  f1 = fresnel_radius dist_m freq_mhz d1 d2.
Proof.
  unfold calculate_fresnel_zone, fresnel_radius.
  destruct (Req_dec_T (freq_mhz * 1e6) 0); [discriminate|].
  destruct (Req_dec_T dist_m 0); [discriminate|].
  destruct (Rlt_dec _ 0); [discriminate|].
  intros [= <-]. reflexivity.
Qed.

Lemma fresnel_arg_pos (dist_m freq_mhz d1 d2 : R) :
  0 < freq_mhz -> 1 <= d1 -> 1 <= d2 -> 0 < dist_m ->
  0 < (1 * (2.99792e8 / (freq_mhz * 1e6)) * d1 * d2) / dist_m.
Proof.
  intros Hf H1 H2 Hd.
  assert (Hw : 0 < 2.99792e8 / (freq_mhz * 1e6))
    by (apply Rdiv_lt_0_compat; lra).
  set (w := 2.99792e8 / (freq_mhz * 1e6)) in *.
  apply Rdiv_lt_0_compat; [|assumption].
  assert (0 < w * d1) by (apply Rmult_lt_0_compat; lra).
  replace (1 * w * d1 * d2) with (w * d1 * d2) by ring.
  apply Rmult_lt_0_compat; lra.
Qed.

Lemma fresnel_zone_total (dist_m freq_mhz d1 d2 : R) :
  0 < freq_mhz -> 1 <= d1 -> 1 <= d2 -> 0 < dist_m ->
  calculate_fresnel_zone dist_m freq_mhz d1 d2
  = Some (fresnel_radius dist_m freq_mhz d1 d2).
Proof.
  intros Hf H1 H2 Hd.
  pose proof (fresnel_arg_pos dist_m freq_mhz d1 d2 Hf H1 H2 Hd) as Hx.
  unfold calculate_fresnel_zone, fresnel_radius.
  destruct (Req_dec_T (freq_mhz * 1e6) 0); [lra|].
  destruct (Req_dec_T dist_m 0); [lra|].
  destruct (Rlt_dec _ 0); [lra|]. reflexivity.
Qed.

Lemma fresnel_radius_pos (dist_m freq_mhz d1 d2 : R) :
  0 < freq_mhz -> 1 <= d1 -> 1 <= d2 -> 0 < dist_m ->
  0 < fresnel_radius dist_m freq_mhz d1 d2.
Proof.
  intros. unfold fresnel_radius. apply sqrt_lt_R0.
  now apply fresnel_arg_pos.
Qed.

Lemma scan_step_min (dist_m freq_mhz : R) (dists clearance : list R)
    (st st' : scan) (i : nat) :
  scan_step dist_m freq_mhz dists clearance st i = Some st' ->
  scan_min st' =
    if interior dist_m dists i
    then Rmin (scan_min st) (ratio_at dist_m freq_mhz dists clearance i)
    else scan_min st.
Proof.
  unfold scan_step, interior, ratio_at.
  destruct (Rltb _ 1 || Rltb _ 1); simpl.
  - intros [= <-]. reflexivity.
  - destruct (calculate_fresnel_zone _ _ _ _) as [f1|] eqn:Hf; simpl;
      [|discriminate].
    apply fresnel_zone_some in Hf. subst f1.
    unfold Rmin.
    destruct (Rlt_dec _ (scan_min st)); intros [= <-]; simpl;
      destruct (Rle_dec (scan_min st) _); lra.
Qed.

Lemma scan_step_total (dist_m freq_mhz : R) (dists clearance : list R)
    (st : scan) (i : nat) :
  0 < freq_mhz ->
  exists st', scan_step dist_m freq_mhz dists clearance st i = Some st'.
Proof.
  intros Hf. unfold scan_step.
  destruct (Rltb _ 1 || Rltb _ 1) eqn:Hb; [eauto|].
  apply orb_false_iff in Hb. destruct Hb as [H1 H2].
  apply Rltb_false in H1, H2.
  rewrite fresnel_zone_total by lra. simpl.
  destruct (Rlt_dec _ _); eauto.
Qed.

Lemma scan_loop_min (dist_m freq_mhz : R) (dists clearance : list R)
    (idxs : list nat) (st st' : scan) :
  scan_loop dist_m freq_mhz dists clearance idxs st = Some st' ->
  scan_min st' =
    list_min (scan_min st)
      (map (ratio_at dist_m freq_mhz dists clearance)
           (filter (fun i => interior dist_m dists i = true) idxs)).
Proof.
  revert st. induction idxs as [|i idxs IH]; intros st; simpl.
  - intros [= <-]. reflexivity.
  - destruct (scan_step _ _ _ _ st i) as [st1|] eqn:Hs; simpl; [|discriminate].
    intros Hl. apply IH in Hl. rewrite Hl.
    apply scan_step_min in Hs. rewrite Hs.
    rewrite filter_cons.
    destruct (decide (interior dist_m dists i = true)) as [Hi|Hi].
    + rewrite Hi. reflexivity.
    + apply not_true_is_false in Hi. rewrite Hi. reflexivity.
Qed.

Lemma scan_loop_total (dist_m freq_mhz : R) (dists clearance : list R)
    (idxs : list nat) (st : scan) :
  0 < freq_mhz ->
  exists st', scan_loop dist_m freq_mhz dists clearance idxs st = Some st'.
Proof.
  intros Hf. revert st. induction idxs as [|i idxs IH]; intros st; simpl.
  - eauto.
  - destruct (scan_step_total dist_m freq_mhz dists clearance st i Hf)
      as [st1 ->]. simpl. apply IH.
Qed.

(** What [analyze_link] returns, in terms of the profile. *)
Lemma analyze_link_some (tm : tile_manager)
    (lat1 lon1 lat2 lon2 freq_mhz tx_h rx_h : R) (res : LinkResult) :
  analyze_link tm lat1 lon1 lat2 lon2 freq_mhz tx_h rx_h = Some res ->
  let elevs := fst (generate_profile tm lat1 lon1 lat2 lon2) in
  let dist_m := snd (generate_profile tm lat1 lon1 lat2 lon2) in
  profile res = elevs /\
  dist_km res = dist_m / 1000 /\
  path_loss_db res = 0 /\
  link_status res = classify (min_clearance_ratio res) /\
  min_clearance_ratio res =
    list_min 100 (interior_ratios elevs dist_m freq_mhz tx_h rx_h).
Proof.
  unfold analyze_link.
  destruct (generate_profile tm lat1 lon1 lat2 lon2) as [elevs dist_m].
  destruct (analyze_scan elevs dist_m freq_mhz tx_h rx_h) as [st|] eqn:Hs;
    simpl; [|discriminate].
  intros [= <-]. simpl. repeat split; try lra.
  unfold analyze_scan in Hs. apply scan_loop_min in Hs.
  rewrite Hs. unfold interior_ratios, scan_init. simpl. f_equal. lra.
Qed.

Lemma analyze_link_total (tm : tile_manager)
    (lat1 lon1 lat2 lon2 freq_mhz tx_h rx_h : R) :
  0 < freq_mhz ->
  exists res,
    analyze_link tm lat1 lon1 lat2 lon2 freq_mhz tx_h rx_h = Some res.
Proof.
  intros Hf. unfold analyze_link.
  destruct (generate_profile tm lat1 lon1 lat2 lon2) as [elevs dist_m].
  unfold analyze_scan.
  destruct (scan_loop_total dist_m freq_mhz (linspace 0 dist_m (length elevs))
              (clearance_of elevs dist_m tx_h rx_h) (seq 0 (length elevs))
              scan_init Hf) as [st ->].
  simpl. eauto.
Qed.

Lemma classify_spec (r : R) :
  (classify r = blocked <-> r < 0) /\
  (classify r = degraded <-> 0 <= r < 0.6) /\
  (classify r = viable <-> 0.6 <= r).
Proof.
  unfold classify.
  destruct (Rlt_dec r 0); [|destruct (Rlt_dec r 0.6)];
    repeat split; intros; try discriminate; try lra.
Qed.

(** ** Distances on the equator *)

Lemma PI_bounds : 2 < PI <= 4.
Proof. pose proof PI2_1. pose proof PI_4. lra. Qed.

Lemma haversine_equator (x : R) :
  0 < x < 180 ->
  haversine_distance 0 0 0 x = EARTH_RADIUS_KM * 1000 * radians x.
Proof.
  intros Hx. unfold haversine_distance, radians.
  pose proof PI_bounds as HPI.
  replace ((0 - 0) * PI / 180 / 2) with 0 by lra.
  replace (0 * PI / 180) with 0 by lra.
  replace ((x - 0) * PI / 180 / 2) with (x * PI / 360) by lra.
  set (t := x * PI / 360).
  assert (Ht : 0 < t < PI / 2) by (unfold t; split; nra).
  assert (Hs : 0 < sin t) by (apply sin_gt_0; lra).
  assert (Hc : 0 < cos t) by (apply cos_gt_0; lra).
  rewrite sin_0, cos_0.
  replace (0 ^ 2 + 1 * 1 * sin t ^ 2) with (sin t ^ 2) by ring.
  replace (1 - sin t ^ 2) with (cos t ^ 2)
    by (pose proof (sin2_cos2 t) as H; unfold Rsqr in H; lra).
  rewrite !sqrt_pow2 by lra.
  unfold atan2. destruct (Rlt_dec 0 (cos t)); [|lra].
  change (sin t / cos t) with (tan t).
  rewrite atan_tan by lra. unfold t. lra.
Qed.

Lemma haversine_lon_at (d : R) :
  0 < d < 6371000 ->
  haversine_distance 0 0 0 (lon_at d) = d.
Proof.
  intros Hd. pose proof PI_bounds as HPI.
  assert (HE : EARTH_RADIUS_KM * 1000 = 6371000) by (unfold EARTH_RADIUS_KM; lra).
  assert (Hl : lon_at d = d / 6371000 * (180 / PI)).
  { unfold lon_at. rewrite HE. field. lra. }
  assert (H1 : 0 < 180 / PI < 90).
  { split; [apply Rdiv_lt_0_compat; lra|].
    apply Rmult_lt_reg_r with PI; [lra|].
    unfold Rdiv. rewrite Rmult_assoc, Rinv_l by lra. lra. }
  rewrite haversine_equator.
  - unfold radians. rewrite Hl, HE. field. lra.
  - rewrite Hl. split; [apply Rmult_lt_0_compat; lra|].
    assert (0 < d / 6371000 < 1) by (split; lra). nra.
Qed.

(** ** Profiles *)

Lemma int_eval (x : R) (z : Z) :
  0 <= x -> IZR z <= x < IZR z + 1 -> int x = z.
Proof.
  intros H0 Hz. unfold int. destruct (Rle_dec 0 x); [|lra].
  symmetry. apply Int_part_spec. lra.
Qed.

Lemma generate_profile_dist (tm : tile_manager) (lat1 lon1 lat2 lon2 : R) :
  snd (generate_profile tm lat1 lon1 lat2 lon2)
  = haversine_distance lat1 lon1 lat2 lon2.
Proof.
  unfold generate_profile.
  destruct (Req_dec_T _ 0) as [->|]; reflexivity.
Qed.

Lemma generate_profile_length (tm : tile_manager) (lat1 lon1 lat2 lon2 : R) :
  haversine_distance lat1 lon1 lat2 lon2 <> 0 ->
  length (fst (generate_profile tm lat1 lon1 lat2 lon2))
  = Z.to_nat (Z.max 2 (int (haversine_distance lat1 lon1 lat2 lon2 / step_meters))).
Proof.
  intros Hd. unfold generate_profile.
  destruct (Req_dec_T _ 0); [contradiction|]. simpl.
  rewrite length_map, length_combine, !linspace_length. lia.
Qed.

Lemma all_equal_repeat (e : R) (l : list R) :
  (forall x, In x l -> x = e) -> l = repeat e (length l).
Proof.
  induction l as [|y l IH]; intros H; simpl; [reflexivity|].
  rewrite (H y) by (now left). f_equal. apply IH.
  intros x Hx. apply H. now right.
Qed.

Lemma generate_profile_flat (e lat1 lon1 lat2 lon2 : R) (x : R) :
  In x (fst (generate_profile (flat_terrain e) lat1 lon1 lat2 lon2)) -> x = e.
Proof.
  unfold generate_profile, flat_terrain.
  destruct (Req_dec_T _ 0); simpl.
  - intros [<-|[]]. reflexivity.
  - rewrite in_map_iff. intros (p & <- & _). reflexivity.
Qed.

(** ** The clearance vector *)

Lemma nth_zip_with (f : R -> R -> R) (l1 l2 : list R) (i : nat) :
  (i < length l1)%nat -> (i < length l2)%nat ->
  nth i (zip_with f l1 l2) 0 = f (nth i l1 0) (nth i l2 0).
Proof.
  revert l2 i. induction l1 as [|a l1 IH]; intros [|b l2] [|i]; simpl;
    intros H1 H2; try lia; try reflexivity.
  apply IH; lia.
Qed.

Lemma nth_map_R (f : R -> R) (l : list R) (i : nat) :
  (i < length l)%nat -> nth i (map f l) 0 = f (nth i l 0).
Proof.
  intros Hi. rewrite (nth_indep _ 0 (f 0)) by (now rewrite length_map).
  apply map_nth.
Qed.

Lemma clearance_nth (elevs : list R) (dist_m tx_h rx_h : R) (i : nat) :
  (i < length elevs)%nat ->
  let dists := linspace 0 dist_m (length elevs) in
  nth i (clearance_of elevs dist_m tx_h rx_h) 0 =
    nth i (linspace (nth 0 elevs 0 + tx_h) (List.last elevs 0 + rx_h)
             (length elevs)) 0
    - (nth i elevs 0
       + nth i dists 0 * (dist_m - nth i dists 0) / (2 * R_eff)).
Proof.
  intros Hi dists. unfold clearance_of. fold dists.
  assert (Hl : length dists = length elevs) by apply linspace_length.
  rewrite nth_zip_with;
    rewrite ?linspace_length, ?length_zip_with, ?length_map, ?length_zip_with,
            ?length_map, ?Hl; try lia.
  rewrite nth_zip_with;
    rewrite ?length_map, ?length_zip_with, ?length_map, ?Hl; try lia.
  rewrite nth_map_R by (rewrite length_zip_with, length_map, Hl; lia).
  rewrite nth_zip_with by (rewrite ?length_map, ?Hl; lia).
  rewrite nth_map_R by lia. reflexivity.
Qed.

Lemma nth_repeat_R (e : R) (n i : nat) :
  (i < n)%nat -> nth i (repeat e n) 0 = e.
Proof.
  revert i. induction n as [|n IH]; intros [|i] Hi; simpl; try lia; auto.
  apply IH. lia.
Qed.

Lemma last_repeat_R (e : R) (n : nat) :
  (0 < n)%nat -> List.last (repeat e n) 0 = e.
Proof.
  induction n as [|[|n] IH]; intros Hn; try lia; [reflexivity|].
  change (repeat e (S (S n))) with (e :: repeat e (S n)).
  change (List.last (e :: repeat e (S n)) 0) with (List.last (repeat e (S n)) 0).
  apply IH. lia.
Qed.

(** Over flat terrain with equal antenna heights the clearance at a sample
    is the antenna height minus the earth bulge. *)
Lemma clearance_flat (e dist_m h : R) (n i : nat) :
  (i < n)%nat ->
  let d1 := nth i (linspace 0 dist_m n) 0 in
  nth i (clearance_of (repeat e n) dist_m h h) 0
  = h - d1 * (dist_m - d1) / (2 * R_eff).
Proof.
  intros Hi d1.
  pose proof (clearance_nth (repeat e n) dist_m h h i) as H.
  rewrite repeat_length in H. specialize (H Hi). simpl in H.
  rewrite H. fold d1.
  rewrite !nth_repeat_R, last_repeat_R, linspace_const by lia. lra.
Qed.

Lemma interior_ratio_in (elevs : list R) (dist_m freq_mhz tx_h rx_h : R)
    (i : nat) :
  (i < length elevs)%nat ->
  interior dist_m (linspace 0 dist_m (length elevs)) i = true ->
  In (ratio_at dist_m freq_mhz (linspace 0 dist_m (length elevs))
        (clearance_of elevs dist_m tx_h rx_h) i)
     (interior_ratios elevs dist_m freq_mhz tx_h rx_h).
Proof.
  intros Hi Hint. unfold interior_ratios. apply in_map.
  apply list_elem_of_In, list_elem_of_filter. split; [assumption|].
  apply list_elem_of_In, in_seq. lia.
Qed.

Lemma interior_ratio_inv (elevs : list R) (dist_m freq_mhz tx_h rx_h r : R) :
  In r (interior_ratios elevs dist_m freq_mhz tx_h rx_h) ->
  exists i, (i < length elevs)%nat /\
    interior dist_m (linspace 0 dist_m (length elevs)) i = true /\
    r = ratio_at dist_m freq_mhz (linspace 0 dist_m (length elevs))
          (clearance_of elevs dist_m tx_h rx_h) i.
Proof.
  unfold interior_ratios. rewrite in_map_iff. intros (i & <- & Hin).
  apply list_elem_of_In, list_elem_of_filter in Hin. destruct Hin as [Hint Hs].
  apply list_elem_of_In, in_seq in Hs. exists i. repeat split; auto. lia.
Qed.

(** ** Flat terrain along the equator *)

Lemma profile_equator (e d : R) (n : nat) :
  0 < d < 6371000 ->
  Z.to_nat (Z.max 2 (int (d / step_meters))) = n ->
  generate_profile (flat_terrain e) 0 0 0 (lon_at d) = (repeat e n, d).
Proof.
  intros Hd Hn.
  pose proof (haversine_lon_at d Hd) as Hh.
  pose proof (generate_profile_dist (flat_terrain e) 0 0 0 (lon_at d)) as H2.
  pose proof (generate_profile_length (flat_terrain e) 0 0 0 (lon_at d)) as H1.
  rewrite Hh in H1, H2. rewrite Hn in H1.
  pose proof (all_equal_repeat e _
                (generate_profile_flat e 0 0 0 (lon_at d))) as H3.
  rewrite H1 in H3 by lra.
  destruct (generate_profile (flat_terrain e) 0 0 0 (lon_at d)) as [l x].
  simpl in *. congruence.
Qed.

Lemma linspace_mid (d : R) (k : nat) :
  (1 <= k)%nat -> nth k (linspace 0 d (2 * k + 1)) 0 = d / 2.
Proof.
  intros Hk. rewrite linspace_nth by lia.
  replace (2 * k + 1 - 1)%nat with (2 * k)%nat by lia.
  rewrite mult_INR. simpl (INR 2).
  assert (0 < INR k) by (apply lt_0_INR; lia).
  field. lra.
Qed.

(** The reported ratio is at most the ratio at the midpoint sample. *)
Lemma flat_equator_mid_bound (e d freq_mhz h : R) (k : nat) (res : LinkResult) :
  2 <= d < 6371000 -> (1 <= k)%nat ->
  int (d / step_meters) = Z.of_nat (2 * k + 1) ->
  analyze_link (flat_terrain e) 0 0 0 (lon_at d) freq_mhz h h = Some res ->
  min_clearance_ratio res <=
    (h - d / 2 * (d / 2) / (2 * R_eff)) / fresnel_radius d freq_mhz (d / 2) (d / 2).
Proof.
  intros Hd Hk Hint Hres.
  apply analyze_link_some in Hres. cbv zeta in Hres.
  destruct Hres as (_ & _ & _ & _ & Hmin).
  pose proof (linspace_mid d k Hk) as Hmid.
  assert (Hn : Z.to_nat (Z.max 2 (int (d / step_meters))) = (2 * k + 1)%nat)
    by (rewrite Hint; lia).
  assert (Hkn : (k < 2 * k + 1)%nat) by lia.
  revert Hmid Hn Hkn. generalize (2 * k + 1)%nat. intros n Hmid Hn Hkn.
  rewrite (profile_equator e d n) in Hmin by (assumption || lra).
  cbn [fst snd] in Hmin. rewrite Hmin.
  pose proof (interior_ratio_in (repeat e n) d freq_mhz h h k) as Hin.
  rewrite repeat_length in Hin.
  assert (Hi : interior d (linspace 0 d n) k = true).
  { apply interior_true. rewrite Hmid. lra. }
  specialize (Hin Hkn Hi).
  eapply Rle_trans; [apply list_min_le_elem, Hin|].
  unfold ratio_at. rewrite clearance_flat by lia. cbv zeta.
  rewrite Hmid. replace (d - d / 2) with (d / 2) by lra. lra.
Qed.

(** ** C1: classification from the minimum clearance ratio *)

Lemma R_eff_value : R_eff = 8492543.
Proof. unfold R_eff, k_factor, EARTH_RADIUS_KM. lra. Qed.

(** The 100 m link of the C1 example: three samples, the middle one
    interior, the two ends not. *)
Lemma short_link_interior (i : nat) :
  (i < 3)%nat -> interior 100 (linspace 0 100 3) i = true -> i = 1%nat.
Proof.
  intros Hi Hint. apply interior_true in Hint.
  destruct i as [|[|[|i]]]; try lia; try reflexivity;
    rewrite linspace_nth in Hint by lia; simpl in Hint; lra.
Qed.

Lemma short_link_ratio :
  ratio_at 100 29979.2 (linspace 0 100 3)
    (clearance_of (repeat 0 3) 100 60 60) 1
  = 2 * (60 - 2500 / (2 * R_eff)).
Proof.
  unfold ratio_at. rewrite clearance_flat by lia. cbv zeta.
  rewrite linspace_nth by lia. simpl (INR _).
  replace (0 + 1 * ((100 - 0) / (1 + 1))) with 50 by lra.
  replace (100 - 50) with 50 by lra.
  unfold fresnel_radius.
  replace (1 * (2.99792e8 / (29979.2 * 1e6)) * 50 * 50 / 100) with (0.5 * 0.5)
    by lra.
  rewrite sqrt_square by lra. lra.
Qed.

(** C1, counterexample.  A 100 m link over flat ground at 29979.2 MHz with
    both antennas 60 m high has one interior sample, whose clearance ratio
    is about 120; the returned [min_clearance_ratio] is the initial 100.0,
    which is not the minimum of the clearance ratios of the profile. *)
Lemma C1_counterexample :
  exists res,
    analyze_link (flat_terrain 0) 0 0 0 (lon_at 100) 29979.2 60 60 = Some res /\
    min_clearance_ratio res = 100 /\
    interior_ratios (profile res) (dist_km res * 1000) 29979.2 60 60
      = [2 * (60 - 2500 / (2 * R_eff))] /\
    ~ is_minimum (min_clearance_ratio res)
        (interior_ratios (profile res) (dist_km res * 1000) 29979.2 60 60).
Proof.
  destruct (analyze_link_total (flat_terrain 0) 0 0 0 (lon_at 100) 29979.2 60 60)
    as [res Hres]; [lra|].
  exists res. split; [assumption|].
  apply analyze_link_some in Hres. cbv zeta in Hres.
  assert (Hn : Z.to_nat (Z.max 2 (int (100 / step_meters))) = 3%nat).
  { rewrite (int_eval _ 3); unfold step_meters; [reflexivity|lra|lra]. }
  rewrite (profile_equator 0 100 3) in Hres by (assumption || lra).
  cbn [fst snd] in Hres. destruct Hres as (Hp & Hd & _ & _ & Hmin).
  rewrite Hp, Hd. replace (100 / 1000 * 1000) with 100 by lra.
  assert (Hl : interior_ratios (repeat 0 3) 100 29979.2 60 60
               = [2 * (60 - 2500 / (2 * R_eff))]).
  { unfold interior_ratios. rewrite repeat_length.
    assert (H0 : interior 100 (linspace 0 100 3) 0 = false).
    { apply not_true_is_false. intros H.
      apply short_link_interior in H; lia. }
    assert (H1 : interior 100 (linspace 0 100 3) 1 = true).
    { apply interior_true. rewrite linspace_nth by lia. simpl. lra. }
    assert (H2 : interior 100 (linspace 0 100 3) 2 = false).
    { apply not_true_is_false. intros H.
      apply short_link_interior in H; lia. }
    change (seq 0 3) with [0; 1; 2]%nat.
    rewrite !filter_cons, filter_nil.
    rewrite H0, H1, H2.
    repeat (destruct (decide _) as [?|?]; try congruence).
    cbn [map]. rewrite short_link_ratio. reflexivity. }
  assert (Hbig : 100 < 2 * (60 - 2500 / (2 * R_eff))).
  { rewrite R_eff_value. lra. }
  assert (Hm : min_clearance_ratio res = 100).
  { rewrite Hmin, Hl. unfold list_min. simpl.
    unfold Rmin. destruct (Rle_dec _ _); lra. }
  repeat split; [assumption|assumption|].
  rewrite Hm, Hl. intros [[H|[]] _]. lra.
Qed.

(** C1, as amended.  For a positive frequency [analyze_link] returns; the
    status is classified from the returned [min_clearance_ratio] (below 0
    blocked, from 0 and below 0.6 degraded, from 0.6 viable); and that field
    is the running minimum, started at 100.0, of the clearance ratios of
    the samples at least 1 m from both endpoints, so it equals the minimum
    of those ratios whenever that minimum is at most 100. *)
Theorem C1_status_from_capped_minimum (tm : tile_manager)
    (lat1 lon1 lat2 lon2 freq_mhz tx_h rx_h : R) :
  0 < freq_mhz ->
  exists res,
    analyze_link tm lat1 lon1 lat2 lon2 freq_mhz tx_h rx_h = Some res /\
    (link_status res = blocked <-> min_clearance_ratio res < 0) /\
    (link_status res = degraded <-> 0 <= min_clearance_ratio res < 0.6) /\
    (link_status res = viable <-> 0.6 <= min_clearance_ratio res) /\
    let ratios :=
      interior_ratios (fst (generate_profile tm lat1 lon1 lat2 lon2))
        (snd (generate_profile tm lat1 lon1 lat2 lon2)) freq_mhz tx_h rx_h in
    min_clearance_ratio res = list_min 100 ratios /\
    (forall m, is_minimum m ratios -> m <= 100 ->
               min_clearance_ratio res = m).
Proof.
  intros Hf.
  destruct (analyze_link_total tm lat1 lon1 lat2 lon2 freq_mhz tx_h rx_h Hf)
    as [res Hres].
  exists res. split; [assumption|].
  apply analyze_link_some in Hres. cbv zeta in Hres.
  destruct Hres as (_ & _ & _ & Hst & Hmin).
  rewrite Hst.
  destruct (classify_spec (min_clearance_ratio res)) as (Hb & Hd & Hv).
  repeat split; try apply Hb; try apply Hd; try apply Hv; try assumption.
  intros m [Hin Hle] Hm. rewrite Hmin.
  apply Rle_antisym.
  - now apply list_min_le_elem.
  - apply list_min_ge; auto.
Qed.

Lemma C1_status_from_capped_minimum_witness :
  exists res,
    analyze_link (flat_terrain 0) 0 0 0 (lon_at 100) 915 10 10 = Some res /\
    (link_status res = blocked <-> min_clearance_ratio res < 0) /\
    (link_status res = degraded <-> 0 <= min_clearance_ratio res < 0.6) /\
    (link_status res = viable <-> 0.6 <= min_clearance_ratio res) /\
    let ratios :=
      interior_ratios
        (fst (generate_profile (flat_terrain 0) 0 0 0 (lon_at 100)))
        (snd (generate_profile (flat_terrain 0) 0 0 0 (lon_at 100))) 915 10 10 in
    min_clearance_ratio res = list_min 100 ratios /\
    (forall m, is_minimum m ratios -> m <= 100 ->
               min_clearance_ratio res = m).
Proof.
  apply (C1_status_from_capped_minimum (flat_terrain 0) 0 0 0 (lon_at 100)
           915 10 10).
  lra.
Defined.

(** ** C2: flat terrain and equal antenna heights *)

Lemma Rle_div_pos (q c F : R) : 0 < F -> q * F <= c -> q <= c / F.
Proof.
  intros HF H. apply Rmult_le_reg_r with F; [assumption|].
  unfold Rdiv. rewrite Rmult_assoc, Rinv_l by lra. lra.
Qed.

Lemma Rdiv_lt_pos (q c F : R) : 0 < F -> c < q * F -> c / F < q.
Proof.
  intros HF H. apply Rmult_lt_reg_r with F; [assumption|].
  unfold Rdiv. rewrite Rmult_assoc, Rinv_l by lra. lra.
Qed.

(** The Fresnel radius is largest at mid-path. *)
Lemma fresnel_radius_le_mid (dist_m freq_mhz d1 : R) :
  0 < freq_mhz -> 0 < dist_m ->
  fresnel_radius dist_m freq_mhz d1 (dist_m - d1)
  <= sqrt (2.99792e8 / (freq_mhz * 1e6) * dist_m / 4).
Proof.
  intros Hf Hd. unfold fresnel_radius. apply sqrt_le_1_alt.
  assert (Hw : 0 < 2.99792e8 / (freq_mhz * 1e6))
    by (apply Rdiv_lt_0_compat; lra).
  set (w := 2.99792e8 / (freq_mhz * 1e6)) in *.
  replace (w * dist_m / 4) with (w * (dist_m * dist_m / 4) / dist_m)
    by (field; lra).
  unfold Rdiv at 1 3. apply Rmult_le_compat_r.
  - left. now apply Rinv_0_lt_compat.
  - replace (1 * w * d1 * (dist_m - d1)) with (w * (d1 * (dist_m - d1))) by ring.
    apply Rmult_le_compat_l; [lra|].
    pose proof (pow2_ge_0 (d1 - dist_m / 2)). nra.
Qed.

(** Every interior ratio of a flat profile is at least [q] once the antenna
    height exceeds the mid-path bulge by [q] mid-path Fresnel radii. *)
Lemma flat_ratio_lower (e dist_m freq_mhz h q : R) (n i : nat) :
  0 < freq_mhz -> 0 <= q -> (i < n)%nat ->
  interior dist_m (linspace 0 dist_m n) i = true ->
  dist_m ^ 2 / (8 * R_eff)
    + q * sqrt (2.99792e8 / (freq_mhz * 1e6) * dist_m / 4) <= h ->
  q <= ratio_at dist_m freq_mhz (linspace 0 dist_m n)
         (clearance_of (repeat e n) dist_m h h) i.
Proof.
  intros Hf Hq Hi Hint Hh.
  apply interior_true in Hint. destruct Hint as [H1 H2].
  unfold ratio_at. rewrite clearance_flat by assumption. cbv zeta.
  set (d1 := nth i (linspace 0 dist_m n) 0) in *.
  assert (Hd : 0 < dist_m) by lra.
  pose proof (fresnel_radius_pos dist_m freq_mhz d1 (dist_m - d1) Hf H1 H2 Hd)
    as HF.
  pose proof (fresnel_radius_le_mid dist_m freq_mhz d1 Hf Hd) as HFm.
  apply Rle_div_pos; [assumption|].
  assert (Hb : d1 * (dist_m - d1) / (2 * R_eff) <= dist_m ^ 2 / (8 * R_eff)).
  { rewrite R_eff_value. pose proof (pow2_ge_0 (d1 - dist_m / 2)). nra. }
  assert (q * fresnel_radius dist_m freq_mhz d1 (dist_m - d1)
          <= q * sqrt (2.99792e8 / (freq_mhz * 1e6) * dist_m / 4))
    by (apply Rmult_le_compat_l; lra).
  lra.
Qed.

(** C2, counterexample.  The scenario of the specification itself: two
    endpoints 10 km apart over flat terrain at 0 m, 1000 MHz, both
    antennas 10 m high.  The premises of the claim hold, and the link is
    reported degraded: at mid-path the clearance is below 10 m while 60 %
    of the Fresnel radius is above 16 m. *)
Lemma C2_counterexample :
  haversine_distance 0 0 0 (lon_at 10000) = 10000 /\
  exists res,
    analyze_link (flat_terrain 0) 0 0 0 (lon_at 10000) 1000 10 10 = Some res /\
    (forall x, In x (profile res) -> x = 0) /\
    link_status res = degraded /\
    min_clearance_ratio res < 0.6.
Proof.
  split; [apply haversine_lon_at; lra|].
  destruct (analyze_link_total (flat_terrain 0) 0 0 0 (lon_at 10000) 1000 10 10)
    as [res Hres]; [lra|].
  exists res. split; [assumption|].
  assert (Hint : int (10000 / step_meters) = Z.of_nat (2 * 166 + 1)).
  { rewrite (int_eval _ 333); unfold step_meters; [reflexivity|lra|lra]. }
  pose proof (flat_equator_mid_bound 0 10000 1000 10 166 res
                ltac:(lra) ltac:(lia) Hint Hres) as Hmid.
  apply analyze_link_some in Hres. cbv zeta in Hres.
  destruct Hres as (Hp & _ & _ & Hst & Hmin).
  assert (Hlt : min_clearance_ratio res < 0.6).
  { eapply Rle_lt_trans; [exact Hmid|].
    assert (HF : 27 < fresnel_radius 10000 1000 (10000 / 2) (10000 / 2)).
    { unfold fresnel_radius.
      replace 27 with (sqrt (27 * 27)) by (apply sqrt_square; lra).
      apply sqrt_lt_1_alt. lra. }
    apply Rdiv_lt_pos; [lra|].
    rewrite R_eff_value. lra. }
  assert (Hge : 0 <= min_clearance_ratio res).
  { rewrite Hmin. apply list_min_ge; [lra|].
    intros r Hr. apply interior_ratio_inv in Hr.
    destruct Hr as (i & Hi & Hin & ->).
    rewrite (all_equal_repeat 0 _
               (generate_profile_flat 0 0 0 0 (lon_at 10000))) at 2.
    rewrite generate_profile_dist, haversine_lon_at in * by lra.
    apply (flat_ratio_lower 0 10000 1000 10 0); try lra; try assumption.
    rewrite R_eff_value. lra. }
  split; [|split; [|assumption]].
  - intros x. rewrite Hp. apply generate_profile_flat.
  - rewrite Hst. apply classify_spec. lra.
Qed.

(** C2, as amended.  Over a flat profile with both antennas at height [h],
    a link of length [D > 0] at a positive frequency is reported viable,
    with [min_clearance_ratio >= 0.6], whenever [h] is at least the
    mid-path earth bulge [D^2 / (8 k R)] plus 60 % of the mid-path Fresnel
    radius [sqrt (wavelength * D / 4)]. *)
Theorem C2_flat_viable_when_antennas_clear (tm : tile_manager)
    (lat1 lon1 lat2 lon2 freq_mhz h e : R) :
  0 < freq_mhz ->
  0 < haversine_distance lat1 lon1 lat2 lon2 ->
  (forall x, In x (fst (generate_profile tm lat1 lon1 lat2 lon2)) -> x = e) ->
  haversine_distance lat1 lon1 lat2 lon2 ^ 2 / (8 * R_eff)
    + 0.6 * sqrt (2.99792e8 / (freq_mhz * 1e6)
                  * haversine_distance lat1 lon1 lat2 lon2 / 4) <= h ->
  exists res,
    analyze_link tm lat1 lon1 lat2 lon2 freq_mhz h h = Some res /\
    link_status res = viable /\
    0.6 <= min_clearance_ratio res.
Proof.
  intros Hf HD Hflat Hh.
  destruct (analyze_link_total tm lat1 lon1 lat2 lon2 freq_mhz h h Hf)
    as [res Hres].
  exists res. split; [assumption|].
  apply analyze_link_some in Hres. cbv zeta in Hres.
  destruct Hres as (_ & _ & _ & Hst & Hmin).
  assert (Hge : 0.6 <= min_clearance_ratio res).
  { rewrite Hmin. apply list_min_ge; [lra|].
    intros r Hr. apply interior_ratio_inv in Hr.
    destruct Hr as (i & Hi & Hin & ->).
    rewrite (all_equal_repeat e _ Hflat) at 2.
    rewrite generate_profile_dist in *.
    apply (flat_ratio_lower e _ freq_mhz h 0.6); try lra; assumption. }
  split; [|assumption].
  rewrite Hst. apply classify_spec. assumption.
Qed.

Lemma C2_flat_viable_when_antennas_clear_witness :
  exists res,
    analyze_link (flat_terrain 0) 0 0 0 (lon_at 100) 299.792 10 10 = Some res /\
    link_status res = viable /\
    0.6 <= min_clearance_ratio res.
Proof.
  apply (C2_flat_viable_when_antennas_clear (flat_terrain 0) 0 0 0 (lon_at 100)
           299.792 10 0).
  - lra.
  - rewrite haversine_lon_at; lra.
  - apply generate_profile_flat.
  - rewrite haversine_lon_at by lra.
    replace (2.99792e8 / (299.792 * 1e6) * 100 / 4) with (5 * 5) by lra.
    rewrite sqrt_square by lra. rewrite R_eff_value. lra.
Defined.

(** ** C3: the ratio as a function of frequency *)

Lemma fresnel_radius_freq_lt (dist_m f1 f2 d1 d2 : R) :
  0 < f1 < f2 -> 1 <= d1 -> 1 <= d2 -> 0 < dist_m ->
  fresnel_radius dist_m f2 d1 d2 < fresnel_radius dist_m f1 d1 d2.
Proof.
  intros Hf H1 H2 Hd. unfold fresnel_radius.
  apply sqrt_lt_1_alt. split.
  - left. apply fresnel_arg_pos; lra.
  - assert (Hw : 2.99792e8 / (f2 * 1e6) < 2.99792e8 / (f1 * 1e6)).
    { unfold Rdiv. apply Rmult_lt_compat_l; [lra|].
      apply Rinv_lt_contravar; [|lra].
      apply Rmult_lt_0_compat; lra. }
    set (w1 := 2.99792e8 / (f1 * 1e6)) in *.
    set (w2 := 2.99792e8 / (f2 * 1e6)) in *.
    assert (HK : 0 < d1 * d2 / dist_m).
    { apply Rdiv_lt_0_compat; [|assumption]. apply Rmult_lt_0_compat; lra. }
    replace (1 * w2 * d1 * d2 / dist_m) with (w2 * (d1 * d2 / dist_m))
      by (unfold Rdiv; ring).
    replace (1 * w1 * d1 * d2 / dist_m) with (w1 * (d1 * d2 / dist_m))
      by (unfold Rdiv; ring).
    apply Rmult_lt_compat_r; assumption.
Qed.

(** At an interior sample a higher frequency moves the ratio away from 0. *)
Lemma ratio_at_freq (dist_m f1 f2 : R) (dists clearance : list R) (i : nat) :
  0 < f1 < f2 -> interior dist_m dists i = true ->
  let r1 := ratio_at dist_m f1 dists clearance i in
  let r2 := ratio_at dist_m f2 dists clearance i in
  (0 <= r1 -> r1 <= r2) /\ (r1 < 0 -> r2 < r1).
Proof.
  intros Hf Hint. apply interior_true in Hint. destruct Hint as [H1 H2].
  cbv zeta. unfold ratio_at.
  set (d1 := nth i dists 0) in *. set (c := nth i clearance 0).
  assert (Hd : 0 < dist_m) by lra.
  pose proof (fresnel_radius_pos dist_m f1 d1 (dist_m - d1)
                ltac:(lra) H1 H2 Hd) as HF1.
  pose proof (fresnel_radius_pos dist_m f2 d1 (dist_m - d1)
                ltac:(lra) H1 H2 Hd) as HF2.
  pose proof (fresnel_radius_freq_lt dist_m f1 f2 d1 (dist_m - d1)
                Hf H1 H2 Hd) as Hlt.
  set (F1 := fresnel_radius dist_m f1 d1 (dist_m - d1)) in *.
  set (F2 := fresnel_radius dist_m f2 d1 (dist_m - d1)) in *.
  assert (Hinv : / F1 < / F2).
  { apply Rinv_lt_contravar; [apply Rmult_lt_0_compat|]; assumption. }
  assert (HiF1 : 0 < / F1) by now apply Rinv_0_lt_compat.
  unfold Rdiv. split; intros Hr.
  - assert (0 <= c).
    { destruct (Rle_dec 0 c) as [|Hn]; [assumption|].
      assert (c * / F1 < 0) by nra. lra. }
    nra.
  - assert (c < 0).
    { destruct (Rlt_dec c 0) as [|Hn]; [assumption|].
      assert (0 <= c * / F1) by nra. lra. }
    nra.
Qed.

(** A blocked link reports a strictly smaller ratio at a higher frequency. *)
Lemma blocked_ratio_decreases (tm : tile_manager)
    (lat1 lon1 lat2 lon2 f1 f2 tx_h rx_h : R) (res1 res2 : LinkResult) :
  0 < f1 < f2 ->
  analyze_link tm lat1 lon1 lat2 lon2 f1 tx_h rx_h = Some res1 ->
  analyze_link tm lat1 lon1 lat2 lon2 f2 tx_h rx_h = Some res2 ->
  min_clearance_ratio res1 < 0 ->
  min_clearance_ratio res2 < min_clearance_ratio res1.
Proof.
  intros Hf Hr1 Hr2 Hneg.
  apply analyze_link_some in Hr1, Hr2. cbv zeta in Hr1, Hr2.
  destruct Hr1 as (_ & _ & _ & _ & Hm1). destruct Hr2 as (_ & _ & _ & _ & Hm2).
  destruct (list_min_cases
              (interior_ratios (fst (generate_profile tm lat1 lon1 lat2 lon2))
                 (snd (generate_profile tm lat1 lon1 lat2 lon2)) f1 tx_h rx_h)
              100) as [H|H]; rewrite <- Hm1 in H; [lra|].
  apply interior_ratio_inv in H. destruct H as (i & Hi & Hint & Heq).
  pose proof (ratio_at_freq _ f1 f2 _
                (clearance_of (fst (generate_profile tm lat1 lon1 lat2 lon2))
                   (snd (generate_profile tm lat1 lon1 lat2 lon2)) tx_h rx_h)
                i Hf Hint) as [_ Hdec].
  rewrite <- Heq in Hdec. specialize (Hdec Hneg).
  eapply Rle_lt_trans; [|exact Hdec].
  rewrite Hm2. apply list_min_le_elem. now apply interior_ratio_in.
Qed.

(** C3, counterexample.  A 100 km link over flat ground with 10 m antennas
    is blocked by the earth bulge; going from 915 MHz to 2400 MHz lowers
    the reported ratio. *)
Lemma C3_counterexample :
  exists res1 res2,
    analyze_link (flat_terrain 0) 0 0 0 (lon_at 100000) 915 10 10 = Some res1 /\
    analyze_link (flat_terrain 0) 0 0 0 (lon_at 100000) 2400 10 10 = Some res2 /\
    min_clearance_ratio res2 < min_clearance_ratio res1.
Proof.
  destruct (analyze_link_total (flat_terrain 0) 0 0 0 (lon_at 100000) 915 10 10)
    as [res1 Hr1]; [lra|].
  destruct (analyze_link_total (flat_terrain 0) 0 0 0 (lon_at 100000) 2400 10 10)
    as [res2 Hr2]; [lra|].
  exists res1, res2. split; [assumption|]. split; [assumption|].
  apply (blocked_ratio_decreases (flat_terrain 0) 0 0 0 (lon_at 100000)
           915 2400 10 10); try assumption; try lra.
  assert (Hint : int (100000 / step_meters) = Z.of_nat (2 * 1666 + 1)).
  { rewrite (int_eval _ 3333); unfold step_meters; [reflexivity|lra|lra]. }
  pose proof (flat_equator_mid_bound 0 100000 915 10 1666 res1
                ltac:(lra) ltac:(lia) Hint Hr1) as Hmid.
  eapply Rle_lt_trans; [exact Hmid|].
  pose proof (fresnel_radius_pos 100000 915 (100000 / 2) (100000 / 2)
                ltac:(lra) ltac:(lra) ltac:(lra) ltac:(lra)) as HF.
  apply Rdiv_lt_pos; [assumption|]. rewrite R_eff_value. lra.
Qed.

(** C3, as amended.  With endpoints, terrain and antenna heights fixed and
    [0 < f1 < f2], both analyses return; if the ratio reported at [f1] is
    not negative (the link is not blocked) the ratio reported at [f2] is
    at least as large, and if it is negative the ratio at [f2] is strictly
    smaller. *)
Theorem C3_ratio_monotone_unless_blocked (tm : tile_manager)
    (lat1 lon1 lat2 lon2 f1 f2 tx_h rx_h : R) :
  0 < f1 < f2 ->
  exists res1 res2,
    analyze_link tm lat1 lon1 lat2 lon2 f1 tx_h rx_h = Some res1 /\
    analyze_link tm lat1 lon1 lat2 lon2 f2 tx_h rx_h = Some res2 /\
    (0 <= min_clearance_ratio res1 ->
     min_clearance_ratio res1 <= min_clearance_ratio res2) /\
    (min_clearance_ratio res1 < 0 ->
     min_clearance_ratio res2 < min_clearance_ratio res1).
Proof.
  intros Hf.
  destruct (analyze_link_total tm lat1 lon1 lat2 lon2 f1 tx_h rx_h)
    as [res1 Hr1]; [lra|].
  destruct (analyze_link_total tm lat1 lon1 lat2 lon2 f2 tx_h rx_h)
    as [res2 Hr2]; [lra|].
  exists res1, res2. split; [assumption|]. split; [assumption|].
  split; [|now apply (blocked_ratio_decreases tm lat1 lon1 lat2 lon2 f1 f2
                        tx_h rx_h)].
  intros Hpos.
  apply analyze_link_some in Hr1, Hr2. cbv zeta in Hr1, Hr2.
  destruct Hr1 as (_ & _ & _ & _ & Hm1). destruct Hr2 as (_ & _ & _ & _ & Hm2).
  rewrite Hm2. apply list_min_ge.
  - rewrite Hm1. apply list_min_le_start.
  - intros r Hr. apply interior_ratio_inv in Hr.
    destruct Hr as (i & Hi & Hint & ->).
    pose proof (ratio_at_freq _ f1 f2 _
                  (clearance_of (fst (generate_profile tm lat1 lon1 lat2 lon2))
                     (snd (generate_profile tm lat1 lon1 lat2 lon2)) tx_h rx_h)
                  i Hf Hint) as [Hinc _].
    assert (Hle : min_clearance_ratio res1 <=
                  ratio_at (snd (generate_profile tm lat1 lon1 lat2 lon2)) f1
                    (linspace 0 (snd (generate_profile tm lat1 lon1 lat2 lon2))
                       (length (fst (generate_profile tm lat1 lon1 lat2 lon2))))
                    (clearance_of (fst (generate_profile tm lat1 lon1 lat2 lon2))
                       (snd (generate_profile tm lat1 lon1 lat2 lon2)) tx_h rx_h)
                    i).
    { rewrite Hm1. apply list_min_le_elem. now apply interior_ratio_in. }
    lra.
Qed.

Lemma C3_ratio_monotone_unless_blocked_witness :
  exists res1 res2,
    analyze_link (flat_terrain 0) 0 0 0 (lon_at 100) 915 10 10 = Some res1 /\
    analyze_link (flat_terrain 0) 0 0 0 (lon_at 100) 2400 10 10 = Some res2 /\
    (0 <= min_clearance_ratio res1 ->
     min_clearance_ratio res1 <= min_clearance_ratio res2) /\
    (min_clearance_ratio res1 < 0 ->
     min_clearance_ratio res2 < min_clearance_ratio res1).
Proof.
  apply (C3_ratio_monotone_unless_blocked (flat_terrain 0) 0 0 0 (lon_at 100)
           915 2400 10 10).
  lra.
Defined.

(** ** C4: the path loss field *)

Lemma log10_1 : log10 1 = 0.
Proof. unfold log10. rewrite ln_1. lra. Qed.

Lemma log10_1000 : log10 1000 = 3.
Proof.
  unfold log10. replace 1000 with (10 ^ 3) by lra.
  rewrite ln_pow by lra. simpl (INR 3).
  assert (0 < ln 10).
  { rewrite <- ln_1. apply ln_increasing; lra. }
  field. lra.
Qed.

(** C4, counterexample.  For a 1 km link at 1000 MHz the formula gives
    92.44 dB; the returned [path_loss_db] is 0. *)
Lemma C4_counterexample :
  exists res,
    analyze_link (flat_terrain 0) 0 0 0 (lon_at 1000) 1000 10 10 = Some res /\
    dist_km res = 1 /\
    fspl (dist_km res) 1000 = 92.44 /\
    path_loss_db res <> fspl (dist_km res) 1000.
Proof.
  destruct (analyze_link_total (flat_terrain 0) 0 0 0 (lon_at 1000) 1000 10 10)
    as [res Hres]; [lra|].
  exists res. split; [assumption|].
  apply analyze_link_some in Hres. cbv zeta in Hres.
  destruct Hres as (_ & Hd & Hp & _).
  rewrite generate_profile_dist, haversine_lon_at in Hd by lra.
  assert (Hk : dist_km res = 1) by lra.
  assert (Hf : fspl (dist_km res) 1000 = 92.44).
  { rewrite Hk. unfold fspl. rewrite log10_1, log10_1000. lra. }
  repeat split; try assumption. rewrite Hf, Hp. lra.
Qed.

(** C4, as amended.  The [path_loss_db] field of every result of
    [analyze_link] is the constant 0.0; the free-space formula
    [20 log10 d_km + 20 log10 f_mhz + 32.44] is what the separate function
    [calculate_itm_loss] returns for a distance of at least 1 m (and 0 below
    that), and [analyze_link] does not call it. *)
Theorem C4_path_loss_placeholder_is_zero (tm : tile_manager)
    (lat1 lon1 lat2 lon2 freq_mhz tx_h rx_h : R) :
  0 < freq_mhz ->
  exists res,
    analyze_link tm lat1 lon1 lat2 lon2 freq_mhz tx_h rx_h = Some res /\
    path_loss_db res = 0 /\
    forall dist_m elevs,
      calculate_itm_loss dist_m elevs freq_mhz tx_h rx_h =
        Some (if Rlt_dec (dist_m / 1000) 0.001 then 0
              else fspl (dist_m / 1000) freq_mhz).
Proof.
  intros Hf.
  destruct (analyze_link_total tm lat1 lon1 lat2 lon2 freq_mhz tx_h rx_h Hf)
    as [res Hres].
  exists res. split; [assumption|].
  apply analyze_link_some in Hres. cbv zeta in Hres.
  destruct Hres as (_ & _ & Hp & _). split; [assumption|].
  intros dist_m elevs. unfold calculate_itm_loss, fspl.
  destruct (Rlt_dec (dist_m / 1000) 0.001); [reflexivity|].
  destruct (Rle_dec freq_mhz 0); [lra|reflexivity].
Qed.

Lemma C4_path_loss_placeholder_is_zero_witness :
  exists res,
    analyze_link (flat_terrain 0) 0 0 0 (lon_at 1000) 1000 10 10 = Some res /\
    path_loss_db res = 0 /\
    forall dist_m elevs,
      calculate_itm_loss dist_m elevs 1000 10 10 =
        Some (if Rlt_dec (dist_m / 1000) 0.001 then 0
              else fspl (dist_m / 1000) 1000).
Proof.
  apply (C4_path_loss_placeholder_is_zero (flat_terrain 0) 0 0 0 (lon_at 1000)
           1000 10 10).
  lra.
Defined.

(** ** C5: links shorter than 90 m *)

Lemma int_lt (x : R) (z : Z) : 0 <= x -> x < IZR z -> (int x < z)%Z.
Proof.
  intros H0 Hx. unfold int. destruct (Rle_dec 0 x); [|lra].
  apply lt_IZR. destruct (base_Int_part x) as [Hb _]. lra.
Qed.

Lemma scan_step_skip (dist_m freq_mhz : R) (dists clearance : list R)
    (st : scan) (i : nat) :
  interior dist_m dists i = false ->
  scan_step dist_m freq_mhz dists clearance st i =
    Some {| fresnel_radii := fresnel_radii st ++ [0.1];
            scan_min := scan_min st;
            worst_point_idx := worst_point_idx st |}.
Proof.
  unfold interior, scan_step. rewrite negb_false_iff. intros ->. reflexivity.
Qed.

(** C5.  When the haversine distance is positive and below 90 m the profile
    consists of the two endpoint samples, both iterations of the loop take
    the [continue] branch (each records the radius 0.1, no ratio is formed
    and the worst index stays -1), and the result is viable with
    [min_clearance_ratio = 100.0], whatever the terrain, frequency and
    antenna heights. *)
Theorem C5_short_link_sentinel (tm : tile_manager)
    (lat1 lon1 lat2 lon2 freq_mhz tx_h rx_h : R) :
  0 < haversine_distance lat1 lon1 lat2 lon2 < 90 ->
  exists res st,
    analyze_link tm lat1 lon1 lat2 lon2 freq_mhz tx_h rx_h = Some res /\
    profile res = [tm lat1 lon1; tm lat2 lon2] /\
    analyze_scan (profile res) (haversine_distance lat1 lon1 lat2 lon2)
      freq_mhz tx_h rx_h = Some st /\
    fresnel_radii st = [0.1; 0.1] /\
    worst_point_idx st = (-1)%Z /\
    interior_ratios (profile res) (haversine_distance lat1 lon1 lat2 lon2)
      freq_mhz tx_h rx_h = [] /\
    link_status res = viable /\
    min_clearance_ratio res = 100.
Proof.
  intros HD. set (D := haversine_distance lat1 lon1 lat2 lon2) in *.
  assert (Hn : Z.to_nat (Z.max 2 (int (D / step_meters))) = 2%nat).
  { pose proof (int_lt (D / step_meters) 3) as H.
    unfold step_meters in *. specialize (H ltac:(lra) ltac:(lra)). lia. }
  assert (Hgp : generate_profile tm lat1 lon1 lat2 lon2
                = ([tm lat1 lon1; tm lat2 lon2], D)).
  { unfold generate_profile. fold D.
    destruct (Req_dec_T D 0); [lra|]. rewrite Hn. simpl.
    repeat f_equal; lra. }
  assert (H0 : interior D (linspace 0 D 2) 0 = false).
  { apply not_true_is_false. intros H. apply interior_true in H.
    simpl in H. lra. }
  assert (H1 : interior D (linspace 0 D 2) 1 = false).
  { apply not_true_is_false. intros H. apply interior_true in H.
    simpl in H. lra. }
  assert (Hscan : analyze_scan [tm lat1 lon1; tm lat2 lon2] D freq_mhz tx_h rx_h
                  = Some {| fresnel_radii := [0.1; 0.1];
                            scan_min := 100.0;
                            worst_point_idx := (-1)%Z |}).
  { unfold analyze_scan.
    change (length [tm lat1 lon1; tm lat2 lon2]) with 2%nat.
    change (seq 0 2) with [0; 1]%nat.
    cbn [scan_loop]. rewrite (scan_step_skip _ _ _ _ _ 0%nat H0).
    cbn [mbind option_bind].
    rewrite (scan_step_skip _ _ _ _ _ 1%nat H1). reflexivity. }
  eexists. eexists.
  split; [unfold analyze_link; rewrite Hgp, Hscan; reflexivity|].
  cbn [profile link_status min_clearance_ratio scan_min].
  split; [reflexivity|]. split; [exact Hscan|].
  cbn [fresnel_radii worst_point_idx].
  split; [reflexivity|]. split; [reflexivity|].
  split.
  - unfold interior_ratios.
    change (length [tm lat1 lon1; tm lat2 lon2]) with 2%nat.
    change (seq 0 2) with [0; 1]%nat.
    rewrite !filter_cons, filter_nil, H0, H1.
    repeat (destruct (decide _) as [?|?]; try congruence).
    reflexivity.
  - split; [apply classify_spec|]; lra.
Qed.

Lemma C5_short_link_sentinel_witness :
  exists res st,
    analyze_link (flat_terrain 7) 0 0 0 (lon_at 50) 915 2 3 = Some res /\
    profile res = [flat_terrain 7 0 0; flat_terrain 7 0 (lon_at 50)] /\
    analyze_scan (profile res) (haversine_distance 0 0 0 (lon_at 50))
      915 2 3 = Some st /\
    fresnel_radii st = [0.1; 0.1] /\
    worst_point_idx st = (-1)%Z /\
    interior_ratios (profile res) (haversine_distance 0 0 0 (lon_at 50))
      915 2 3 = [] /\
    link_status res = viable /\
    min_clearance_ratio res = 100.
Proof.
  apply (C5_short_link_sentinel (flat_terrain 7) 0 0 0 (lon_at 50) 915 2 3).
  rewrite haversine_lon_at; lra.
Defined.

End PhysicsProofs.

(* ================================================================== *)
(** * Properties of the tile manager *)
(* ================================================================== *)

Module TilesProofs.
Import Tiles TileFetch.
Local Open Scope Q_scope.

Lemma clip_range (x lo hi : Q) : lo <= hi -> lo <= clip x lo hi <= hi.
Proof.
  intros H. unfold clip. split.
  - apply Q.min_glb; [apply Q.le_max_r|assumption].
  - apply Q.le_min_r.
Qed.

Lemma grid_pos_range (x lo hi : Q) : 0 <= grid_pos x lo hi <= 15.
Proof. unfold grid_pos. apply clip_range. discriminate. Qed.

Lemma floor_range (q : Q) : 0 <= q <= 15 -> (0 <= Qfloor q <= 15)%Z.
Proof.
  intros [H0 H15]. split.
  - change 0%Z with (Qfloor (inject_Z 0)). now apply Qfloor_resp_le.
  - change 15%Z with (Qfloor (inject_Z 15)). now apply Qfloor_resp_le.
Qed.

Lemma np_index_in_range (k : Z) : (0 <= k <= 15)%Z -> np_index 16 k = Some k.
Proof.
  intros H. unfold np_index.
  destruct (Z.leb_spec 0 k); [|lia]. destruct (Z.ltb_spec k 16); [|lia].
  reflexivity.
Qed.

Lemma grid_get_in_range (raw : list Q) (r c : Z) :
  length raw = 256%nat -> (0 <= r <= 15)%Z -> (0 <= c <= 15)%Z ->
  exists p, grid_get raw r c = Some p.
Proof.
  intros Hl Hr Hc. unfold grid_get.
  rewrite !np_index_in_range by assumption. simpl.
  apply lookup_lt_is_Some_2. rewrite Hl. lia.
Qed.

Lemma usable_false_zero (E : env) (data : option dict) (lat lon : Q) (t : tile) :
  usable E data t = false ->
  _extract_elevation_from_tile E data lat lon t = Some 0.
Proof.
  unfold usable, _extract_elevation_from_tile.
  destruct data as [d|]; [|reflexivity].
  destruct (truthy (Some d)); simpl; [|reflexivity].
  destruct (has_key "elevation" d); simpl; [|reflexivity].
  destruct (Nat.eqb _ 256); simpl; [|reflexivity].
  destruct (Qeq_bool _ _ || Qeq_bool _ _); simpl; [reflexivity|discriminate].
Qed.

(** On usable data the four lookups of the interpolation succeed and the
    result is the bilinear combination of the four samples. *)
Lemma usable_true_bilinear (E : env) (data : option dict) (lat lon : Q)
    (t : tile) :
  usable E data t = true ->
  let b := mercantile_bounds E t in
  let u := grid_pos lat (south b) (north b) in
  let v := grid_pos lon (west b) (east b) in
  let i := Qfloor u in
  let j := Qfloor v in
  let i_next := Z.min (i + 1) 15 in
  let j_next := Z.min (j + 1) 15 in
  exists raw p00 p10 p01 p11,
    data = Some raw /\
    (0 <= i <= 15)%Z /\ (0 <= i_next <= 15)%Z /\
    (0 <= j <= 15)%Z /\ (0 <= j_next <= 15)%Z /\
    grid_get (default [] (raw !! "elevation")) j i = Some p00 /\
    grid_get (default [] (raw !! "elevation")) j i_next = Some p10 /\
    grid_get (default [] (raw !! "elevation")) j_next i = Some p01 /\
    grid_get (default [] (raw !! "elevation")) j_next i_next = Some p11 /\
    _extract_elevation_from_tile E data lat lon t =
      Some ((p00 * (1 - (u - inject_Z i)) + p10 * (u - inject_Z i))
              * (1 - (v - inject_Z j))
            + (p01 * (1 - (u - inject_Z i)) + p11 * (u - inject_Z i))
              * (v - inject_Z j)).
Proof.
  intros Hu b u v i j i_next j_next.
  unfold usable in Hu. destruct data as [d|]; [|discriminate].
  fold b in Hu.
  apply andb_prop in Hu. destruct Hu as [Hu Hb].
  apply andb_prop in Hu. destruct Hu as [Hu Hl].
  apply andb_prop in Hu. destruct Hu as [Ht Hk].
  apply Nat.eqb_eq in Hl. apply negb_true_iff in Hb.
  pose proof (floor_range u (grid_pos_range _ _ _)) as Hi. fold i in Hi.
  pose proof (floor_range v (grid_pos_range _ _ _)) as Hj. fold j in Hj.
  assert (Hin : (0 <= i_next <= 15)%Z) by (unfold i_next; lia).
  assert (Hjn : (0 <= j_next <= 15)%Z) by (unfold j_next; lia).
  destruct (grid_get_in_range _ j i Hl Hj Hi) as [p00 H00].
  destruct (grid_get_in_range _ j i_next Hl Hj Hin) as [p10 H10].
  destruct (grid_get_in_range _ j_next i Hl Hjn Hi) as [p01 H01].
  destruct (grid_get_in_range _ j_next i_next Hl Hjn Hin) as [p11 H11].
  exists d, p00, p10, p01, p11.
  repeat (split; [assumption || reflexivity|]).
  unfold _extract_elevation_from_tile. fold b.
  rewrite Ht, Hk, Hl, Hb. cbn [negb orb Nat.eqb].
  fold u v. fold i j. fold i_next j_next.
  rewrite H00, H10, H01, H11. reflexivity.
Qed.

(** C10.  [get_elevation] raises on two inputs of the claim.  At latitude
    90 [mercantile.tile] raises [InvalidLatitudeError], and the call
    raises it; and when the elevation API answers [null] for the samples
    of a tile that is not cached, the fetch raises [TypeError], and the
    call raises it.  In general the call raises whenever the tiling has
    no tile for the coordinate, and whatever the fetch of an uncached
    tile raises.  In every other case the claim holds: when the tiling has
    a tile and [get_tile_data] returns, [get_elevation] returns a value,
    which is the neutral 0 when the tile data is absent, empty, without
    samples, of the wrong sample count or on degenerate bounds; otherwise
    the clamped position gives indices within 0..15 for all four lookups,
    and the value is their bilinear combination. *)
Theorem C10_get_elevation_raises :
  get_elevation polar_env ∅ 90 0 = (Raises InvalidLatitudeError, ∅) /\
  get_elevation
    (env_over (fun _ _ => Some (mkTile 0 0 12)) (fun _ => mkBounds 0 0 1 1)
              null_api)
    ∅ (1 # 2) (1 # 2)
  = (Raises TypeError, ∅) /\
  (forall (E : env) (c : cache) (lat lon : Q),
     mercantile_tile E lon lat = None ->
     get_elevation E c lat lon = (Raises InvalidLatitudeError, c)) /\
  (forall (E : env) (c : cache) (lat lon : Q) (t : tile) (e : exception),
     mercantile_tile E lon lat = Some t ->
     c !! tile_key t = None ->
     Tiles._fetch_tile_from_api E t = Raises e ->
     get_elevation E c lat lon = (Raises e, c)) /\
  (forall (E : env) (c : cache) (lat lon : Q) (t : tile)
          (data : option dict),
     mercantile_tile E lon lat = Some t ->
     fst (get_tile_data E c t) = Returns data ->
     let b := mercantile_bounds E t in
     let u := grid_pos lat (south b) (north b) in
     let v := grid_pos lon (west b) (east b) in
     exists r,
       fst (get_elevation E c lat lon) = Returns r /\
       (usable E data t = false -> r = 0) /\
       0 <= u <= 15 /\ 0 <= v <= 15 /\
       (0 <= Qfloor u <= 15)%Z /\ (0 <= Z.min (Qfloor u + 1) 15 <= 15)%Z /\
       (0 <= Qfloor v <= 15)%Z /\ (0 <= Z.min (Qfloor v + 1) 15 <= 15)%Z /\
       (usable E data t = true ->
        exists raw p00 p10 p01 p11,
          data = Some raw /\
          grid_get (default [] (raw !! "elevation"))
            (Qfloor v) (Qfloor u) = Some p00 /\
          grid_get (default [] (raw !! "elevation"))
            (Qfloor v) (Z.min (Qfloor u + 1) 15) = Some p10 /\
          grid_get (default [] (raw !! "elevation"))
            (Z.min (Qfloor v + 1) 15) (Qfloor u) = Some p01 /\
          grid_get (default [] (raw !! "elevation"))
            (Z.min (Qfloor v + 1) 15) (Z.min (Qfloor u + 1) 15) = Some p11 /\
          r = (p00 * (1 - (u - inject_Z (Qfloor u)))
               + p10 * (u - inject_Z (Qfloor u)))
                * (1 - (v - inject_Z (Qfloor v)))
              + (p01 * (1 - (u - inject_Z (Qfloor u)))
                 + p11 * (u - inject_Z (Qfloor u)))
                * (v - inject_Z (Qfloor v)))).
Proof.
  split; [vm_compute; reflexivity|].
  split; [vm_compute; reflexivity|].
  split; [|split].
  - intros E c lat lon Ht. unfold get_elevation. now rewrite Ht.
  - intros E c lat lon t e Ht Hc He.
    unfold get_elevation, get_tile_data_at, get_tile_data.
    now rewrite Ht, Hc, He.
  - intros E c lat lon t data Ht Hdata. cbv zeta.
    unfold get_elevation, get_tile_data_at. rewrite Ht.
    set (b := mercantile_bounds E t).
    set (u := grid_pos lat (south b) (north b)).
    set (v := grid_pos lon (west b) (east b)).
    pose proof (grid_pos_range lat (south b) (north b)) as Hu. fold u in Hu.
    pose proof (grid_pos_range lon (west b) (east b)) as Hv. fold v in Hv.
    pose proof (floor_range u Hu) as Hi.
    pose proof (floor_range v Hv) as Hj.
    destruct (get_tile_data E c t) as [d c'] eqn:Hg. cbn [fst] in Hdata.
    subst d. cbn [fst].
    destruct (usable E data t) eqn:Hus.
    + destruct (usable_true_bilinear E data lat lon t Hus)
        as (raw & p00 & p10 & p01 & p11 & Hraw & _ & _ & _ & _
            & H00 & H10 & H01 & H11 & Hex).
      cbv zeta in H00, H10, H01, H11, Hex. fold b in H00, H10, H01, H11, Hex.
      fold u v in H00, H10, H01, H11, Hex.
      assert (Htr : truthy data = true).
      { unfold usable in Hus. subst data.
        repeat (apply andb_prop in Hus; destruct Hus as [Hus ?]).
        assumption. }
      rewrite Htr, Hex. cbn [fst]. eexists. split; [reflexivity|].
      split; [discriminate|].
      repeat (split; [assumption || lia|]).
      intros _. exists raw, p00, p10, p01, p11.
      repeat (split; [assumption|]). reflexivity.
    + exists 0. split.
      * destruct (truthy data); cbn [fst]; [|reflexivity].
        now rewrite (usable_false_zero E data lat lon t Hus).
      * split; [reflexivity|].
        repeat (split; [assumption || lia|]). discriminate.
Qed.

(** At the north-east corner of the tile both indices clamp to 15 and the
    value is the last sample; outside the tile the position is clamped. *)
Example get_elevation_corner :
  fst (get_elevation ramp_env ∅ 1 1) = Returns (255 # 1) /\
  fst (get_elevation ramp_env ∅ 7 (-3)) = Returns (15 # 1) /\
  exists q, fst (get_elevation ramp_env ∅ (1 # 30) 0) = Returns q /\
            q == 1 # 2.
Proof.
  split; [vm_compute; reflexivity|]. split; [vm_compute; reflexivity|].
  eexists. split; [vm_compute; reflexivity|]. reflexivity.
Qed.

End TilesProofs.

(* ================================================================== *)
(** * Properties of the site optimizer *)
(* ================================================================== *)

Module PlannerProofs.
Import Planner.
Local Open Scope Q_scope.

(** ** The node dictionary *)

Lemma lookup_node_In {D : Type} (l : list (string * attrs D)) (c : string)
    (a : attrs D) :
  lookup_node l c = Some a -> In (c, a) l.
Proof.
  induction l as [|[k a0] l IH]; cbn [lookup_node]; [discriminate|].
  destruct (String.eqb_spec k c) as [->|Hne].
  - intros H. injection H as <-. now left.
  - intros H. right. now apply IH.
Qed.

Lemma lookup_node_some {D : Type} (l : list (string * attrs D)) (c : string)
    (a : attrs D) :
  In (c, a) l -> exists a', lookup_node l c = Some a'.
Proof.
  induction l as [|[k a0] l IH]; simpl; [tauto|].
  intros [[= -> ->]|Hin].
  - rewrite String.eqb_refl. eauto.
  - destruct (String.eqb k c); eauto.
Qed.

Lemma keys_functional {D : Type} (l : list (string * attrs D)) (k : string)
    (a a' : attrs D) :
  List.NoDup (map fst l) -> In (k, a) l -> In (k, a') l -> a = a'.
Proof.
  induction l as [|[k0 a0] l IH]; cbn [map fst]; [intros _ []|].
  intros Hnd. apply List.NoDup_cons_iff in Hnd. destruct Hnd as [Hk Hnd].
  intros [H|H] [H'|H'].
  - congruence.
  - injection H as -> ->. exfalso. apply Hk.
    apply in_map_iff. now exists (k, a').
  - injection H' as -> ->. exfalso. apply Hk.
    apply in_map_iff. now exists (k, a).
  - now apply IH.
Qed.

Lemma lookup_node_unique {D : Type} (l : list (string * attrs D))
    (k : string) (a : attrs D) :
  List.NoDup (map fst l) -> In (k, a) l -> lookup_node l k = Some a.
Proof.
  intros Hnd Hin. destruct (lookup_node_some l k a Hin) as [a' Ha'].
  rewrite Ha'. f_equal. apply lookup_node_In in Ha'.
  eapply keys_functional; eassumption.
Qed.

Lemma is_type_candidate {D : Type} (p : string * attrs D) :
  is_type candidate p = true <-> ntype (snd p) = candidate.
Proof. unfold is_type. destruct (ntype (snd p)); split; congruence. Qed.

Lemma is_type_target {D : Type} (p : string * attrs D) :
  is_type target p = true <-> ntype (snd p) = target.
Proof. unfold is_type. destruct (ntype (snd p)); split; congruence. Qed.

Section Greedy.
Context {D : Type}.
Variable G : graph D.

Lemma Qltb_true (x y : Q) : Qltb x y = true <-> x < y.
Proof.
  unfold Qltb. rewrite negb_true_iff. split.
  - intros H. apply Qnot_le_lt. intros Hle.
    apply Qle_bool_iff in Hle. congruence.
  - intros H. apply not_true_is_false. intros Hle.
    apply Qle_bool_iff in Hle. now apply (Qlt_not_le x y).
Qed.

Lemma Qltb_false (x y : Q) : Qltb x y = false <-> y <= x.
Proof.
  unfold Qltb. rewrite negb_false_iff. apply Qle_bool_iff.
Qed.

(** ** One pass over the candidates *)

Lemma first_minimiser_skip covered selected processed best c :
  ~ eligible G covered selected c ->
  first_minimiser G covered selected processed best ->
  first_minimiser G covered selected (processed ++ [c]) best.
Proof.
  intros Hc. destruct best as [[[b r] nc]|]; simpl.
  - intros (l1 & l2 & -> & Hb & Hr & Hn & H1 & H2).
    exists l1, (l2 ++ [c]). rewrite <- app_assoc. simpl.
    repeat (split; [assumption || reflexivity|]).
    intros x Hx Hel. apply elem_of_app in Hx. destruct Hx as [Hx|Hx].
    + now apply H2.
    + apply list_elem_of_singleton in Hx. subst x. contradiction.
  - intros H x Hx. apply elem_of_app in Hx. destruct Hx as [Hx|Hx].
    + now apply H.
    + apply list_elem_of_singleton in Hx. now subst x.
Qed.

Lemma first_minimiser_keep covered selected processed b r nc c rc :
  ratio_of G covered c = Some rc -> r <= rc ->
  first_minimiser G covered selected processed (Some (b, r, nc)) ->
  first_minimiser G covered selected (processed ++ [c]) (Some (b, r, nc)).
Proof.
  intros Hrc Hle. simpl.
  intros (l1 & l2 & -> & Hb & Hr & Hn & H1 & H2).
  exists l1, (l2 ++ [c]). rewrite <- app_assoc. simpl.
  repeat (split; [assumption || reflexivity|]).
  intros x Hx Hel. apply elem_of_app in Hx. destruct Hx as [Hx|Hx].
  - now apply H2.
  - apply list_elem_of_singleton in Hx. subst x. eauto.
Qed.

Lemma first_minimiser_new covered selected processed best c rc :
  eligible G covered selected c ->
  ratio_of G covered c = Some rc ->
  match best with
  | None => True
  | Some (_, r, _) => rc < r
  end ->
  first_minimiser G covered selected processed best ->
  first_minimiser G covered selected (processed ++ [c])
    (Some (c, rc, new_cover G covered c)).
Proof.
  intros Hel Hrc Hlt Hbest. simpl.
  exists processed, []. repeat (split; [assumption || reflexivity|]).
  split.
  - intros x Hx Hex.
    destruct best as [[[b r] nc]|]; simpl in Hbest.
    + destruct Hbest as (l1 & l2 & -> & Hb & Hr & Hn & H1 & H2).
      apply elem_of_app in Hx. destruct Hx as [Hx|Hx].
      * destruct (H1 x Hx Hex) as (rx & Hrx & Hlx).
        exists rx. split; [assumption|]. now apply Qlt_trans with r.
      * apply elem_of_cons in Hx. destruct Hx as [->|Hx].
        -- exists r. split; assumption.
        -- destruct (H2 x Hx Hex) as (rx & Hrx & Hlx).
           exists rx. split; [assumption|]. now apply Qlt_le_trans with r.
    + exfalso. now apply (Hbest x).
  - intros x Hx. apply elem_of_nil in Hx. contradiction.
Qed.

Lemma round_step_spec covered selected processed best best' c :
  first_minimiser G covered selected processed best ->
  round_step G covered selected best c = Some best' ->
  first_minimiser G covered selected (processed ++ [c]) best'.
Proof.
  intros Hbest. unfold round_step.
  destruct (bool_decide (c ∈ selected)) eqn:Hsel.
  { intros [= <-]. apply first_minimiser_skip; [|assumption].
    apply bool_decide_eq_true in Hsel. intros [Hn _]. contradiction. }
  apply bool_decide_eq_false in Hsel.
  destruct (0 <? size (new_cover G covered c))%nat eqn:Hcnt.
  2:{ intros [= <-]. apply first_minimiser_skip; [|assumption].
      apply Nat.ltb_ge in Hcnt. intros [_ Hp]. lia. }
  apply Nat.ltb_lt in Hcnt.
  assert (Hel : eligible G covered selected c) by (split; assumption).
  destruct (ratio_of G covered c) as [rc|] eqn:Hrc; simpl; [|discriminate].
  destruct best as [[[b r] nc]|].
  - destruct (Qltb rc r) eqn:Hlt; intros [= <-].
    + apply Qltb_true in Hlt.
      now apply (first_minimiser_new covered selected processed
                   (Some (b, r, nc))).
    + apply Qltb_false in Hlt.
      now apply (first_minimiser_keep covered selected processed b r nc c rc).
  - intros [= <-].
    now apply (first_minimiser_new covered selected processed None).
Qed.

Lemma round_spec covered selected cands processed best best' :
  first_minimiser G covered selected processed best ->
  round G covered selected cands best = Some best' ->
  first_minimiser G covered selected (processed ++ cands) best'.
Proof.
  revert processed best. induction cands as [|c cands IH];
    intros processed best Hbest; simpl.
  - intros [= <-]. now rewrite app_nil_r.
  - destruct (round_step G covered selected best c) as [b1|] eqn:Hs;
      simpl; [|discriminate].
    intros Hr. replace (processed ++ c :: cands)
      with ((processed ++ [c]) ++ cands) by (now rewrite <- app_assoc).
    eapply IH; [|exact Hr]. eapply round_step_spec; eassumption.
Qed.

Lemma weights_present_ratio covered c :
  weights_present G = true -> c ∈ candidates G ->
  exists rc, ratio_of G covered c = Some rc.
Proof.
  unfold weights_present. rewrite forallb_forall. intros H Hc.
  apply list_elem_of_In in Hc. specialize (H c Hc).
  unfold ratio_of. destruct (lookup_node (nodes G) c) as [a|]; [|discriminate].
  simpl. destruct (weight a) as [w|]; [|discriminate]. simpl. eauto.
Qed.

Lemma round_total covered selected cands best :
  weights_present G = true -> (forall c, c ∈ cands -> c ∈ candidates G) ->
  exists best', round G covered selected cands best = Some best'.
Proof.
  intros Hw. revert best. induction cands as [|c cands IH]; intros best Hsub;
    simpl; [eauto|].
  assert (Hs : exists b1, round_step G covered selected best c = Some b1).
  { unfold round_step. destruct (bool_decide _); [eauto|].
    destruct (0 <? _)%nat; [|eauto].
    destruct (weights_present_ratio covered c Hw) as [rc ->].
    { apply Hsub. left. }
    simpl. destruct best as [[[b r] nc]|]; [|eauto].
    destruct (Qltb rc r); eauto. }
  destruct Hs as [b1 ->]. simpl. apply IH.
  intros x Hx. apply Hsub. now right.
Qed.

Lemma round_from_start covered selected best :
  round G covered selected (candidates G) None = Some best ->
  first_minimiser G covered selected (candidates G) best.
Proof.
  intros H. apply (round_spec covered selected (candidates G) [] None best).
  - simpl. intros c Hc. apply elem_of_nil in Hc. contradiction.
  - exact H.
Qed.

(** ** The greedy loop *)

Lemma covered_by_snoc selected b :
  covered_by G (selected ++ [b])
  = covered_by G selected ∪ (adjacency G b ∩ universe G).
Proof.
  unfold covered_by. rewrite map_app, union_list_app_L. simpl.
  now rewrite (right_id_L ∅ (∪)).
Qed.

Lemma loop_inv_init : loop_inv G ∅ [].
Proof.
  unfold loop_inv, covered_by. simpl. split; [reflexivity|].
  split; [apply empty_subseteq|].
  intros c Hc. apply elem_of_nil in Hc. contradiction.
Qed.

Lemma loop_inv_step covered selected b r nc :
  loop_inv G covered selected ->
  first_minimiser G covered selected (candidates G) (Some (b, r, nc)) ->
  loop_inv G (covered ∪ nc) (selected ++ [b]) /\
  (size covered < size (covered ∪ nc))%nat /\
  b ∉ selected.
Proof.
  intros (Hc & Hsub & Hsel). simpl.
  intros (l1 & l2 & Hl & [Hns Hpos] & _ & -> & _).
  unfold new_cover in *. split; [|split; [|assumption]].
  - split; [|split].
    + rewrite covered_by_snoc, <- Hc.
      apply set_eq. intros x. rewrite !elem_of_union, elem_of_difference.
      destruct (decide (x ∈ covered)); tauto.
    + intros x Hx. apply elem_of_union in Hx. destruct Hx as [Hx|Hx].
      * now apply Hsub.
      * apply elem_of_difference in Hx. destruct Hx as [Hx _].
        now apply elem_of_intersection in Hx.
    + intros c Hin. apply elem_of_app in Hin. destruct Hin as [Hin|Hin].
      * now apply Hsel.
      * apply list_elem_of_singleton in Hin. subst c. rewrite Hl.
        apply elem_of_app. right. left.
  - rewrite size_union; [lia|].
    intros x Hx Hd. apply elem_of_difference in Hd. now destruct Hd.
Qed.

Lemma greedy_loop_spec (fuel : nat) covered selected :
  loop_inv G covered selected ->
  (size (universe G) - size covered <= fuel)%nat ->
  match greedy_loop G fuel covered selected with
  | Ok (sel, cov) => loop_inv G cov sel
  | Raised => weights_present G = false
  | OutOfFuel => False
  end.
Proof.
  revert covered selected. induction fuel as [|fuel IH];
    intros covered selected Hinv Hfuel; simpl.
  - destruct (size covered <? size (universe G))%nat eqn:Hlt; [|assumption].
    apply Nat.ltb_lt in Hlt. lia.
  - destruct (size covered <? size (universe G))%nat eqn:Hlt; [|assumption].
    apply Nat.ltb_lt in Hlt.
    destruct (round G covered selected (candidates G) None) as [best|] eqn:Hr.
    + apply round_from_start in Hr.
      destruct best as [[[b r] nc]|]; [|assumption].
      destruct (loop_inv_step covered selected b r nc Hinv Hr)
        as (Hinv' & Hsz & _).
      apply IH; [assumption|].
      assert (size (covered ∪ nc) <= size (universe G))%nat
        by (apply subseteq_size, Hinv').
      lia.
    + destruct (weights_present G) eqn:Hw; [|reflexivity].
      destruct (round_total covered selected (candidates G) None Hw)
        as [b Hb]; [auto|congruence].
Qed.

Lemma select_sites_spec :
  match select_sites G with
  | Ok (sel, cov) => loop_inv G cov sel
  | Raised => weights_present G = false
  | OutOfFuel => False
  end.
Proof.
  unfold select_sites. apply greedy_loop_spec; [apply loop_inv_init|lia].
Qed.

Lemma candidate_lookup (c : string) :
  c ∈ candidates G -> exists a, lookup_node (nodes G) c = Some a.
Proof.
  unfold candidates. intros Hc. apply list_elem_of_In, in_map_iff in Hc.
  destruct Hc as ([k a] & <- & Hin). apply filter_In in Hin.
  destruct Hin as [Hin _]. simpl. now apply (lookup_node_some _ k a).
Qed.

Lemma selected_data (selected : list string) :
  (forall c, c ∈ selected -> c ∈ candidates G) ->
  exists ds, mapM (fun n => data <$> lookup_node (nodes G) n) selected = Some ds.
Proof.
  intros Hsel.
  apply (mapM_is_Some_2 (fun n => data <$> lookup_node (nodes G) n)).
  apply Forall_forall. intros c Hc. simpl.
  destruct (candidate_lookup c (Hsel c Hc)) as [a ->]. simpl. eauto.
Qed.

(** The model never runs out of rounds: the bound of one more than the
    number of targets is enough. *)
Lemma optimize_sites_terminates : optimize_sites G <> OutOfFuel.
Proof.
  unfold optimize_sites. pose proof select_sites_spec as H.
  destruct (select_sites G) as [[sel cov]| |]; [|discriminate|contradiction].
  destruct (mapM _ sel); discriminate.
Qed.

(** ** The round against its specification *)

Lemma candidates_in_order_eq : candidates G = candidates_in_order (nodes G).
Proof.
  unfold candidates.
  induction (nodes G) as [|[n a] l IH]; cbn [List.filter map candidates_in_order];
    [reflexivity|].
  unfold is_type at 1. cbn [snd].
  destruct (ntype a); cbn [map fst]; now rewrite IH.
Qed.

Lemma universe_is_target (t : string) : t ∈ universe G <-> is_target G t.
Proof.
  unfold universe, is_target.
  rewrite elem_of_list_to_set, list_elem_of_In, in_map_iff. split.
  - intros ([k a] & Hk & Hin). cbn [fst] in Hk. subst k.
    apply filter_In in Hin. destruct Hin as [Hin Hty].
    exists a. split; [exact Hin|]. now apply is_type_target in Hty.
  - intros (a & Hin & Hty). exists (t, a). split; [reflexivity|].
    apply filter_In. split; [assumption|]. now apply is_type_target.
Qed.

Lemma new_cover_newly_covered (covered : gset string) (c : string) :
  newly_covered G covered c (new_cover G covered c).
Proof.
  intros t. unfold new_cover, newly_covers.
  rewrite elem_of_difference, elem_of_intersection, universe_is_target.
  tauto.
Qed.

Lemma newly_covered_unique (covered : gset string) (c : string)
    (nc : gset string) :
  newly_covered G covered c nc -> nc = new_cover G covered c.
Proof.
  intros H. apply set_eq. intros t. rewrite (H t). symmetry.
  apply new_cover_newly_covered.
Qed.

Lemma eligible_considered (covered : gset string) (selected : list string)
    (c : string) :
  c ∈ candidates G ->
  eligible G covered selected c <-> considered G covered selected c.
Proof.
  intros Hc. unfold eligible, considered. rewrite <- candidates_in_order_eq.
  split.
  - intros [Hn Hpos]. split; [now apply list_elem_of_In|].
    split; [assumption|].
    apply size_pos_elem_of in Hpos. destruct Hpos as [t Ht].
    exists t. now apply new_cover_newly_covered.
  - intros (_ & Hn & t & Ht). split; [assumption|].
    apply new_cover_newly_covered in Ht.
    destruct (size (new_cover G covered c)) eqn:Hs; [|lia].
    apply size_empty_inv in Hs. apply Hs in Ht.
    now apply elem_of_empty in Ht.
Qed.

Lemma ratio_of_has_ratio (covered : gset string) (c : string) (r : Q) :
  List.NoDup (map fst (nodes G)) ->
  ratio_of G covered c = Some r <-> has_ratio G covered c r.
Proof.
  intros Hnd. unfold ratio_of, has_ratio, has_weight. split.
  - destruct (lookup_node (nodes G) c) as [a|] eqn:Ha; [|discriminate].
    cbn [mbind option_bind]. destruct (weight a) as [w|] eqn:Hw;
      [|discriminate].
    cbn [mbind option_bind]. intros [= <-].
    exists w, (new_cover G covered c). split; [|split; [|reflexivity]].
    + exists a. split; [now apply lookup_node_In|assumption].
    + apply new_cover_newly_covered.
  - intros (w & nc & (a & Hin & Hw) & Hnc & ->).
    rewrite (lookup_node_unique _ _ _ Hnd Hin). cbn [mbind option_bind].
    rewrite Hw. cbn [mbind option_bind].
    now rewrite (newly_covered_unique _ _ _ Hnc).
Qed.

Lemma weights_present_of_nodes :
  List.NoDup (map fst (nodes G)) ->
  (forall n a, In (n, a) (nodes G) -> ntype a = candidate ->
     exists w, weight a = Some w) ->
  weights_present G = true.
Proof.
  intros Hnd Hw. unfold weights_present. apply forallb_forall.
  intros c Hc. unfold candidates in Hc. apply in_map_iff in Hc.
  destruct Hc as ([k a] & <- & Hin). apply filter_In in Hin.
  destruct Hin as [Hin Hty]. cbn [fst].
  rewrite (lookup_node_unique _ _ _ Hnd Hin).
  apply is_type_candidate in Hty.
  destruct (Hw k a Hin Hty) as [w Hweight]. now rewrite Hweight.
Qed.

(** C6.  In a round of the greedy loop (any covered set and selection) on
    a graph whose node ids are distinct, as the keys of a dictionary are,
    and whose candidate nodes all carry a weight, the pass over the
    candidates returns.  It leaves nothing exactly when no unselected
    candidate is adjacent to an uncovered target.  Otherwise it leaves a
    candidate [b], a ratio [r] and a set [nc] such that: [b] is unselected
    and adjacent to an uncovered target; [nc] is the set of the uncovered
    targets adjacent to [b]; [r] is the weight of [b] divided by the size
    of [nc]; every such candidate before [b] in the order of the node
    dictionary has a strictly larger weight / newly_covered_count, and
    every one after it one at least as large (ties go to the earliest).
    The loop then appends [b] and adds [nc] to the covered set. *)
Theorem C6_round_selects_first_minimiser
    (covered : gset string) (selected : list string) :
  List.NoDup (map fst (nodes G)) ->
  (forall n a, In (n, a) (nodes G) -> ntype a = candidate ->
     exists w, weight a = Some w) ->
  exists best,
    round G covered selected (candidates G) None = Some best /\
    match best with
    | None => forall c, ~ considered G covered selected c
    | Some (b, r, nc) =>
        round_choice G covered selected b r /\
        newly_covered G covered b nc
    end /\
    ((size covered < size (universe G))%nat ->
     forall fuel,
       greedy_loop G (S fuel) covered selected =
         match best with
         | None => Ok (selected, covered)
         | Some (b, _, nc) =>
             greedy_loop G fuel (covered ∪ nc) (selected ++ [b])
         end).
Proof.
  intros Hnd Hweights.
  pose proof (weights_present_of_nodes Hnd Hweights) as Hw.
  destruct (round_total covered selected (candidates G) None Hw)
    as [best Hb]; [auto|].
  exists best. split; [assumption|]. split.
  - pose proof (round_from_start covered selected best Hb) as Hmin.
    destruct best as [[[b r] nc]|]; cbn [first_minimiser] in Hmin.
    + destruct Hmin as (l1 & l2 & Hl & Hel & Hr & -> & H1 & H2).
      assert (Hin : forall c, In c l1 \/ c = b \/ In c l2 ->
                              c ∈ candidates G).
      { intros c Hc. rewrite Hl. apply list_elem_of_In, in_app_iff.
        cbn [In]. intuition. }
      split; [|apply new_cover_newly_covered].
      exists l1, l2. rewrite <- candidates_in_order_eq.
      split; [assumption|]. split; [|split; [|split]].
      * apply eligible_considered; auto.
      * now apply ratio_of_has_ratio.
      * intros c Hc Hcons.
        destruct (H1 c) as (rc & Hrc & Hlt).
        { now apply list_elem_of_In. }
        { apply eligible_considered; auto. }
        exists rc. split; [now apply ratio_of_has_ratio|assumption].
      * intros c Hc Hcons.
        destruct (H2 c) as (rc & Hrc & Hle).
        { now apply list_elem_of_In. }
        { apply eligible_considered; auto. }
        exists rc. split; [now apply ratio_of_has_ratio|assumption].
    + intros c Hcons.
      assert (Hc : c ∈ candidates G).
      { rewrite candidates_in_order_eq. apply list_elem_of_In, Hcons. }
      apply (Hmin c Hc). now apply eligible_considered.
  - intros Hlt fuel. apply Nat.ltb_lt in Hlt. simpl. rewrite Hlt, Hb.
    destruct best as [[[b r] nc]|]; reflexivity.
Qed.

(** C7.  On an empty target universe [optimize_sites] returns an empty
    selection and the fraction 0.  With every candidate carrying a weight
    it returns; the selection consists of candidates, and the
    reported fraction is the number of targets adjacent to the selection
    divided by the number of targets when there are targets. *)
Theorem C7_coverage_fraction :
  (universe G = ∅ -> optimize_sites G = Ok ([], 0)) /\
  (weights_present G = true ->
   exists selected ds,
     select_sites G = Ok (selected, covered_by G selected) /\
     mapM (fun n => data <$> lookup_node (nodes G) n) selected = Some ds /\
     optimize_sites G = Ok (ds, coverage_fraction G (covered_by G selected)) /\
     (universe G <> ∅ ->
      coverage_fraction G (covered_by G selected) =
        inject_Z (Z.of_nat (size (covered_by G selected)))
        / inject_Z (Z.of_nat (size (universe G))))).
Proof.
  split.
  - intros Hu. unfold optimize_sites, select_sites, coverage_fraction.
    simpl. rewrite Hu, size_empty. reflexivity.
  - intros Hw. pose proof select_sites_spec as Hs.
    unfold optimize_sites.
    destruct (select_sites G) as [[sel cov]| |];
      [|congruence|contradiction].
    destruct Hs as (-> & Hsub & Hsel).
    destruct (selected_data sel Hsel) as [ds Hds].
    exists sel, ds. rewrite Hds.
    repeat (split; [reflexivity|]).
    intros Hne. unfold coverage_fraction.
    destruct (Nat.eqb_spec (size (universe G)) 0) as [Hz|]; [|reflexivity].
    apply size_empty_inv in Hz. apply leibniz_equiv in Hz. contradiction.
Qed.

End Greedy.

(** The three candidates of the test graph tie at ratio 1/2 in the first
    round; the first in iteration order is chosen and covers everything. *)
Example demo_graph_tie_break :
  ratio_of demo_graph ∅ "cand_0" = Some (2 # 4) /\
  ratio_of demo_graph ∅ "cand_1" = Some (1 # 2) /\
  ratio_of demo_graph ∅ "cand_2" = Some (1 # 2) /\
  select_sites demo_graph = Ok (["cand_0"], covered_by demo_graph ["cand_0"]) /\
  optimize_sites demo_graph = Ok ([tt], 4 # 4).
Proof. repeat split; vm_compute; reflexivity. Qed.

Lemma demo_graph_nodes :
  List.NoDup (map fst (nodes demo_graph)) /\
  (forall n a, In (n, a) (nodes demo_graph) -> ntype a = candidate ->
     exists w, weight a = Some w).
Proof.
  split.
  - cbn [demo_graph nodes map fst].
    repeat (constructor;
            [cbn [In]; intros H;
             repeat (destruct H as [H|H]; [discriminate|]); exact H|]).
    constructor.
  - cbn [demo_graph nodes In]. intros n a H.
    repeat (destruct H as [H|H];
            [injection H as <- <-; cbn; intros; eauto; discriminate|]).
    destruct H.
Defined.

Lemma C6_round_selects_first_minimiser_witness :
  let all := ({[ "t0"; "t1"; "t2"; "t3" ]} : gset string) in
  round demo_graph ∅ [] (candidates demo_graph) None
    = Some (Some ("cand_0", 2 # 4, all)) /\
  round_choice demo_graph ∅ [] "cand_0" (2 # 4) /\
  newly_covered demo_graph ∅ "cand_0" all /\
  (forall fuel,
     greedy_loop demo_graph (S fuel) ∅ []
     = greedy_loop demo_graph fuel (∅ ∪ all) ([] ++ ["cand_0"])).
Proof.
  intros all.
  destruct (C6_round_selects_first_minimiser demo_graph ∅ []
              (proj1 demo_graph_nodes) (proj2 demo_graph_nodes))
    as (best & Hround & Hbest & Hloop).
  assert (Hr : round demo_graph ∅ [] (candidates demo_graph) None
               = Some (Some ("cand_0", 2 # 4, all)))
    by (vm_compute; reflexivity).
  rewrite Hr in Hround. injection Hround as <-.
  destruct Hbest as [Hchoice Hnc].
  repeat (split; [assumption|]).
  apply Hloop. vm_compute. lia.
Defined.

Lemma C7_coverage_fraction_witness :
  optimize_sites empty_universe_graph = Ok ([], 0) /\
  exists selected ds,
    select_sites demo_graph = Ok (selected, covered_by demo_graph selected) /\
    optimize_sites demo_graph
      = Ok (ds, coverage_fraction demo_graph (covered_by demo_graph selected)).
Proof.
  split.
  - apply (proj1 (C7_coverage_fraction empty_universe_graph)). reflexivity.
  - destruct (proj2 (C7_coverage_fraction demo_graph) eq_refl)
      as (sel & ds & H1 & _ & H2 & _).
    exists sel, ds. split; assumption.
Defined.

End PlannerProofs.

(* ================================================================== *)
(** * Properties of the sieve *)
(* ================================================================== *)

Module SieveProofs.
Import Tiles Sieve.
Local Open Scope Q_scope.

(** ** The local-maxima filter on the single-peak grid *)

Lemma peak_indices_peak_grid :
  peak_indices peak_grid = List.filter flagged_on_peak_grid all_cells.
Proof. vm_compute. reflexivity. Qed.

Lemma in_all_cells (r c : nat) :
  In (r, c) all_cells <-> (r < 16)%nat /\ (c < 16)%nat.
Proof.
  unfold all_cells, grid_size. rewrite in_flat_map. split.
  - intros (r' & Hr & Hin). apply in_map_iff in Hin.
    destruct Hin as (c' & [= <- <-] & Hc).
    apply in_seq in Hr, Hc. lia.
  - intros [Hr Hc]. exists r. split; [apply in_seq; lia|].
    apply in_map_iff. exists c. split; [reflexivity|apply in_seq; lia].
Qed.

Lemma peak_grid_cell_positive (r c : nat) :
  (r < 16)%nat -> (c < 16)%nat -> 0 < cell peak_grid r c ->
  r = 8%nat /\ c = 8%nat.
Proof.
  intros Hr Hc.
  do 16 (destruct r as [|r]; [
    do 16 (destruct c as [|c]; [vm_compute; intros H; (discriminate || (split; reflexivity))|]); lia|]).
  lia.
Qed.

(** ** Mapping cells to coordinates *)

Lemma linspace16_bounds (a b : Q) (i : nat) :
  a <= b -> (i < 16)%nat ->
  a <= nth i (linspace a b 16) 0 <= b.
Proof.
  intros Hab Hi. unfold linspace.
  assert (Hd : (b - a) / (15 # 1) == (b - a) * (1 # 15)) by field.
  do 16 (destruct i as [|i];
         [cbn [nth map seq Nat.sub]; simpl Z.of_nat; unfold inject_Z;
          rewrite Hd; cbv [Z.of_nat Pos.of_succ_nat Pos.succ]; lra|]).
  lia.
Qed.

Lemma nth_map_lt {A B : Type} (f : A -> B) (l : list A) (i : nat) (d : B) (d' : A) :
  (i < length l)%nat -> nth i (map f l) d = f (nth i l d').
Proof.
  revert i. induction l as [|x l IH]; intros [|i] Hi; simpl in *; try lia.
  - reflexivity.
  - apply IH. lia.
Qed.

Lemma linspace16_length (a b : Q) : length (linspace a b 16) = 16%nat.
Proof. unfold linspace. now rewrite length_map, length_seq. Qed.

Lemma cell_lat_eq (b : bounds) (r c : nat) :
  (r < 16)%nat ->
  cell_lat b r c = nth c (linspace (south b) (north b) 16) 0.
Proof.
  intros Hr. unfold cell_lat, meshgrid, cell, grid_size. cbn [fst].
  rewrite (nth_map_lt _ _ r [] 0) by (now rewrite linspace16_length).
  reflexivity.
Qed.

Lemma cell_lon_eq (b : bounds) (r c : nat) :
  (r < 16)%nat -> (c < 16)%nat ->
  cell_lon b r c = nth r (linspace (west b) (east b) 16) 0.
Proof.
  intros Hr Hc. unfold cell_lon, meshgrid, cell, grid_size. cbn [snd].
  rewrite (nth_map_lt _ _ r [] 0) by (now rewrite linspace16_length).
  rewrite (nth_map_lt _ _ c 0 0) by (now rewrite linspace16_length).
  reflexivity.
Qed.

Lemma cell_in_tile (b : bounds) (r c : nat) :
  south b <= north b -> west b <= east b ->
  (r < 16)%nat -> (c < 16)%nat ->
  south b <= cell_lat b r c <= north b /\
  west b <= cell_lon b r c <= east b.
Proof.
  intros Hsn Hwe Hr Hc.
  rewrite cell_lat_eq, cell_lon_eq by assumption.
  split; now apply linspace16_bounds.
Qed.

(** C8, counterexample.  On the single-peak grid the filter flags 248
    cells, among them the corner [(0, 0)], whose window is all zero. *)
Lemma C8_counterexample :
  peaks_mask peak_grid 0 0 = true /\
  In (0, 0)%nat (peak_indices peak_grid) /\
  length (peak_indices peak_grid) = 248%nat /\
  peak_indices peak_grid <> [(8, 8)%nat].
Proof.
  split; [vm_compute; reflexivity|].
  split; [vm_compute; left; reflexivity|].
  split; [vm_compute; reflexivity|].
  intros H. apply (f_equal (@length _)) in H. vm_compute in H. discriminate.
Qed.

(** C8, as amended.  On the 16 x 16 grid that is zero except for 100 at
    row 8, column 8, the window-3 maximum filter flags the peak cell and
    every cell outside the 3 x 3 block around it (each ties with its
    all-zero window), 248 cells in all, and none of the eight neighbours
    of the peak; the peak is the only flagged cell of positive elevation;
    and for a tile whose bounds satisfy south <= north and west <= east
    every flagged cell is mapped to a (lat, lon) inside the tile's
    bounding rectangle. *)
Theorem C8_single_peak_flags (b : bounds) :
  south b <= north b -> west b <= east b ->
  (forall r c, In (r, c) (peak_indices peak_grid) <->
     (r < 16)%nat /\ (c < 16)%nat /\
     ((r = 8%nat /\ c = 8%nat) \/ near_peak (r, c) = false)) /\
  length (peak_indices peak_grid) = 248%nat /\
  (forall r c, In (r, c) (peak_indices peak_grid) ->
     0 < cell peak_grid r c -> r = 8%nat /\ c = 8%nat) /\
  cell peak_grid 8 8 == 100 /\
  (forall r c, In (r, c) (peak_indices peak_grid) ->
     south b <= cell_lat b r c <= north b /\
     west b <= cell_lon b r c <= east b).
Proof.
  intros Hsn Hwe.
  assert (Hin : forall r c, In (r, c) (peak_indices peak_grid) <->
            (r < 16)%nat /\ (c < 16)%nat /\
            ((r = 8%nat /\ c = 8%nat) \/ near_peak (r, c) = false)).
  { intros r c. rewrite peak_indices_peak_grid, filter_In, in_all_cells.
    unfold flagged_on_peak_grid. cbn [fst snd].
    rewrite orb_true_iff, negb_true_iff, andb_true_iff, !Nat.eqb_eq.
    tauto. }
  split; [exact Hin|].
  split; [vm_compute; reflexivity|].
  split; [|split; [vm_compute; reflexivity|]].
  - intros r c Hf. apply Hin in Hf. destruct Hf as (Hr & Hc & _).
    now apply peak_grid_cell_positive.
  - intros r c Hf. apply Hin in Hf. destruct Hf as (Hr & Hc & _).
    now apply cell_in_tile.
Qed.

Lemma C8_single_peak_flags_witness :
  In (8, 8)%nat (peak_indices peak_grid) /\
  ~ In (7, 8)%nat (peak_indices peak_grid) /\
  0 <= cell_lat (mkBounds 1 0 2 1) 8 8 <= 1 /\
  1 <= cell_lon (mkBounds 1 0 2 1) 8 8 <= 2.
Proof.
  destruct (C8_single_peak_flags (mkBounds 1 0 2 1)) as (Hin & _ & _ & _ & Hb).
  - discriminate.
  - discriminate.
  - split; [|split].
    + apply Hin. split; [lia|split; [lia|left; split; reflexivity]].
    + intros H. apply Hin in H. destruct H as (_ & _ & [[H _]|H]); discriminate.
    + apply (Hb 8%nat 8%nat). apply Hin.
      split; [lia|split; [lia|left; split; reflexivity]].
Defined.

(** ** Failure paths of the task *)

(** A tile without usable data is skipped: no candidates, no exception. *)
Lemma scan_tile_absent (E : env) (min_lat min_lon max_lat max_lon : Q)
    (c : cache) (t : tile) :
  let r1 := get_tile_data_at E c (tile_lat_center E t) (tile_lon_center E t) in
  let r2 :=
    get_tile_data_at E (snd r1) (tile_lat_center E t) (tile_lon_center E t) in
  (exists d0, fst r1 = Returns d0) ->
  (match fst r2 with
   | Returns None => true
   | Returns (Some d) => negb (truthy (Some d)) || negb (has_key "elevation" d)
   | Raises _ => false
   end) = true ->
  scan_tile E min_lat min_lon max_lat max_lon c t = Scanned ([], snd r2).
Proof.
  cbv zeta. unfold scan_tile, tile_lon_center, tile_lat_center.
  destruct (get_tile_data_at E c _ _) as [d0 c1]. cbn [fst snd].
  intros [d Hd]. subst d0.
  destruct (get_tile_data_at E c1 _ _) as [raw c2]. cbn [fst snd].
  destruct raw as [[d'|]|e]; [|reflexivity|discriminate].
  intros ->. reflexivity.
Qed.

Lemma no_tiles_is_error (E : env) (c : cache)
    (min_lat min_lon max_lat max_lon freq_mhz height_m : Q) :
  optimize_location_task E [] c min_lat min_lon max_lat max_lon freq_mhz height_m
  = Error "No tiles found for area".
Proof. reflexivity. Qed.

(** C9, the code at the failing input.  Two tiles cover the box.  When the
    first tile has no data its scan is skipped and the peak of the second
    tile heads the result.  When the first tile's record holds 255 samples
    the reshape raises, the handler ends the task, and the result is an
    error: the second tile is not scanned. *)
Theorem C9_malformed_tile_aborts_scan :
  (exists rest,
     optimize_location_task two_tile_env [mkTile 0 0 12; mkTile 1 0 12]
       absent_cache 0 0 1 2 915 10
     = Success (mkScored (mkSite (8 # 15) (23 # 15) 100 1 0) 100 :: rest)) /\
  scan_tile two_tile_env 0 0 1 2 truncated_cache (mkTile 0 0 12)
    = ReshapeFailed /\
  optimize_location_task two_tile_env [mkTile 0 0 12; mkTile 1 0 12]
    truncated_cache 0 0 1 2 915 10
  = Error "cannot reshape array into shape (16,16)".
Proof.
  split; [eexists; vm_compute; reflexivity|].
  split; vm_compute; reflexivity.
Qed.

End SieveProofs.

(* ================================================================== *)
(** * Further properties of the link analyzer *)
(* ================================================================== *)

Module PhysicsMore.
Import Physics PhysicsProofs.
Local Open Scope R_scope.

(** ** Haversine distance *)

(** X1.  The haversine distance does not depend on the order of the two
    points. *)
Theorem haversine_symmetric (lat1 lon1 lat2 lon2 : R) :
  haversine_distance lat1 lon1 lat2 lon2
  = haversine_distance lat2 lon2 lat1 lon1.
Proof.
  unfold haversine_distance, radians.
  assert (Hs : forall x y : R,
             sin ((x - y) * PI / 180 / 2) ^ 2 = sin ((y - x) * PI / 180 / 2) ^ 2).
  { intros x y.
    replace ((x - y) * PI / 180 / 2) with (- ((y - x) * PI / 180 / 2)) by lra.
    rewrite sin_neg. ring. }
  rewrite (Hs lat2 lat1), (Hs lon2 lon1).
  rewrite (Rmult_comm (cos (lat1 * PI / 180)) (cos (lat2 * PI / 180))).
  reflexivity.
Qed.

Lemma atan2_quadrant (y x : R) :
  0 <= y -> 0 <= x -> 0 <= atan2 y x <= PI / 2.
Proof.
  intros Hy Hx. pose proof PI_bounds as HPI. unfold atan2.
  destruct (Rlt_dec 0 x) as [Hpos|Hn].
  - destruct (atan_bound (y / x)) as [_ Hub]. split; [|lra].
    assert (Hq : 0 <= y / x).
    { unfold Rdiv. apply Rmult_le_pos; [assumption|].
      left. now apply Rinv_0_lt_compat. }
    destruct Hq as [Hq|Hq].
    + left. rewrite <- atan_0. now apply atan_increasing.
    + rewrite <- Hq, atan_0. lra.
  - destruct (Rlt_dec x 0); [lra|].
    destruct (Rlt_dec 0 y); [lra|].
    destruct (Rlt_dec y 0); lra.
Qed.

(** X2.  The distance is never negative, never more than half the
    circumference of the sphere of radius 6371 km, and the distance from a
    point to itself is 0. *)
Theorem haversine_range (lat1 lon1 lat2 lon2 : R) :
  0 <= haversine_distance lat1 lon1 lat2 lon2 <= 6371000 * PI /\
  haversine_distance lat1 lon1 lat1 lon1 = 0.
Proof.
  split.
  - unfold haversine_distance.
    set (a := sin (radians (lat2 - lat1) / 2) ^ 2
              + cos (radians lat1) * cos (radians lat2)
                * sin (radians (lon2 - lon1) / 2) ^ 2).
    pose proof (atan2_quadrant (sqrt a) (sqrt (1 - a))
                  (sqrt_pos a) (sqrt_pos (1 - a))) as [H0 H1].
    unfold EARTH_RADIUS_KM. split; nra.
  - unfold haversine_distance, radians.
    replace ((lat1 - lat1) * PI / 180 / 2) with 0 by lra.
    replace ((lon1 - lon1) * PI / 180 / 2) with 0 by lra.
    rewrite sin_0.
    replace (0 ^ 2 + cos (lat1 * PI / 180) * cos (lat1 * PI / 180) * 0 ^ 2)
      with 0 by ring.
    rewrite Rminus_0_r, sqrt_0, sqrt_1.
    unfold atan2. destruct (Rlt_dec 0 1); [|lra].
    replace (0 / 1) with 0 by lra. rewrite atan_0. ring.
Qed.

(** ** The terrain profile *)

Lemma last_is_nth (l : list R) :
  l <> [] -> List.last l 0 = nth (length l - 1) l 0.
Proof.
  induction l as [|x [|y l] IH]; intros Hne; [contradiction|reflexivity|].
  change (List.last (x :: y :: l) 0) with (List.last (y :: l) 0).
  rewrite IH by discriminate. simpl. now rewrite Nat.sub_0_r.
Qed.

Lemma profile_nth (tm : tile_manager) (lat1 lon1 lat2 lon2 : R) (i : nat) :
  haversine_distance lat1 lon1 lat2 lon2 <> 0 ->
  let elevs := fst (generate_profile tm lat1 lon1 lat2 lon2) in
  (i < length elevs)%nat ->
  nth i elevs 0 =
    tm (nth i (linspace lat1 lat2 (length elevs)) 0)
       (nth i (linspace lon1 lon2 (length elevs)) 0).
Proof.
  intros HD elevs Hi. subst elevs.
  rewrite generate_profile_length in * by assumption.
  unfold generate_profile. destruct (Req_dec_T _ 0); [contradiction|].
  cbn [fst].
  set (num := Z.to_nat (Z.max 2 (int (haversine_distance lat1 lon1 lat2 lon2
                                      / step_meters)))) in *.
  set (g := fun p : R * R => tm (fst p) (snd p)).
  rewrite (nth_indep _ 0 (g (0, 0)))
    by (rewrite length_map, length_combine, !linspace_length; lia).
  rewrite (map_nth g), combine_nth by (now rewrite !linspace_length).
  reflexivity.
Qed.

(** X3.  For two distinct points the profile has [max(2, int(d / 30))]
    samples, its first sample is the elevation at the first endpoint and its
    last sample the elevation at the second endpoint, and the reported
    distance is the haversine distance. *)
Theorem profile_samples (tm : tile_manager) (lat1 lon1 lat2 lon2 : R) :
  haversine_distance lat1 lon1 lat2 lon2 <> 0 ->
  let elevs := fst (generate_profile tm lat1 lon1 lat2 lon2) in
  length elevs
    = Z.to_nat (Z.max 2 (int (haversine_distance lat1 lon1 lat2 lon2 / 30))) /\
  (2 <= length elevs)%nat /\
  nth 0 elevs 0 = tm lat1 lon1 /\
  List.last elevs 0 = tm lat2 lon2 /\
  snd (generate_profile tm lat1 lon1 lat2 lon2)
    = haversine_distance lat1 lon1 lat2 lon2.
Proof.
  intros HD elevs.
  pose proof (generate_profile_length tm lat1 lon1 lat2 lon2 HD) as Hlen.
  fold elevs in Hlen. unfold step_meters in Hlen.
  assert (H2 : (2 <= length elevs)%nat) by (rewrite Hlen; lia).
  split; [exact Hlen|]. split; [exact H2|].
  split; [|split; [|apply generate_profile_dist]].
  - unfold elevs. rewrite profile_nth by (assumption || (fold elevs; lia)).
    fold elevs. rewrite !linspace_nth by lia. simpl (INR 0).
    f_equal; lra.
  - rewrite last_is_nth by (intros H; rewrite H in H2; simpl in H2; lia).
    unfold elevs at 2.
    rewrite profile_nth by (assumption || (fold elevs; lia)).
    fold elevs. rewrite !linspace_nth by lia.
    assert (Hn : 0 < INR (length elevs - 1)) by (apply lt_0_INR; lia).
    f_equal; field; lra.
Qed.

Lemma profile_samples_witness :
  let elevs := fst (generate_profile (flat_terrain 5) 0 0 0 (lon_at 100)) in
  length elevs
    = Z.to_nat (Z.max 2 (int (haversine_distance 0 0 0 (lon_at 100) / 30))) /\
  (2 <= length elevs)%nat /\
  nth 0 elevs 0 = flat_terrain 5 0 0 /\
  List.last elevs 0 = flat_terrain 5 0 (lon_at 100) /\
  snd (generate_profile (flat_terrain 5) 0 0 0 (lon_at 100))
    = haversine_distance 0 0 0 (lon_at 100).
Proof.
  apply (profile_samples (flat_terrain 5) 0 0 0 (lon_at 100)).
  rewrite haversine_lon_at; lra.
Defined.

Lemma int_bounds (x : R) : 0 <= x -> IZR (int x) <= x < IZR (int x) + 1.
Proof.
  intros Hx. unfold int. destruct (Rle_dec 0 x); [|lra].
  destruct (base_Int_part x). lra.
Qed.

(** On a link of 90 m or more there are [n >= 3] samples, with
    [30 n <= d < 30 (n + 1)]. *)
Lemma long_link_samples (tm : tile_manager) (lat1 lon1 lat2 lon2 : R) :
  90 <= haversine_distance lat1 lon1 lat2 lon2 ->
  let n := length (fst (generate_profile tm lat1 lon1 lat2 lon2)) in
  (3 <= n)%nat /\
  30 * INR n <= haversine_distance lat1 lon1 lat2 lon2 < 30 * (INR n + 1).
Proof.
  intros HD n. subst n.
  rewrite generate_profile_length by lra. unfold step_meters.
  set (D := haversine_distance lat1 lon1 lat2 lon2) in *.
  pose proof (int_bounds (D / 30) ltac:(lra)) as [Hlo Hhi].
  assert (Hz : (3 <= int (D / 30))%Z).
  { assert (2 < int (D / 30))%Z by (apply lt_IZR; lra). lia. }
  replace (Z.max 2 (int (D / 30))) with (int (D / 30)) by lia.
  split; [lia|].
  rewrite INR_IZR_INZ, Z2Nat.id by lia. lra.
Qed.



(** ** Frequencies that are not positive *)

Lemma scan_step_raises (dist_m freq_mhz : R) (dists clearance : list R)
    (st : scan) (i : nat) :
  freq_mhz <= 0 -> interior dist_m dists i = true ->
  scan_step dist_m freq_mhz dists clearance st i = None.
Proof.
  intros Hf Hint. unfold scan_step.
  pose proof Hint as Hb. unfold interior in Hb.
  apply negb_true_iff in Hb. rewrite Hb.
  apply interior_true in Hint. destruct Hint as [H1 H2].
  set (d1 := nth i dists 0) in *.
  unfold calculate_fresnel_zone.
  destruct (Req_dec_T (freq_mhz * 1e6) 0); [reflexivity|].
  destruct (Req_dec_T dist_m 0); [reflexivity|].
  destruct (Rlt_dec _ 0) as [|Hn]; [reflexivity|]. exfalso. apply Hn.
  assert (Hneg : freq_mhz < 0) by lra.
  assert (Hw : 2.99792e8 / (freq_mhz * 1e6) < 0).
  { unfold Rdiv. apply Rmult_pos_neg; [lra|].
    apply Rinv_lt_0_compat. lra. }
  set (w := 2.99792e8 / (freq_mhz * 1e6)) in *.
  unfold Rdiv. apply Rmult_neg_pos; [|apply Rinv_0_lt_compat; lra].
  assert (0 < d1 * (dist_m - d1)) by (apply Rmult_lt_0_compat; lra).
  replace (1 * w * d1 * (dist_m - d1)) with (w * (d1 * (dist_m - d1))) by ring.
  now apply Rmult_neg_pos.
Qed.

Lemma scan_loop_raises (dist_m freq_mhz : R) (dists clearance : list R)
    (idxs : list nat) (st : scan) (i : nat) :
  freq_mhz <= 0 -> In i idxs -> interior dist_m dists i = true ->
  scan_loop dist_m freq_mhz dists clearance idxs st = None.
Proof.
  intros Hf Hin Hint. revert st.
  induction idxs as [|j idxs IH]; intros st; [contradiction|].
  simpl. destruct Hin as [->|Hin].
  - now rewrite scan_step_raises.
  - destruct (scan_step _ _ _ _ st j); simpl; [now apply IH|reflexivity].
Qed.

(** X5.  On a link of 90 m or more, a frequency that is zero or negative
    makes [analyze_link] raise (division by zero, or the square root of a
    negative number) instead of returning a result. *)
Theorem analyze_link_raises_on_bad_frequency (tm : tile_manager)
    (lat1 lon1 lat2 lon2 freq_mhz tx_h rx_h : R) :
  90 <= haversine_distance lat1 lon1 lat2 lon2 ->
  freq_mhz <= 0 ->
  analyze_link tm lat1 lon1 lat2 lon2 freq_mhz tx_h rx_h = None.
Proof.
  intros HD Hf.
  destruct (long_link_samples tm lat1 lon1 lat2 lon2 HD) as [Hn [Hlo Hhi]].
  pose proof (generate_profile_dist tm lat1 lon1 lat2 lon2) as Hd.
  unfold analyze_link.
  destruct (generate_profile tm lat1 lon1 lat2 lon2) as [elevs dist_m].
  cbn [fst snd] in *. subst dist_m.
  set (D := haversine_distance lat1 lon1 lat2 lon2) in *.
  set (n := length elevs) in *.
  assert (Hs : analyze_scan elevs D freq_mhz tx_h rx_h = None).
  { unfold analyze_scan. fold n.
    apply (scan_loop_raises _ _ _ _ _ _ 1%nat); [assumption|apply in_seq; lia|].
    apply interior_true. rewrite linspace_nth by lia.
    assert (Hm : INR (n - 1) = INR n - 1).
    { rewrite minus_INR by lia. simpl. lra. }
    assert (H3 : 3 <= INR n)
      by (pose proof (le_INR 3 n ltac:(lia)) as H; simpl in H; lra).
    rewrite Hm. simpl (INR 1).
    replace (0 + 1 * ((D - 0) / (INR n - 1))) with (D / (INR n - 1)) by lra.
    assert (Hq : 30 < D / (INR n - 1)).
    { apply Rmult_lt_reg_r with (INR n - 1); [lra|].
      unfold Rdiv. rewrite Rmult_assoc, Rinv_l by lra. lra. }
    assert (Hq2 : D / (INR n - 1) <= D / 2).
    { unfold Rdiv. apply Rmult_le_compat_l; [lra|].
      apply Rinv_le_contravar; lra. }
    lra. }
  rewrite Hs. reflexivity.
Qed.

Lemma analyze_link_raises_on_bad_frequency_witness :
  analyze_link (flat_terrain 0) 0 0 0 (lon_at 100) 0 10 10 = None.
Proof.
  apply analyze_link_raises_on_bad_frequency.
  - rewrite haversine_lon_at; lra.
  - lra.
Defined.

(** ** Antenna heights *)

Lemma linspace_monotone (a b a' b' : R) (n i : nat) :
  a <= a' -> b <= b' -> (i < n)%nat ->
  nth i (linspace a b n) 0 <= nth i (linspace a' b' n) 0.
Proof.
  intros Ha Hb Hi. destruct n as [|[|n]]; [lia| |].
  - destruct i; [simpl; lra|lia].
  - rewrite !linspace_nth by lia.
    assert (Hm : 0 < INR (S (S n) - 1)) by (apply lt_0_INR; lia).
    assert (Hi' : 0 <= INR i <= INR (S (S n) - 1)).
    { split; [apply pos_INR|apply le_INR; lia]. }
    set (m := INR (S (S n) - 1)) in *. set (x := INR i) in *.
    assert (Ht : 0 <= x / m <= 1).
    { split.
      - unfold Rdiv. apply Rmult_le_pos; [lra|]. left.
        now apply Rinv_0_lt_compat.
      - apply Rmult_le_reg_r with m; [assumption|].
        unfold Rdiv. rewrite Rmult_assoc, Rinv_l by lra. lra. }
    replace (a + x * ((b - a) / m)) with (a + x / m * (b - a))
      by (unfold Rdiv; ring).
    replace (a' + x * ((b' - a') / m)) with (a' + x / m * (b' - a'))
      by (unfold Rdiv; ring).
    set (t := x / m) in *. nra.
Qed.

Lemma clearance_monotone (elevs : list R) (dist_m tx_h rx_h tx_h' rx_h' : R)
    (i : nat) :
  tx_h <= tx_h' -> rx_h <= rx_h' -> (i < length elevs)%nat ->
  nth i (clearance_of elevs dist_m tx_h rx_h) 0
  <= nth i (clearance_of elevs dist_m tx_h' rx_h') 0.
Proof.
  intros Ht Hr Hi. rewrite !clearance_nth by assumption. cbv zeta.
  pose proof (linspace_monotone (nth 0 elevs 0 + tx_h) (List.last elevs 0 + rx_h)
                (nth 0 elevs 0 + tx_h') (List.last elevs 0 + rx_h')
                (length elevs) i ltac:(lra) ltac:(lra) Hi).
  lra.
Qed.

(** X6.  Raising either antenna never lowers the reported clearance ratio:
    with the endpoints, terrain and (positive) frequency fixed, taller
    antennas give a ratio at least as large. *)
Theorem ratio_monotone_in_antenna_heights (tm : tile_manager)
    (lat1 lon1 lat2 lon2 freq_mhz tx_h rx_h tx_h' rx_h' : R) :
  0 < freq_mhz -> tx_h <= tx_h' -> rx_h <= rx_h' ->
  exists res res',
    analyze_link tm lat1 lon1 lat2 lon2 freq_mhz tx_h rx_h = Some res /\
    analyze_link tm lat1 lon1 lat2 lon2 freq_mhz tx_h' rx_h' = Some res' /\
    min_clearance_ratio res <= min_clearance_ratio res'.
Proof.
  intros Hf Ht Hr.
  destruct (analyze_link_total tm lat1 lon1 lat2 lon2 freq_mhz tx_h rx_h Hf)
    as [res Hres].
  destruct (analyze_link_total tm lat1 lon1 lat2 lon2 freq_mhz tx_h' rx_h' Hf)
    as [res' Hres'].
  exists res, res'. split; [assumption|]. split; [assumption|].
  apply analyze_link_some in Hres, Hres'. cbv zeta in Hres, Hres'.
  destruct Hres as (_ & _ & _ & _ & Hm). destruct Hres' as (_ & _ & _ & _ & Hm').
  set (elevs := fst (generate_profile tm lat1 lon1 lat2 lon2)) in *.
  set (D := snd (generate_profile tm lat1 lon1 lat2 lon2)) in *.
  rewrite Hm'. apply list_min_ge.
  - rewrite Hm. apply list_min_le_start.
  - intros r Hr'. apply interior_ratio_inv in Hr'.
    destruct Hr' as (i & Hi & Hint & ->).
    apply Rle_trans with
      (ratio_at D freq_mhz (linspace 0 D (length elevs))
         (clearance_of elevs D tx_h rx_h) i).
    + rewrite Hm. apply list_min_le_elem. now apply interior_ratio_in.
    + unfold ratio_at. pose proof Hint as Hint'.
      apply interior_true in Hint'. destruct Hint' as [H1 H2].
      pose proof (fresnel_radius_pos D freq_mhz _ _ Hf H1 H2 ltac:(lra)) as HF.
      unfold Rdiv. apply Rmult_le_compat_r.
      * left. now apply Rinv_0_lt_compat.
      * now apply clearance_monotone.
Qed.

Lemma ratio_monotone_in_antenna_heights_witness :
  exists res res',
    analyze_link (flat_terrain 0) 0 0 0 (lon_at 100) 915 2 2 = Some res /\
    analyze_link (flat_terrain 0) 0 0 0 (lon_at 100) 915 10 3 = Some res' /\
    min_clearance_ratio res <= min_clearance_ratio res'.
Proof.
  apply (ratio_monotone_in_antenna_heights (flat_terrain 0) 0 0 0 (lon_at 100)
           915 2 2 10 3); lra.
Defined.

(** ** Path loss *)

Lemma ln10_pos : 0 < ln 10.
Proof. rewrite <- ln_1. apply ln_increasing; lra. Qed.

Lemma log10_times_10 (x : R) : 0 < x -> log10 (10 * x) = log10 x + 1.
Proof.
  intros Hx. unfold log10. rewrite ln_mult by lra.
  pose proof ln10_pos. field. lra.
Qed.

(** [calculate_itm_loss] returns 0 for any distance under 1 m, whatever
    the frequency; from 1 m on it raises for a frequency that is not
    positive and returns the free-space value otherwise. *)
Theorem itm_loss_edges (dist_m freq_mhz tx_h rx_h : R) (elevs : list R) :
  (dist_m < 1 ->
   calculate_itm_loss dist_m elevs freq_mhz tx_h rx_h = Some 0) /\
  (1 <= dist_m -> freq_mhz <= 0 ->
   calculate_itm_loss dist_m elevs freq_mhz tx_h rx_h = None) /\
  (1 <= dist_m -> 0 < freq_mhz ->
   calculate_itm_loss dist_m elevs freq_mhz tx_h rx_h
   = Some (fspl (dist_m / 1000) freq_mhz)).
Proof.
  unfold calculate_itm_loss, fspl.
  repeat split; intros;
    destruct (Rlt_dec (dist_m / 1000) 0.001); try lra; try reflexivity;
    destruct (Rle_dec freq_mhz 0); try lra; reflexivity.
Qed.

Lemma itm_loss_edges_witness :
  calculate_itm_loss (1 / 2) [] (-5) 10 10 = Some 0 /\
  calculate_itm_loss 1000 [] 0 10 10 = None /\
  calculate_itm_loss 1000 [] 1000 10 10 = Some (fspl (1000 / 1000) 1000).
Proof.
  split; [|split].
  - apply (proj1 (itm_loss_edges (1 / 2) (-5) 10 10 [])). lra.
  - apply (proj1 (proj2 (itm_loss_edges 1000 0 10 10 []))); lra.
  - apply (proj2 (proj2 (itm_loss_edges 1000 1000 10 10 []))); lra.
Defined.

Lemma log10_le (x y : R) : 0 < x -> x <= y -> log10 x <= log10 y.
Proof.
  intros Hx Hxy. unfold log10. pose proof ln10_pos as H10.
  apply Rmult_le_compat_r; [left; now apply Rinv_0_lt_compat|].
  destruct Hxy as [Hlt| ->]; [|lra].
  left. now apply ln_increasing.
Qed.

(** X9.  From 1 m on and for positive frequencies, the loss computed by
    [calculate_itm_loss] does not decrease when the distance grows or
    when the frequency grows. *)
Theorem itm_loss_monotone (dist_m dist_m' freq_mhz freq_mhz' tx_h rx_h : R)
    (elevs : list R) :
  1 <= dist_m -> dist_m <= dist_m' -> 0 < freq_mhz -> freq_mhz <= freq_mhz' ->
  exists l l',
    calculate_itm_loss dist_m elevs freq_mhz tx_h rx_h = Some l /\
    calculate_itm_loss dist_m' elevs freq_mhz' tx_h rx_h = Some l' /\
    l <= l'.
Proof.
  intros Hd Hd' Hf Hf'.
  destruct (itm_loss_edges dist_m freq_mhz tx_h rx_h elevs) as (_ & _ & H1).
  destruct (itm_loss_edges dist_m' freq_mhz' tx_h rx_h elevs)
    as (_ & _ & H2).
  eexists _, _. split; [apply H1; lra|]. split; [apply H2; lra|].
  unfold fspl.
  pose proof (log10_le (dist_m / 1000) (dist_m' / 1000)) as Hl1.
  pose proof (log10_le freq_mhz freq_mhz' Hf Hf') as Hl2.
  assert (log10 (dist_m / 1000) <= log10 (dist_m' / 1000))
    by (apply Hl1; lra).
  lra.
Qed.

Lemma itm_loss_monotone_witness :
  exists l l',
    calculate_itm_loss 1000 [] 433 10 10 = Some l /\
    calculate_itm_loss 5000 [] 915 10 10 = Some l' /\
    l <= l'.
Proof.
  apply (itm_loss_monotone 1000 5000 433 915 10 10 []); lra.
Defined.

End PhysicsMore.

(* ================================================================== *)
(** * Further properties of the site optimizer *)
(* ================================================================== *)

Module PlannerMore.
Import Planner PlannerProofs.
Local Open Scope Q_scope.

Section GreedyMore.
Context {D : Type}.
Variable G : graph D.

(** What the loop has established when it stops. *)
Lemma greedy_loop_post (fuel : nat) (covered : gset string)
    (selected sel : list string) (cov : gset string) :
  loop_inv G covered selected ->
  NoDup selected -> (length selected <= size covered)%nat ->
  greedy_loop G fuel covered selected = Ok (sel, cov) ->
  loop_inv G cov sel /\ NoDup sel /\ (length sel <= size cov)%nat /\
  ((size (universe G) <= size cov)%nat
   \/ first_minimiser G cov sel (candidates G) None).
Proof.
  revert covered selected. induction fuel as [|fuel IH];
    intros covered selected Hinv Hnd Hlen; simpl.
  - destruct (size covered <? size (universe G))%nat eqn:Hlt; [discriminate|].
    intros [= <- <-]. apply Nat.ltb_ge in Hlt. auto.
  - destruct (size covered <? size (universe G))%nat eqn:Hlt.
    + destruct (round G covered selected (candidates G) None) as [best|] eqn:Hr;
        [|discriminate].
      apply round_from_start in Hr.
      destruct best as [[[b r] nc]|].
      * intros H.
        destruct (loop_inv_step G covered selected b r nc Hinv Hr)
          as (Hinv' & Hsz & Hnin).
        apply (IH (covered ∪ nc) (selected ++ [b])); try assumption.
        -- apply NoDup_app. split; [assumption|]. split.
           ++ intros x Hx Hxb. apply list_elem_of_singleton in Hxb.
              subst x. contradiction.
           ++ apply NoDup_singleton.
        -- rewrite length_app. simpl. lia.
      * intros [= <- <-]. auto.
    + intros [= <- <-]. apply Nat.ltb_ge in Hlt. auto.
Qed.

Lemma select_sites_post (sel : list string) (cov : gset string) :
  select_sites G = Ok (sel, cov) ->
  loop_inv G cov sel /\ NoDup sel /\ (length sel <= size cov)%nat /\
  ((size (universe G) <= size cov)%nat
   \/ first_minimiser G cov sel (candidates G) None).
Proof.
  unfold select_sites. apply greedy_loop_post.
  - apply loop_inv_init.
  - apply NoDup_nil_2.
  - simpl. lia.
Qed.

(** X10.  The greedy selection never contains a candidate twice, consists
    of candidate nodes only, and is no longer than the number of targets it
    covers, which is at most the number of targets. *)
Theorem selection_distinct_and_bounded (sel : list string) (cov : gset string) :
  select_sites G = Ok (sel, cov) ->
  NoDup sel /\
  (forall c, c ∈ sel -> c ∈ candidates G) /\
  cov = covered_by G sel /\
  (length sel <= size cov)%nat /\
  (size cov <= size (universe G))%nat.
Proof.
  intros H. apply select_sites_post in H.
  destruct H as ((Hc & Hsub & Hsel) & Hnd & Hlen & _).
  repeat (split; [assumption|]). now apply subseteq_size.
Qed.

(** X11.  When the greedy loop stops, every target that some candidate can
    reach is covered: the covered set is exactly the set of targets adjacent
    to at least one candidate node. *)
Theorem coverage_is_maximal (sel : list string) (cov : gset string) :
  select_sites G = Ok (sel, cov) ->
  forall t, t ∈ cov <->
    (t ∈ universe G /\ exists c, c ∈ candidates G /\ t ∈ adjacency G c).
Proof.
  intros H t. apply select_sites_post in H.
  destruct H as ((Hc & Hsub & Hsel) & _ & _ & Hstop). split.
  - intros Ht. split; [now apply Hsub|].
    rewrite Hc in Ht. unfold covered_by in Ht.
    apply elem_of_union_list in Ht. destruct Ht as (X & HX & HtX).
    apply list_elem_of_In, in_map_iff in HX. destruct HX as (c & <- & Hcs).
    apply list_elem_of_In in Hcs.
    exists c. split; [now apply Hsel|].
    now apply elem_of_intersection in HtX.
  - intros (Hu & c & Hcand & Hadj).
    destruct Hstop as [Hfull|Hnone].
    + assert (Heq : cov = universe G)
        by (now apply set_subseteq_size_eq).
      now rewrite Heq.
    + simpl in Hnone. specialize (Hnone c Hcand).
      destruct (decide (c ∈ sel)) as [Hin|Hnin].
      * rewrite Hc. unfold covered_by. apply elem_of_union_list.
        exists (adjacency G c ∩ universe G). split.
        -- apply list_elem_of_In, in_map_iff. exists c.
           split; [reflexivity|now apply list_elem_of_In].
        -- now apply elem_of_intersection.
      * destruct (decide (t ∈ cov)) as [|Hnc]; [assumption|].
        exfalso. apply Hnone. split; [assumption|].
        assert (Ht : t ∈ new_cover G cov c).
        { unfold new_cover. apply elem_of_difference. split; [|assumption].
          now apply elem_of_intersection. }
        destruct (size (new_cover G cov c)) eqn:Hs; [|lia].
        apply size_empty_inv in Hs. apply Hs in Ht.
        now apply not_elem_of_empty in Ht.
Qed.

Lemma inject_Z_ratio (a b : Z) :
  (0 <= a <= b)%Z -> (0 < b)%Z ->
  0 <= inject_Z a / inject_Z b <= 1 /\
  (inject_Z a / inject_Z b == 1 <-> a = b).
Proof.
  intros [Ha Hab] Hb.
  assert (HbQ : 0 < inject_Z b) by (unfold Qlt; simpl; lia).
  assert (HaQ : 0 <= inject_Z a) by (unfold Qle; simpl; lia).
  assert (HabQ : inject_Z a <= inject_Z b) by (unfold Qle; simpl; lia).
  split; [split|split].
  - apply Qle_shift_div_l; [assumption|]. now rewrite Qmult_0_l.
  - apply Qle_shift_div_r; [assumption|]. now rewrite Qmult_1_l.
  - intros H. apply inject_Z_injective.
    rewrite <- (Qmult_1_l (inject_Z b)), <- H.
    field. intros Hz. rewrite Hz in HbQ. now apply Qlt_irrefl in HbQ.
  - intros ->. field. intros Hz. rewrite Hz in HbQ. now apply Qlt_irrefl in HbQ.
Qed.

(** X12.  The coverage fraction returned by [optimize_sites] lies between
    0 and 1, and when there are targets it is 1 exactly when every target
    is adjacent to some candidate. *)
Theorem coverage_fraction_range (ds : list D) (frac : Q) :
  optimize_sites G = Ok (ds, frac) ->
  0 <= frac <= 1 /\
  (universe G <> ∅ ->
   (frac == 1 <->
    forall t, t ∈ universe G ->
      exists c, c ∈ candidates G /\ t ∈ adjacency G c)).
Proof.
  unfold optimize_sites.
  destruct (select_sites G) as [[sel cov]| |] eqn:Hs; try discriminate.
  destruct (mapM _ sel); [|discriminate]. intros [= _ <-].
  pose proof (coverage_is_maximal sel cov Hs) as Hmax.
  apply select_sites_post in Hs.
  destruct Hs as ((Hc & Hsub & Hsel) & _ & _ & _).
  pose proof (subseteq_size _ _ Hsub) as Hsz.
  unfold coverage_fraction.
  destruct (Nat.eqb_spec (size (universe G)) 0) as [Hz|Hnz].
  - split; [split; discriminate|].
    intros Hne. apply size_empty_inv in Hz. apply leibniz_equiv in Hz.
    contradiction.
  - destruct (inject_Z_ratio (Z.of_nat (size cov)) (Z.of_nat (size (universe G))))
      as [Hr Heq]; [lia|lia|].
    split; [exact Hr|]. intros _. rewrite Heq. split.
    + intros Hsize t Ht.
      assert (Hcu : cov = universe G)
        by (apply set_subseteq_size_eq; [assumption|lia]).
      rewrite <- Hcu in Ht. apply Hmax in Ht. tauto.
    + intros Hall. f_equal.
      assert (Hcu : cov = universe G).
      { apply set_eq. intros t. split; [apply Hsub|].
        intros Ht. apply Hmax. split; [assumption|now apply Hall]. }
      now rewrite Hcu.
Qed.

(** X13.  A graph with a single candidate node that is adjacent to every
    target (and there is at least one target): the selection is that one
    candidate and everything is covered. *)
Theorem single_candidate_covers_all (c : string) :
  weights_present G = true ->
  candidates G = [c] ->
  universe G <> ∅ ->
  universe G ⊆ adjacency G c ->
  select_sites G = Ok ([c], universe G) /\
  coverage_fraction G (universe G) == 1.
Proof.
  intros Hw Hcand Hne Hadj.
  pose proof (select_sites_spec G) as Hspec.
  destruct (select_sites G) as [[sel cov]| |] eqn:Hs;
    [|congruence|contradiction].
  pose proof (coverage_is_maximal sel cov Hs) as Hmax.
  destruct (selection_distinct_and_bounded sel cov Hs)
    as (Hnd & Hsel & Hc & Hlen & _).
  assert (Hcu : cov = universe G).
  { apply set_eq. intros t. split; [intros Ht; now apply Hmax in Ht|].
    intros Ht. apply Hmax. split; [assumption|].
    exists c. split; [rewrite Hcand; left|now apply Hadj]. }
  assert (Hsc : sel = [c]).
  { destruct sel as [|x [|y sel]].
    - exfalso. apply Hne. rewrite <- Hcu, Hc. reflexivity.
    - f_equal. specialize (Hsel x ltac:(left)). rewrite Hcand in Hsel.
      now apply list_elem_of_singleton in Hsel.
    - exfalso.
      assert (Hx : x = c).
      { specialize (Hsel x ltac:(left)). rewrite Hcand in Hsel.
        now apply list_elem_of_singleton in Hsel. }
      assert (Hy : y = c).
      { specialize (Hsel y ltac:(right; left)). rewrite Hcand in Hsel.
        now apply list_elem_of_singleton in Hsel. }
      subst x y. apply NoDup_cons in Hnd. destruct Hnd as [Hn _].
      apply Hn. left. }
  split; [now rewrite Hsc, Hcu|].
  unfold coverage_fraction.
  destruct (Nat.eqb_spec (size (universe G)) 0) as [Hz|Hnz].
  - apply size_empty_inv in Hz. apply leibniz_equiv in Hz. contradiction.
  - apply inject_Z_ratio; lia.
Qed.

End GreedyMore.

Lemma selection_distinct_and_bounded_witness :
  NoDup ["cand_0"] /\
  (forall c, c ∈ ["cand_0"] -> c ∈ candidates demo_graph) /\
  covered_by demo_graph ["cand_0"] = covered_by demo_graph ["cand_0"] /\
  (length ["cand_0"] <= size (covered_by demo_graph ["cand_0"]))%nat /\
  (size (covered_by demo_graph ["cand_0"]) <= size (universe demo_graph))%nat.
Proof.
  apply (selection_distinct_and_bounded demo_graph).
  vm_compute. reflexivity.
Defined.

Lemma coverage_is_maximal_witness :
  "t2" ∈ covered_by demo_graph ["cand_0"] <->
    ("t2" ∈ universe demo_graph /\
     exists c, c ∈ candidates demo_graph /\ "t2" ∈ adjacency demo_graph c).
Proof.
  apply (coverage_is_maximal demo_graph ["cand_0"]).
  vm_compute. reflexivity.
Defined.

Lemma coverage_fraction_range_witness :
  0 <= 4 # 4 <= 1 /\
  (universe demo_graph <> ∅ ->
   (4 # 4 == 1 <->
    forall t, t ∈ universe demo_graph ->
      exists c, c ∈ candidates demo_graph /\ t ∈ adjacency demo_graph c)).
Proof.
  apply (coverage_fraction_range demo_graph [tt]).
  vm_compute. reflexivity.
Defined.

(** One candidate adjacent to both targets. *)
Lemma single_candidate_covers_all_witness :
  select_sites
    (mkGraph [("cand_0", attr candidate (Some 1));
              ("t0", attr target None); ("t1", attr target None)]
       (fun n => if String.eqb n "cand_0" then {[ "t0"; "t1" ]} else ∅))
  = Ok (["cand_0"],
        universe
          (mkGraph [("cand_0", attr candidate (Some 1));
                    ("t0", attr target None); ("t1", attr target None)]
             (fun n => if String.eqb n "cand_0" then {[ "t0"; "t1" ]} else ∅))) /\
  coverage_fraction
    (mkGraph [("cand_0", attr candidate (Some 1));
              ("t0", attr target None); ("t1", attr target None)]
       (fun n => if String.eqb n "cand_0" then {[ "t0"; "t1" ]} else ∅))
    (universe
       (mkGraph [("cand_0", attr candidate (Some 1));
                 ("t0", attr target None); ("t1", attr target None)]
          (fun n => if String.eqb n "cand_0" then {[ "t0"; "t1" ]} else ∅)))
  == 1.
Proof.
  apply single_candidate_covers_all.
  - reflexivity.
  - reflexivity.
  - intros H. apply (f_equal size) in H. vm_compute in H. discriminate.
  - intros t Ht. vm_compute in Ht |- *. exact Ht.
Defined.

End PlannerMore.

(* ================================================================== *)
(** * Properties of the Terrain-RGB encoding *)
(* ================================================================== *)

Module TerrainRGBProofs.
Import Tiles Sieve TileFetch TerrainRGB.

Local Open Scope Q_scope.

Lemma clip_bounds (x lo hi : Q) : lo <= hi -> lo <= clip x lo hi <= hi.
Proof.
  intros H. unfold clip. split.
  - apply Q.min_glb; [apply Q.le_max_r|assumption].
  - apply Q.le_min_r.
Qed.

Lemma clip_inside (x lo hi : Q) : lo <= x <= hi -> clip x lo hi == x.
Proof.
  intros [H1 H2]. unfold clip.
  rewrite (Q.max_l x lo) by assumption. now apply Q.min_l.
Qed.

Lemma clip_below (x lo hi : Q) : lo <= hi -> x <= lo -> clip x lo hi == lo.
Proof.
  intros H1 H2. unfold clip.
  rewrite (Q.max_r x lo) by assumption. now apply Q.min_l.
Qed.

Lemma clip_above (x lo hi : Q) : lo <= hi -> hi <= x -> clip x lo hi == hi.
Proof.
  intros H1 H2. unfold clip. apply Q.min_r.
  apply Qle_trans with x; [assumption|apply Q.le_max_l].
Qed.

Lemma pixel_value_range (h : Q) : (0 <= pixel_value h <= 16777215)%Z.
Proof.
  unfold pixel_value.
  destruct (clip_bounds ((h + 10000) * 10) 0 16777215) as [H1 H2];
    [discriminate|].
  split.
  - change 0%Z with (Qfloor 0). now apply Qfloor_resp_le.
  - change 16777215%Z with (Qfloor 16777215). now apply Qfloor_resp_le.
Qed.

(** Shifting and masking split a 24-bit value into its three bytes. *)
Lemma split_bytes (v : Z) :
  (0 <= v <= 16777215)%Z ->
  let r := Z.land (Z.shiftr v 16) 255 in
  let g := Z.land (Z.shiftr v 8) 255 in
  let b := Z.land v 255 in
  (0 <= r <= 255 /\ 0 <= g <= 255 /\ 0 <= b <= 255 /\
   r * 256 * 256 + g * 256 + b = v)%Z.
Proof.
  intros Hv r g b. subst r g b.
  change 255%Z with (Z.ones 8).
  rewrite !Z.land_ones by lia. change (Z.ones 8) with 255%Z.
  rewrite !Z.shiftr_div_pow2 by lia.
  change (2 ^ 16)%Z with 65536%Z. change (2 ^ 8)%Z with 256%Z.
  pose proof (Z.mod_pos_bound (v / 65536) 256 ltac:(lia)).
  pose proof (Z.mod_pos_bound (v / 256) 256 ltac:(lia)).
  pose proof (Z.mod_pos_bound v 256 ltac:(lia)).
  repeat (split; [lia|]).
  pose proof (Z.div_mod v 256 ltac:(lia)).
  pose proof (Z.div_mod (v / 256) 256 ltac:(lia)).
  assert (H65 : (v / 65536 = v / 256 / 256)%Z)
    by (rewrite Z.div_div by lia; reflexivity).
  assert (Hs : (0 <= v / 65536 < 256)%Z).
  { split; [apply Z.div_pos; lia|apply Z.div_lt_upper_bound; lia]. }
  rewrite (Z.mod_small (v / 65536) 256) by lia.
  rewrite H65 in *.
  generalize dependent (v / 256 / 256)%Z. intros q2.
  generalize dependent ((v / 256) mod 256)%Z. intros m1.
  generalize dependent (v / 256)%Z. intros q1.
  generalize dependent (v mod 256)%Z. intros m0.
  intros. lia.
Qed.

Lemma encode_scaled_value (x : Q) :
  let '(r, g, b) := encode_scaled x in
  (0 <= r <= 255 /\ 0 <= g <= 255 /\ 0 <= b <= 255 /\
   r * 256 * 256 + g * 256 + b = Qfloor (clip x 0 16777215))%Z.
Proof.
  unfold encode_scaled. cbv zeta.
  apply (split_bytes (Qfloor (clip x 0 16777215))).
  destruct (clip_bounds x 0 16777215) as [H1 H2]; [discriminate|].
  split.
  - change 0%Z with (Qfloor 0). now apply Qfloor_resp_le.
  - change 16777215%Z with (Qfloor 16777215). now apply Qfloor_resp_le.
Qed.

Lemma encode_height_value (h : Q) :
  let '(r, g, b) := encode_height h in
  (0 <= r <= 255 /\ 0 <= g <= 255 /\ 0 <= b <= 255 /\
   r * 256 * 256 + g * 256 + b = pixel_value h)%Z.
Proof. exact (encode_scaled_value ((h + 10000) * 10)). Qed.

(** X14.  The round trip under rounding.  Let [h] be a height that the 24
    bits can represent, and let the computed [h_scaled] differ from the
    exact [(h + 10000) * 10] by at most [eps].  Then the pixel made from
    [h_scaled] decodes, by the documented rule, to a height [d] with
    [h - 0.1 - eps / 10 < d <= h + eps / 10].  In exact arithmetic, where
    [eps] is 0, [d] is [h] rounded down to a multiple of 0.1 m. *)
Theorem terrain_rgb_round_trip (h h_scaled eps : Q) :
  -10000 <= h -> h <= 16677215 # 10 ->
  (h + 10000) * 10 - eps <= h_scaled -> h_scaled <= (h + 10000) * 10 + eps ->
  decode_height (encode_scaled h_scaled) <= h + eps * (1 # 10) /\
  h < decode_height (encode_scaled h_scaled) + (1 # 10) + eps * (1 # 10).
Proof.
  intros Hlo Hhi He1 He2.
  pose proof (encode_scaled_value h_scaled) as He.
  destruct (encode_scaled h_scaled) as [[r g] b].
  destruct He as (_ & _ & _ & Hv).
  unfold decode_height. rewrite Hv.
  pose proof (Qfloor_le (clip h_scaled 0 16777215)) as Hfl.
  pose proof (Qlt_floor (clip h_scaled 0 16777215)) as Hfu.
  rewrite inject_Z_plus in Hfu. change (inject_Z 1) with 1 in Hfu.
  assert (Hc : clip h_scaled 0 16777215 == h_scaled
               \/ (h_scaled <= 0 /\ clip h_scaled 0 16777215 == 0)
               \/ (16777215 <= h_scaled
                   /\ clip h_scaled 0 16777215 == 16777215)).
  { destruct (Qlt_le_dec h_scaled 0) as [H0|H0].
    - right. left. split; [lra|]. apply clip_below; [discriminate|lra].
    - destruct (Qlt_le_dec 16777215 h_scaled) as [H1|H1].
      + right. right. split; [lra|]. apply clip_above; [discriminate|lra].
      + left. apply clip_inside. split; assumption. }
  set (cl := clip h_scaled 0 16777215) in *.
  set (v := inject_Z (Qfloor cl)) in *.
  clearbody v cl. clear Hv.
  destruct Hc as [Hc|[[H0 Hc]|[H1 Hc]]]; split; lra.
Qed.

Lemma terrain_rgb_round_trip_witness :
  let h := 5404319552844595 # 18014398509481984 in
  decode_height (encode_scaled 100003) <= h + (1 # 1000000000) * (1 # 10) /\
  h < decode_height (encode_scaled 100003) + (1 # 10)
      + (1 # 1000000000) * (1 # 10).
Proof.
  intros h.
  apply (terrain_rgb_round_trip h 100003 (1 # 1000000000));
    unfold h, Qle; simpl; lia.
Defined.

(** X15.  Every channel of every pixel is a byte, whatever the height;
    heights at or below -10000 m encode as black and heights at or above
    1667721.5 m as white. *)
Theorem terrain_rgb_saturates (h : Q) :
  (let '(r, g, b) := encode_height h in
   (0 <= r <= 255 /\ 0 <= g <= 255 /\ 0 <= b <= 255)%Z) /\
  (h <= -10000 -> encode_height h = (0, 0, 0)%Z) /\
  (16677215 # 10 <= h -> encode_height h = (255, 255, 255)%Z).
Proof.
  split; [|split].
  - pose proof (encode_height_value h) as He.
    destruct (encode_height h) as [[r g] b]. tauto.
  - intros Hh. unfold encode_height, encode_scaled. cbv zeta.
    fold (pixel_value h).
    assert (Hv : pixel_value h = 0%Z).
    { unfold pixel_value.
      rewrite (clip_below ((h + 10000) * 10) 0 16777215);
        [reflexivity|discriminate|lra]. }
    now rewrite Hv.
  - intros Hh. unfold encode_height, encode_scaled. cbv zeta.
    fold (pixel_value h).
    assert (Hv : pixel_value h = 16777215%Z).
    { unfold pixel_value.
      rewrite (clip_above ((h + 10000) * 10) 0 16777215);
        [reflexivity|discriminate|lra]. }
    now rewrite Hv.
Qed.

Lemma terrain_rgb_saturates_witness :
  (let '(r, g, b) := encode_height (-20000) in
   (0 <= r <= 255 /\ 0 <= g <= 255 /\ 0 <= b <= 255)%Z) /\
  (-20000 <= -10000 -> encode_height (-20000) = (0, 0, 0)%Z) /\
  (16677215 # 10 <= -20000 -> encode_height (-20000) = (255, 255, 255)%Z).
Proof. exact (terrain_rgb_saturates (-20000)). Defined.

(** Heights are encoded monotonically. *)
Lemma pixel_value_monotone (h1 h2 : Q) :
  h1 <= h2 -> (pixel_value h1 <= pixel_value h2)%Z.
Proof.
  intros H. unfold pixel_value. apply Qfloor_resp_le. unfold clip.
  apply Q.min_le_compat_r. apply Q.max_le_compat_r. lra.
Qed.

(** The encoding preserves order: a higher point never decodes to a
    lower height than a lower point. *)
Theorem terrain_rgb_monotone (h1 h2 : Q) :
  h1 <= h2 ->
  decode_height (encode_height h1) <= decode_height (encode_height h2).
Proof.
  intros H.
  pose proof (encode_height_value h1) as H1.
  pose proof (encode_height_value h2) as H2.
  destruct (encode_height h1) as [[r1 g1] b1].
  destruct (encode_height h2) as [[r2 g2] b2].
  destruct H1 as (_ & _ & _ & H1). destruct H2 as (_ & _ & _ & H2).
  unfold decode_height. rewrite H1, H2.
  pose proof (pixel_value_monotone h1 h2 H) as Hm.
  assert (inject_Z (pixel_value h1) <= inject_Z (pixel_value h2))
    by (unfold Qle; simpl; lia).
  lra.
Qed.

Lemma terrain_rgb_monotone_witness :
  decode_height (encode_height 100) <= decode_height (encode_height (2001 # 10)).
Proof.
  apply (terrain_rgb_monotone 100 (2001 # 10)). unfold Qle; simpl; lia.
Defined.

(** X16.  A tile for which no data can be had is served as a uniform image
    of the pixel (1, 134, 160), which decodes to sea level. *)
Theorem missing_tile_is_sea_level (E : env) (zoom : grid -> Q -> grid)
    (c : cache) (z x y : Z) :
  c !! tile_key (mkTile x y z) = None ->
  Tiles._fetch_tile_from_api E (mkTile x y z) = Returns None ->
  get_elevation_tile E zoom c z x y
    = (Returns (repeat (repeat (1, 134, 160)%Z 256) 256), c) /\
  decode_height (1, 134, 160)%Z == 0.
Proof.
  intros Hc Hf. split; [|reflexivity].
  unfold get_elevation_tile, get_interpolated_grid, get_tile_data.
  rewrite Hc, Hf. unfold zeros. cbv beta iota zeta.
  now rewrite !map_repeat.
Qed.

Lemma missing_tile_is_sea_level_witness :
  get_elevation_tile two_tile_env (fun g _ => g) ∅ 12 0 0
    = (Returns (repeat (repeat (1, 134, 160)%Z 256) 256), ∅) /\
  decode_height (1, 134, 160)%Z == 0.
Proof.
  apply (missing_tile_is_sea_level two_tile_env (fun g _ => g) ∅ 12 0 0);
    reflexivity.
Defined.

End TerrainRGBProofs.

(* ================================================================== *)
(** * Properties of the tile fetch *)
(* ================================================================== *)

Module TileFetchProofs.
Import Tiles Sieve TileFetch TilesProofs.

Local Open Scope Q_scope.

Lemma qlinspace_length (a b : Q) (n : nat) : length (linspace a b n) = n.
Proof.
  destruct n as [|[|n]]; [reflexivity|reflexivity|].
  unfold linspace. now rewrite length_map, length_seq.
Qed.

Lemma combine_app_same {A B : Type} (l1 l2 : list A) (k1 k2 : list B) :
  length l1 = length k1 ->
  combine (l1 ++ l2) (k1 ++ k2) = combine l1 k1 ++ combine l2 k2.
Proof.
  revert k1. induction l1 as [|x l1 IH]; intros [|y k1] H;
    simpl in *; try discriminate; [reflexivity|].
  f_equal. apply IH. congruence.
Qed.

Lemma combine_const {A B : Type} (xs : list A) (y : B) :
  combine xs (map (fun _ => y) xs) = map (fun x => (x, y)) xs.
Proof. induction xs; simpl; [reflexivity|now f_equal]. Qed.

(** The sample coordinates, row by row: one row per longitude, the
    latitudes running within the row. *)
Lemma tile_points_rows (b : bounds) :
  tile_points b
  = flat_map (fun lo => map (fun la => (la, lo))
                          (linspace (south b) (north b) 16))
             (linspace (west b) (east b) 16).
Proof.
  unfold tile_points, meshgrid. cbv zeta. cbn [fst snd].
  generalize (linspace (south b) (north b) 16) as xs.
  generalize (linspace (west b) (east b) 16) as ys.
  intros ys xs. induction ys as [|y ys IH]; [reflexivity|].
  cbn [map concat flat_map].
  rewrite combine_app_same by now rewrite length_map.
  now rewrite combine_const, IH.
Qed.

Lemma flat_map_rows_length {A B : Type} (g : A -> list B) (ys : list A)
    (w : nat) :
  (forall y, length (g y) = w) ->
  length (flat_map g ys) = (length ys * w)%nat.
Proof.
  intros H. induction ys as [|y ys IH]; [reflexivity|].
  cbn [flat_map length]. rewrite length_app, H, IH. lia.
Qed.

Lemma flat_map_rows_nth {A B : Type} (g : A -> list B) (ys : list A)
    (w r c : nat) (dy : A) (d : B) :
  (forall y, length (g y) = w) -> (r < length ys)%nat -> (c < w)%nat ->
  nth (r * w + c) (flat_map g ys) d = nth c (g (nth r ys dy)) d.
Proof.
  intros H. revert r. induction ys as [|y ys IH]; intros r Hr Hc;
    [simpl in Hr; lia|].
  cbn [flat_map]. destruct r as [|r].
  - cbn [Nat.mul Nat.add nth]. now rewrite app_nth1 by (rewrite H; lia).
  - rewrite app_nth2 by (rewrite H; lia). rewrite H.
    replace (S r * w + c - w)%nat with (r * w + c)%nat by lia.
    cbn [nth length] in *. apply IH; lia.
Qed.

Lemma tile_points_length (b : bounds) : length (tile_points b) = 256%nat.
Proof.
  rewrite tile_points_rows.
  rewrite (flat_map_rows_length _ _ 16)
    by (intros; now rewrite length_map, qlinspace_length).
  now rewrite qlinspace_length.
Qed.

(** Sample [16 r + c] is taken at latitude [c] and longitude [r]. *)
Lemma tile_points_nth (b : bounds) (r c : nat) :
  (r < 16)%nat -> (c < 16)%nat ->
  nth (r * 16 + c) (tile_points b) (0, 0)
  = (nth c (linspace (south b) (north b) 16) 0,
     nth r (linspace (west b) (east b) 16) 0).
Proof.
  intros Hr Hc. rewrite tile_points_rows.
  rewrite (flat_map_rows_nth _ _ 16 r c 0)
    by (rewrite ?qlinspace_length; try lia;
        intros; now rewrite length_map, qlinspace_length).
  set (lo := nth r (linspace (west b) (east b) 16) 0).
  rewrite (nth_indep _ (0, 0) ((fun la => (la, lo)) 0))
    by (now rewrite length_map, qlinspace_length).
  apply (map_nth (fun la => (la, lo))).
Qed.

Lemma batch_starts_256 : batch_starts 256 = [0; 100; 200]%nat.
Proof. reflexivity. Qed.

(** The three batches hold 100, 100 and 56 points and together make up the
    256 sample coordinates in order. *)
Lemma batches_cover (b : bounds) :
  let pts := tile_points b in
  batch_at pts 0 ++ batch_at pts 100 ++ batch_at pts 200 = pts /\
  length (batch_at pts 0) = 100%nat /\
  length (batch_at pts 100) = 100%nat /\
  length (batch_at pts 200) = 56%nat.
Proof.
  intros pts. pose proof (tile_points_length b) as Hl. fold pts in Hl.
  unfold batch_at, batch_size.
  split; [|split; [|split]].
  - cbn [skipn].
    rewrite (firstn_all2 (n := 100) (skipn 200 pts))
      by (rewrite length_skipn; lia).
    replace (skipn 200 pts) with (skipn 100 (skipn 100 pts))
      by (now rewrite skipn_skipn).
    now rewrite !firstn_skipn.
  - rewrite length_firstn, length_skipn, Hl. reflexivity.
  - rewrite length_firstn, length_skipn, Hl. reflexivity.
  - rewrite length_firstn, length_skipn, Hl. reflexivity.
Qed.

Lemma all_elevations_batches (api : elevation_api) (b : bounds) :
  let pts := tile_points b in
  all_elevations api b
  = batch_elevations (api 0%nat (batch_at pts 0)) 100
    ++ batch_elevations (api 100%nat (batch_at pts 100)) 100
    ++ batch_elevations (api 200%nat (batch_at pts 200)) 56.
Proof.
  intros pts. destruct (batches_cover b) as (_ & H0 & H1 & H2).
  fold pts in H0, H1, H2.
  unfold all_elevations. fold pts.
  replace (length pts) with 256%nat by (symmetry; apply tile_points_length).
  rewrite batch_starts_256. cbn [flat_map].
  now rewrite H0, H1, H2, app_nil_r.
Qed.

Lemma batch_elevations_length (r : response) (batch : list (Q * Q))
    (n : nat) :
  length batch = n -> well_sized r batch = true ->
  length (batch_elevations r n) = n.
Proof.
  intros <-.
  destruct r as [| |[|] [results|]]; cbn [batch_elevations well_sized];
    intros H; rewrite ?repeat_length; try reflexivity.
  rewrite length_map. now apply Nat.eqb_eq.
Qed.

Lemma batch_elevations_numbers (r : response) (n : nat) :
  no_null r = true -> forallb is_number (batch_elevations r n) = true.
Proof.
  assert (Hz : forall k, forallb is_number (repeat (Some 0) k) = true)
    by (induction k; simpl; auto).
  destruct r as [| |[|] [results|]]; cbn [batch_elevations no_null];
    intros H; try apply Hz.
  induction results as [|e results IH]; [reflexivity|].
  cbn [forallb map] in *. apply andb_prop in H. destruct H as [He H].
  rewrite (IH H). now destruct e.
Qed.

Lemma all_elevations_length (api : elevation_api) (b : bounds) :
  (forall i batch, well_sized (api i batch) batch = true) ->
  length (all_elevations api b) = 256%nat.
Proof.
  intros Hs. rewrite all_elevations_batches. cbv zeta.
  destruct (batches_cover b) as (_ & H0 & H1 & H2). cbv zeta in H0, H1, H2.
  rewrite !length_app.
  rewrite (batch_elevations_length _ _ _ H0 (Hs _ _)).
  rewrite (batch_elevations_length _ _ _ H1 (Hs _ _)).
  rewrite (batch_elevations_length _ _ _ H2 (Hs _ _)).
  reflexivity.
Qed.

(** Whatever the API answers, a record the fetch returns holds exactly 256
    samples under its only key. *)
Lemma fetch_record_shape (api : elevation_api) (b : bounds) (d : dict) :
  _fetch_tile_from_api api b = Returns (Some d) ->
  exists raw, d = {[ "elevation" := raw ]} /\ length raw = 256%nat.
Proof.
  unfold _fetch_tile_from_api. cbv zeta.
  destruct (Nat.eqb _ 256) eqn:Hl; [|discriminate].
  destruct (forallb _ _); [|discriminate].
  intros H. injection H as <-. eexists. split; [reflexivity|].
  rewrite length_map. now apply Nat.eqb_eq.
Qed.

Lemma fetch_no_null_returns (api : elevation_api) (b : bounds) :
  (forall i batch, no_null (api i batch) = true) ->
  exists data, _fetch_tile_from_api api b = Returns data.
Proof.
  intros Hn. unfold _fetch_tile_from_api. cbv zeta.
  destruct (Nat.eqb _ 256); [|eexists; reflexivity].
  rewrite all_elevations_batches. cbv zeta.
  rewrite !forallb_app, !batch_elevations_numbers by apply Hn.
  eexists; reflexivity.
Qed.

(** ** An API that answers every point *)

Lemma fetch_terrain (f : Q -> Q -> Q) (b : bounds) :
  _fetch_tile_from_api (terrain_api f) b
  = Returns (Some {[ "elevation" :=
                        map (fun p => f (fst p) (snd p)) (tile_points b) ]}).
Proof.
  assert (Hall : all_elevations (terrain_api f) b
                 = map (fun p => Some (f (fst p) (snd p))) (tile_points b)).
  { rewrite all_elevations_batches. cbv zeta.
    destruct (batches_cover b) as (Hc & _). cbv zeta in Hc.
    rewrite <- Hc at 4. rewrite !map_app.
    unfold terrain_api, batch_elevations. now rewrite !map_map. }
  unfold _fetch_tile_from_api. cbv zeta. rewrite Hall.
  rewrite length_map, tile_points_length. cbn [Nat.eqb].
  assert (Hn : forall l : list (Q * Q),
             forallb is_number (map (fun p => Some (f (fst p) (snd p))) l)
             = true) by (induction l; simpl; auto).
  rewrite Hn, map_map. reflexivity.
Qed.

(** When the API answers every point, the fetched record holds, at
    flat position [16 r + c], the API's elevation at latitude number [c] and
    longitude number [r] of the 16 x 16 grid laid over the tile's bounds. *)
Theorem fetch_sample_layout (f : Q -> Q -> Q) (b : bounds) (r c : nat) :
  (r < 16)%nat -> (c < 16)%nat ->
  exists raw,
    _fetch_tile_from_api (terrain_api f) b
      = Returns (Some {[ "elevation" := raw ]}) /\
    length raw = 256%nat /\
    raw !! (r * 16 + c)%nat
      = Some (f (nth c (linspace (south b) (north b) 16) 0)
                (nth r (linspace (west b) (east b) 16) 0)).
Proof.
  intros Hr Hc. eexists. split; [apply fetch_terrain|].
  split; [now rewrite length_map, tile_points_length|].
  rewrite list_lookup_fmap.
  destruct (lookup_lt_is_Some_2 (tile_points b) (r * 16 + c)) as [p Hp];
    [rewrite tile_points_length; lia|].
  rewrite Hp. cbn [fmap option_fmap option_map].
  pose proof (nth_lookup_Some _ _ (0, 0) _ Hp) as Hn.
  rewrite tile_points_nth in Hn by assumption. now subst p.
Qed.


(** ** Reading a fetched tile back *)

Lemma truthy_elevation_record (raw : list Q) :
  truthy (Some ({[ "elevation" := raw ]} : dict)) = true.
Proof. unfold truthy. now rewrite map_size_singleton. Qed.

Lemma has_key_elevation_record (raw : list Q) :
  has_key "elevation" ({[ "elevation" := raw ]} : dict) = true.
Proof. unfold has_key. now rewrite lookup_singleton_eq. Qed.

Lemma get_tile_data_terrain (tile_of : Q -> Q -> option tile)
    (bounds_of : tile -> bounds) (f : Q -> Q -> Q) (c : cache) (t : tile) :
  c !! tile_key t = None ->
  let rec : dict :=
    {[ "elevation" := map (fun p => f (fst p) (snd p))
                          (tile_points (bounds_of t)) ]} in
  get_tile_data (env_over tile_of bounds_of (terrain_api f)) c t
  = (Returns (Some rec), <[tile_key t := rec]> c).
Proof.
  intros Hc rec. unfold get_tile_data. rewrite Hc.
  cbn [Tiles._fetch_tile_from_api env_over]. rewrite fetch_terrain.
  fold rec. unfold rec at 1. now rewrite truthy_elevation_record.
Qed.

(** ** A failing API *)

Lemma batch_elevations_nothing (r : response) (n : nat) :
  answers_nothing r = true -> batch_elevations r n = repeat (Some 0) n.
Proof. destruct r as [| |[|] [results|]]; try reflexivity; discriminate. Qed.

(** X18.  When every request of a fetch fails (exception, HTTP error,
    status not OK or no results), the fetch still returns a record, of 256
    zeros; [get_tile_data] caches it, and from then on the tile is served
    from the cache as flat sea-level terrain whatever the API would say. *)
Theorem failed_fetch_is_cached_as_zeros (tile_of : Q -> Q -> option tile)
    (bounds_of : tile -> bounds) (api : elevation_api) (c : cache) (t : tile) :
  (forall i batch, answers_nothing (api i batch) = true) ->
  c !! tile_key t = None ->
  let zero_tile : dict := {[ "elevation" := repeat 0 256 ]} in
  _fetch_tile_from_api api (bounds_of t) = Returns (Some zero_tile) /\
  get_tile_data (env_over tile_of bounds_of api) c t
    = (Returns (Some zero_tile), <[tile_key t := zero_tile]> c) /\
  forall api',
    get_tile_data (env_over tile_of bounds_of api')
      (<[tile_key t := zero_tile]> c) t
    = (Returns (Some zero_tile), <[tile_key t := zero_tile]> c).
Proof.
  intros Hf Hc zero_tile.
  assert (Hfetch : _fetch_tile_from_api api (bounds_of t)
                   = Returns (Some zero_tile)).
  { unfold _fetch_tile_from_api. cbv zeta.
    rewrite all_elevations_batches. cbv zeta.
    rewrite !batch_elevations_nothing by apply Hf.
    reflexivity. }
  split; [exact Hfetch|]. split.
  - unfold get_tile_data. rewrite Hc.
    cbn [Tiles._fetch_tile_from_api env_over]. rewrite Hfetch.
    unfold zero_tile at 1. now rewrite truthy_elevation_record.
  - intros api'. unfold get_tile_data. now rewrite lookup_insert_eq.
Qed.

Lemma failed_fetch_is_cached_as_zeros_witness :
  let zero_tile : dict := {[ "elevation" := repeat 0 256 ]} in
  _fetch_tile_from_api failing_api (mkBounds 0 0 1 1)
    = Returns (Some zero_tile) /\
  get_tile_data
    (env_over (fun _ _ => Some (mkTile 0 0 12)) (fun _ => mkBounds 0 0 1 1)
              failing_api) ∅ (mkTile 0 0 12)
    = (Returns (Some zero_tile), <[tile_key (mkTile 0 0 12) := zero_tile]> ∅) /\
  forall api',
    get_tile_data
      (env_over (fun _ _ => Some (mkTile 0 0 12)) (fun _ => mkBounds 0 0 1 1)
                api')
      (<[tile_key (mkTile 0 0 12) := zero_tile]> ∅) (mkTile 0 0 12)
    = (Returns (Some zero_tile), <[tile_key (mkTile 0 0 12) := zero_tile]> ∅).
Proof.
  apply (failed_fetch_is_cached_as_zeros (fun _ _ => Some (mkTile 0 0 12))
           (fun _ => mkBounds 0 0 1 1) failing_api ∅ (mkTile 0 0 12));
    reflexivity.
Defined.

(** ** A [null] elevation *)

(** X19.  When the API answers every batch with as many results as points
    and one of the results has a [null] elevation, the fetch does not
    return: the [min] of its log line raises [TypeError]. *)
Theorem null_elevation_raises (api : elevation_api) (b : bounds) (i : nat)
    (results : list api_elevation) :
  (forall j batch, well_sized (api j batch) batch = true) ->
  In i (batch_starts 256) ->
  api i (batch_at (tile_points b) i) = Body true (Some results) ->
  In Null results ->
  _fetch_tile_from_api api b = Raises TypeError.
Proof.
  intros Hs Hi Hapi Hnull.
  unfold _fetch_tile_from_api. cbv zeta.
  rewrite (all_elevations_length api b Hs). cbn [Nat.eqb].
  assert (Hin : In None (all_elevations api b)).
  { assert (Hb : forall n, In None (batch_elevations
                               (api i (batch_at (tile_points b) i)) n)).
    { intros n. rewrite Hapi. cbn [batch_elevations].
      apply in_map_iff. exists Null. split; [reflexivity|assumption]. }
    rewrite all_elevations_batches. cbv zeta. rewrite !in_app_iff.
    rewrite batch_starts_256 in Hi.
    destruct Hi as [<-|[<-|[<-|[]]]]; auto. }
  destruct (forallb is_number (all_elevations api b)) eqn:Hall;
    [|reflexivity].
  rewrite forallb_forall in Hall. specialize (Hall None Hin). discriminate.
Qed.

Lemma null_elevation_raises_witness :
  _fetch_tile_from_api null_api (mkBounds 0 0 1 1) = Raises TypeError.
Proof.
  apply (null_elevation_raises null_api (mkBounds 0 0 1 1) 0
           (map (fun _ => Null) (batch_at (tile_points (mkBounds 0 0 1 1)) 0))).
  - intros j batch. unfold null_api, well_sized.
    rewrite length_map. apply Nat.eqb_refl.
  - left. reflexivity.
  - reflexivity.
  - left. reflexivity.
Defined.

(** ** The cache the tile manager builds for itself *)

Lemma get_tile_data_well_formed (tile_of : Q -> Q -> option tile)
    (bounds_of : tile -> bounds) (api : elevation_api) (c c' : cache)
    (t : tile) (data : raising (option dict)) :
  well_formed c ->
  get_tile_data (env_over tile_of bounds_of api) c t = (data, c') ->
  well_formed c' /\
  (forall d, data = Returns (Some d) ->
     exists raw, d !! "elevation" = Some raw /\ length raw = 256%nat).
Proof.
  intros Hwf. unfold get_tile_data.
  destruct (c !! tile_key t) as [d0|] eqn:Hc.
  - intros H. injection H as <- <-. split; [assumption|].
    intros d Hd. injection Hd as <-. now apply (Hwf (tile_key t)).
  - cbn [Tiles._fetch_tile_from_api env_over].
    destruct (_fetch_tile_from_api api (bounds_of t)) as [[d0|]|e] eqn:Hf.
    + destruct (fetch_record_shape _ _ _ Hf) as (raw & -> & Hl).
      rewrite truthy_elevation_record.
      intros H. injection H as <- <-. split.
      * intros k d Hk. apply lookup_insert_Some in Hk.
        destruct Hk as [[_ <-]|[_ Hk]]; [|now apply (Hwf k)].
        exists raw. split; [apply lookup_singleton_eq|assumption].
      * intros d Hd. injection Hd as <-.
        exists raw. split; [apply lookup_singleton_eq|assumption].
    + intros H. injection H as <- <-. split; [assumption|discriminate].
    + intros H. injection H as <- <-. split; [assumption|discriminate].
Qed.

Lemma get_tile_data_returns (tile_of : Q -> Q -> option tile)
    (bounds_of : tile -> bounds) (api : elevation_api) (c : cache)
    (t : tile) :
  (forall i batch, no_null (api i batch) = true) ->
  exists data, fst (get_tile_data (env_over tile_of bounds_of api) c t)
               = Returns data.
Proof.
  intros Hn. unfold get_tile_data.
  destruct (c !! tile_key t) as [d0|]; [eexists; reflexivity|].
  cbn [Tiles._fetch_tile_from_api env_over].
  destruct (fetch_no_null_returns api (bounds_of t) Hn) as [data ->].
  destruct data as [d|]; [|eexists; reflexivity].
  destruct (truthy (Some d)); eexists; reflexivity.
Qed.

Lemma get_tile_data_at_well_formed (tile_of : Q -> Q -> option tile)
    (bounds_of : tile -> bounds) (api : elevation_api) (c : cache)
    (lat lon : Q) :
  (forall i batch, no_null (api i batch) = true) ->
  well_formed c ->
  (exists t, tile_of lon lat = Some t) ->
  exists data c',
    get_tile_data_at (env_over tile_of bounds_of api) c lat lon
      = (Returns data, c') /\
    well_formed c' /\
    (forall d, data = Some d ->
       exists raw, d !! "elevation" = Some raw /\ length raw = 256%nat).
Proof.
  intros Hn Hwf [t Ht]. unfold get_tile_data_at.
  cbn [mercantile_tile env_over]. rewrite Ht.
  destruct (get_tile_data_returns tile_of bounds_of api c t Hn) as [data Hd].
  destruct (get_tile_data (env_over tile_of bounds_of api) c t)
    as [r c'] eqn:Hg.
  cbn [fst] in Hd. subst r.
  destruct (get_tile_data_well_formed _ _ _ _ _ _ _ Hwf Hg) as [Hwf' Hraw].
  exists data, c'. split; [reflexivity|]. split; [assumption|].
  intros d ->. now apply Hraw.
Qed.

Lemma scan_tile_well_formed (tile_of : Q -> Q -> option tile)
    (bounds_of : tile -> bounds) (api : elevation_api)
    (min_lat min_lon max_lat max_lon : Q) (c : cache) (t : tile) :
  let E := env_over tile_of bounds_of api in
  (forall i batch, no_null (api i batch) = true) ->
  well_formed c ->
  (exists t', tile_of (tile_lon_center E t) (tile_lat_center E t) = Some t') ->
  exists sites c',
    scan_tile E min_lat min_lon max_lat max_lon c t = Scanned (sites, c') /\
    well_formed c'.
Proof.
  intros E Hn Hwf Ht. unfold scan_tile.
  destruct (get_tile_data_at_well_formed tile_of bounds_of api c
              (tile_lat_center E t) (tile_lon_center E t) Hn Hwf Ht)
    as (d1 & c1 & H1 & Hwf1 & _).
  fold E in H1. rewrite H1. cbv zeta.
  destruct (get_tile_data_at_well_formed tile_of bounds_of api c1
              (tile_lat_center E t) (tile_lon_center E t) Hn Hwf1 Ht)
    as (d2 & c2 & H2 & Hwf2 & Hd2).
  fold E in H2. unfold tile_lat_center, tile_lon_center in H2. rewrite H2.
  destruct d2 as [d|]; [|eexists _, _; split; [reflexivity|assumption]].
  destruct (negb (truthy (Some d)) || negb (has_key "elevation" d));
    [eexists _, _; split; [reflexivity|assumption]|].
  destruct (Hd2 d eq_refl) as (raw & Hraw & Hl).
  rewrite Hraw. cbn [default from_option Datatypes.id]. unfold reshape16.
  rewrite Hl. cbn [Nat.eqb Nat.mul Nat.add grid_size].
  eexists _, _; split; [reflexivity|assumption].
Qed.

Lemma scan_tiles_well_formed (tile_of : Q -> Q -> option tile)
    (bounds_of : tile -> bounds) (api : elevation_api)
    (min_lat min_lon max_lat max_lon : Q) (tiles : list tile) :
  let E := env_over tile_of bounds_of api in
  (forall i batch, no_null (api i batch) = true) ->
  (forall t, In t tiles ->
     exists t', tile_of (tile_lon_center E t) (tile_lat_center E t)
                = Some t') ->
  forall (c : cache) (acc : list site),
  well_formed c ->
  exists all,
    scan_tiles E min_lat min_lon max_lat max_lon c tiles acc = Scanned all.
Proof.
  intros E Hn. induction tiles as [|t tiles IH]; intros Ht c acc Hwf.
  - eexists; reflexivity.
  - cbn [scan_tiles].
    destruct (scan_tile_well_formed tile_of bounds_of api
                min_lat min_lon max_lat max_lon c t Hn Hwf)
      as (sites & c' & Hs & Hwf').
    { apply Ht. now left. }
    fold E in Hs. rewrite Hs. cbn [fst snd]. apply IH; [|assumption].
    intros t' Hin. apply Ht. now right.
Qed.

(** X20.  With an API that never answers [null], every fetch returns, every
    record the tile manager caches holds 256 samples, and the sieve run
    over a cache filled only that way ends in success, [mercantile.tile]
    giving a tile at the centre of each tile of the list: its reshape to
    16 x 16 cannot fail. *)
Theorem sieve_succeeds_on_own_cache (tile_of : Q -> Q -> option tile)
    (bounds_of : tile -> bounds) (api : elevation_api)
    (tiles : list tile) (c : cache)
    (min_lat min_lon max_lat max_lon freq_mhz height_m : Q) :
  let E := env_over tile_of bounds_of api in
  (forall i batch, no_null (api i batch) = true) ->
  well_formed c -> tiles <> [] ->
  (forall t, In t tiles ->
     exists t', tile_of (tile_lon_center E t) (tile_lat_center E t)
                = Some t') ->
  (forall t, exists data,
     _fetch_tile_from_api api (bounds_of t) = Returns data) /\
  (forall t data c',
     get_tile_data E c t = (data, c') -> well_formed c') /\
  exists locations,
    optimize_location_task E tiles c
      min_lat min_lon max_lat max_lon freq_mhz height_m = Success locations.
Proof.
  intros E Hn Hwf Ht Htiles. split; [|split].
  - intros t. now apply fetch_no_null_returns.
  - intros t data c' Hg.
    now destruct (get_tile_data_well_formed _ _ _ _ _ _ _ Hwf Hg).
  - unfold optimize_location_task.
    destruct tiles as [|t tiles]; [contradiction|].
    destruct (scan_tiles_well_formed tile_of bounds_of api
                min_lat min_lon max_lat max_lon (t :: tiles) Hn Htiles
                c [] Hwf)
      as [all Hall].
    fold E in Hall. rewrite Hall. eexists; reflexivity.
Qed.

Lemma sieve_succeeds_on_own_cache_witness :
  (forall t : tile, exists data,
     _fetch_tile_from_api failing_api (mkBounds 0 0 1 1) = Returns data) /\
  (forall t data c',
     get_tile_data
       (env_over (fun _ _ => Some (mkTile 0 0 12))
                 (fun _ => mkBounds 0 0 1 1) failing_api) ∅ t = (data, c') ->
     well_formed c') /\
  exists locations,
    optimize_location_task
      (env_over (fun _ _ => Some (mkTile 0 0 12))
                (fun _ => mkBounds 0 0 1 1) failing_api)
      [mkTile 0 0 12] ∅ 0 0 1 1 915 10 = Success locations.
Proof.
  apply (sieve_succeeds_on_own_cache (fun _ _ => Some (mkTile 0 0 12))
           (fun _ => mkBounds 0 0 1 1) failing_api [mkTile 0 0 12] ∅
           0 0 1 1 915 10).
  - reflexivity.
  - intros k d Hk. rewrite lookup_empty in Hk. discriminate.
  - discriminate.
  - intros t _. eexists; reflexivity.
Defined.

End TileFetchProofs.

(* ================================================================== *)
(** * Further properties of the tile manager *)
(* ================================================================== *)

Module TilesMore.
Import Tiles.

Local Open Scope Q_scope.

(** X22.  What [get_tile_data] does to the cache: other tiles' entries are
    untouched; a non-empty result is in the cache afterwards, so a repeated
    call returns it again without consulting the API and without changing
    the cache; a missing or empty result leaves the cache as it was, so the
    next call asks the API again; and so does an exception of the fetch. *)
Theorem get_tile_data_caching (E : env) (c c' : cache) (t : tile)
    (r : raising (option dict)) :
  get_tile_data E c t = (r, c') ->
  (forall k, k <> tile_key t -> c' !! k = c !! k) /\
  match r with
  | Returns data =>
      (truthy data = true ->
       c' !! tile_key t = data /\
       forall E', get_tile_data E' c' t = (Returns data, c')) /\
      (truthy data = false -> c' = c)
  | Raises _ => c' = c
  end.
Proof.
  unfold get_tile_data.
  destruct (c !! tile_key t) as [d|] eqn:Hc.
  - intros H. injection H as <- <-.
    split; [reflexivity|]. split; [|reflexivity].
    intros _. split; [assumption|]. intros E'. now rewrite Hc.
  - destruct (_fetch_tile_from_api E t) as [[d|]|e] eqn:Hf.
    + destruct (truthy (Some d)) eqn:Ht; intros H; injection H as <- <-.
      * split; [intros k Hk; now apply lookup_insert_ne|].
        split; [|rewrite Ht; discriminate].
        intros _. split; [apply lookup_insert_eq|].
        intros E'. now rewrite lookup_insert_eq.
      * split; [reflexivity|]. split; [rewrite Ht; discriminate|reflexivity].
    + intros H. injection H as <- <-.
      split; [reflexivity|]. split; [discriminate|reflexivity].
    + intros H. injection H as <- <-. split; reflexivity.
Qed.

Lemma get_tile_data_caching_witness :
  let rec : dict :=
    {[ "elevation" := map (fun k => inject_Z (Z.of_nat k)) (seq 0 256) ]} in
  (forall k, k <> tile_key (mkTile 0 0 12) ->
     (<[tile_key (mkTile 0 0 12) := rec]> (∅ : cache)) !! k
     = (∅ : cache) !! k) /\
  (truthy (Some rec) = true ->
   (<[tile_key (mkTile 0 0 12) := rec]> (∅ : cache)) !! tile_key (mkTile 0 0 12)
     = Some rec /\
   forall E', get_tile_data E' (<[tile_key (mkTile 0 0 12) := rec]> ∅)
                (mkTile 0 0 12)
              = (Returns (Some rec), <[tile_key (mkTile 0 0 12) := rec]> ∅)) /\
  (truthy (Some rec) = false ->
   <[tile_key (mkTile 0 0 12) := rec]> (∅ : cache) = ∅).
Proof.
  apply (get_tile_data_caching ramp_env ∅ _ (mkTile 0 0 12)
           (Returns (Some _))).
  reflexivity.
Defined.

End TilesMore.

(* ================================================================== *)
(** * Further properties of the sieve *)
(* ================================================================== *)

Module SieveMore.
Import Tiles Sieve TileFetch SieveProofs TileFetchProofs.

Local Open Scope Q_scope.

(** ** The maximum filter *)

Lemma fold_max_spec (m : Q) (l : list Q) :
  m <= fold_right Qmax m l /\
  (forall x, In x l -> x <= fold_right Qmax m l) /\
  (forall b, m <= b -> (forall x, In x l -> x <= b) ->
             fold_right Qmax m l <= b).
Proof.
  induction l as [|y l (IH1 & IH2 & IH3)]; cbn [fold_right].
  - split; [apply Qle_refl|]. split; [intros x []|]. intros b Hb _. exact Hb.
  - split; [|split].
    + eapply Qle_trans; [exact IH1|apply Q.le_max_r].
    + intros x [<-|Hx]; [apply Q.le_max_l|].
      eapply Qle_trans; [apply IH2, Hx|apply Q.le_max_r].
    + intros b Hb Hl. apply Q.max_lub.
      * apply Hl. now left.
      * apply IH3; [assumption|]. intros x Hx. apply Hl. now right.
Qed.

Lemma peaks_mask_window (g : grid) (r c : nat) :
  peaks_mask g r c = true <->
  forall x, In x (window g r c) -> x <= cell g r c.
Proof.
  unfold peaks_mask, local_max.
  destruct (fold_max_spec (cell g r c) (window g r c)) as (H1 & H2 & H3).
  rewrite Qeq_bool_iff. split.
  - intros He x Hx. rewrite He. now apply H2.
  - intros Hw. apply Qle_antisym; [exact H1|].
    apply H3; [apply Qle_refl|exact Hw].
Qed.

Lemma window_In (g : grid) (r c : nat) (x : Q) :
  In x (window g r c) <->
  exists dr dc, In dr offsets /\ In dc offsets /\
    x = cell g (reflect grid_size (Z.of_nat r + dr))
               (reflect grid_size (Z.of_nat c + dc)).
Proof.
  unfold window. rewrite in_flat_map. split.
  - intros (dr & Hdr & Hx). apply in_map_iff in Hx.
    destruct Hx as (dc & <- & Hdc). now exists dr, dc.
  - intros (dr & dc & Hdr & Hdc & ->). exists dr. split; [assumption|].
    apply in_map_iff. now exists dc.
Qed.

(** A reflected index stays in the grid, within one step of the centre. *)
Lemma reflect_near (r : nat) (dr : Z) :
  (r < 16)%nat -> In dr offsets ->
  (reflect grid_size (Z.of_nat r + dr) < 16)%nat /\
  (reflect grid_size (Z.of_nat r + dr) <= r + 1)%nat /\
  (r <= reflect grid_size (Z.of_nat r + dr) + 1)%nat.
Proof.
  intros Hr Hd. unfold reflect, grid_size.
  destruct (Z.ltb_spec (Z.of_nat r + dr) 0);
    [|destruct (Z.leb_spec (Z.of_nat 16) (Z.of_nat r + dr))];
    destruct Hd as [<-|[<-|[<-|[]]]]; lia.
Qed.

(** Every in-grid cell within one step is reached by some offset. *)
Lemma near_is_offset (r r' : nat) :
  (r < 16)%nat -> (r' < 16)%nat -> (r' <= r + 1)%nat -> (r <= r' + 1)%nat ->
  exists dr, In dr offsets /\ reflect grid_size (Z.of_nat r + dr) = r'.
Proof.
  intros Hr Hr' H1 H2.
  exists (Z.of_nat r' - Z.of_nat r)%Z. split.
  - unfold offsets.
    assert (Hc : (Z.of_nat r' - Z.of_nat r = -1 \/ Z.of_nat r' - Z.of_nat r = 0
                  \/ Z.of_nat r' - Z.of_nat r = 1)%Z) by lia.
    destruct Hc as [-> | [-> | ->]]; simpl; auto.
  - unfold reflect, grid_size.
    replace (Z.of_nat r + (Z.of_nat r' - Z.of_nat r))%Z with (Z.of_nat r')
      by lia.
    destruct (Z.ltb_spec (Z.of_nat r') 0); [lia|].
    destruct (Z.leb_spec (Z.of_nat 16) (Z.of_nat r')); lia.
Qed.

(** X23.  A cell is flagged as a peak exactly when no cell of the grid
    within one step of it (diagonals included) is higher; cells beyond the
    edge of the tile play no part. *)
Theorem peak_flag_characterisation (g : grid) (r c : nat) :
  (r < 16)%nat -> (c < 16)%nat ->
  (peaks_mask g r c = true <->
   forall r' c', (r' < 16)%nat -> (c' < 16)%nat ->
     (r' <= r + 1)%nat -> (r <= r' + 1)%nat ->
     (c' <= c + 1)%nat -> (c <= c' + 1)%nat ->
     cell g r' c' <= cell g r c).
Proof.
  intros Hr Hc. rewrite peaks_mask_window. split.
  - intros Hw r' c' Hr' Hc' R1 R2 C1 C2. apply Hw, window_In.
    destruct (near_is_offset r r' Hr Hr' R1 R2) as (dr & Hdr & <-).
    destruct (near_is_offset c c' Hc Hc' C1 C2) as (dc & Hdc & <-).
    now exists dr, dc.
  - intros Hn x Hx. apply window_In in Hx.
    destruct Hx as (dr & dc & Hdr & Hdc & ->).
    destruct (reflect_near r dr Hr Hdr) as (? & ? & ?).
    destruct (reflect_near c dc Hc Hdc) as (? & ? & ?).
    now apply Hn.
Qed.

Lemma peak_flag_characterisation_witness :
  peaks_mask peak_grid 8 8 = true <->
  forall r' c', (r' < 16)%nat -> (c' < 16)%nat ->
    (r' <= 8 + 1)%nat -> (8 <= r' + 1)%nat ->
    (c' <= 8 + 1)%nat -> (8 <= c' + 1)%nat ->
    cell peak_grid r' c' <= cell peak_grid 8 8.
Proof. apply (peak_flag_characterisation peak_grid 8 8); lia. Defined.

Lemma peak_indices_In (g : grid) (r c : nat) :
  In (r, c) (peak_indices g) <->
  (r < 16)%nat /\ (c < 16)%nat /\ peaks_mask g r c = true.
Proof.
  unfold peak_indices, grid_size. rewrite in_flat_map. split.
  - intros (r0 & Hr0 & H). apply in_flat_map in H.
    destruct H as (c0 & Hc0 & H).
    apply in_seq in Hr0, Hc0.
    destruct (peaks_mask g r0 c0) eqn:Hp; [|destruct H].
    destruct H as [H|[]]. injection H as <- <-.
    split; [lia|]. split; [lia|assumption].
  - intros (Hr & Hc & Hp). exists r. split; [apply in_seq; lia|].
    apply in_flat_map. exists c. split; [apply in_seq; lia|].
    rewrite Hp. now left.
Qed.

(** Among finitely many cells one is highest. *)
Lemma highest_cell (g : grid) (cells : list (nat * nat)) :
  cells <> [] ->
  exists m, In m cells /\
    forall x, In x cells -> cell g (fst x) (snd x) <= cell g (fst m) (snd m).
Proof.
  induction cells as [|a cells IH]; [contradiction|]. intros _.
  destruct cells as [|b cells].
  - exists a. split; [now left|]. intros x [<-|[]]. apply Qle_refl.
  - destruct IH as (m & Hm & Hmax); [discriminate|].
    destruct (Qlt_le_dec (cell g (fst m) (snd m)) (cell g (fst a) (snd a)))
      as [Hlt|Hle].
    + exists a. split; [now left|]. intros x [<-|Hx]; [apply Qle_refl|].
      eapply Qle_trans; [apply Hmax, Hx|]. now apply Qlt_le_weak.
    + exists m. split; [now right|]. intros x [<-|Hx]; [assumption|].
      now apply Hmax.
Qed.

(** X24.  The filter flags at least one cell of every grid: a highest cell
    of the grid is always flagged.  So the sieve finds a candidate on every
    tile with data, however flat. *)
Theorem highest_cell_is_flagged (g : grid) :
  exists r c, In (r, c) (peak_indices g) /\
    forall r' c', (r' < 16)%nat -> (c' < 16)%nat ->
      cell g r' c' <= cell g r c.
Proof.
  destruct (highest_cell g all_cells) as ([r c] & Hin & Hmax);
    [discriminate|].
  cbn [fst snd] in Hmax. apply in_all_cells in Hin. destruct Hin as [Hr Hc].
  assert (Hall : forall r' c', (r' < 16)%nat -> (c' < 16)%nat ->
            cell g r' c' <= cell g r c).
  { intros r' c' Hr' Hc'. apply (Hmax (r', c')). now apply in_all_cells. }
  exists r, c. split; [|exact Hall].
  apply peak_indices_In. split; [assumption|]. split; [assumption|].
  apply peak_flag_characterisation; auto.
Qed.

Lemma highest_cell_is_flagged_witness :
  exists r c, In (r, c) (peak_indices peak_grid) /\
    forall r' c', (r' < 16)%nat -> (c' < 16)%nat ->
      cell peak_grid r' c' <= cell peak_grid r c.
Proof. exact (highest_cell_is_flagged peak_grid). Defined.

(** ** Sorting *)

Lemma firstn_incl_In {A : Type} (n : nat) (l : list A) (x : A) :
  In x (firstn n l) -> In x l.
Proof.
  revert n. induction l as [|y l IH]; intros [|n]; cbn [firstn];
    intros H; simpl in H; try contradiction.
  destruct H as [<-|H]; [now left|right; eapply IH; exact H].
Qed.

Section Sorting.
Context {A : Type} (key : A -> Q).

Lemma insert_desc_In (x y : A) (l : list A) :
  In y (insert_desc key x l) <-> y = x \/ In y l.
Proof.
  induction l as [|z l IH]; cbn [insert_desc].
  - simpl. intuition.
  - destruct (Qle_bool (key z) (key x)).
    + simpl. intuition.
    + simpl. rewrite IH. intuition.
Qed.

Lemma insert_desc_length (x : A) (l : list A) :
  length (insert_desc key x l) = S (length l).
Proof.
  induction l as [|z l IH]; cbn [insert_desc]; [reflexivity|].
  destruct (Qle_bool (key z) (key x)); simpl; [reflexivity|now rewrite IH].
Qed.

Lemma insert_desc_sorted (x : A) (l : list A) :
  StronglySorted (fun a b => key b <= key a) l ->
  StronglySorted (fun a b => key b <= key a) (insert_desc key x l).
Proof.
  induction 1 as [|z l Hs IH Hz]; cbn [insert_desc].
  - constructor; constructor.
  - destruct (Qle_bool (key z) (key x)) eqn:Hle.
    + apply Qle_bool_iff in Hle. constructor; [now constructor|].
      constructor; [assumption|].
      rewrite List.Forall_forall in Hz |- *. intros y Hy.
      eapply Qle_trans; [apply Hz, Hy|assumption].
    + assert (Hlt : key x < key z).
      { apply Qnot_le_lt. intros H. apply Qle_bool_iff in H. congruence. }
      constructor; [assumption|].
      rewrite List.Forall_forall in Hz |- *. intros y Hy.
      apply insert_desc_In in Hy. destruct Hy as [->|Hy].
      * now apply Qlt_le_weak.
      * now apply Hz.
Qed.

Lemma sort_desc_In (y : A) (l : list A) : In y (sort_desc key l) <-> In y l.
Proof.
  unfold sort_desc. induction l as [|x l IH]; cbn [fold_right]; [reflexivity|].
  rewrite insert_desc_In, IH. simpl. intuition.
Qed.

Lemma sort_desc_length (l : list A) : length (sort_desc key l) = length l.
Proof.
  unfold sort_desc. induction l as [|x l IH]; cbn [fold_right]; [reflexivity|].
  now rewrite insert_desc_length, IH.
Qed.

Lemma sort_desc_sorted (l : list A) :
  StronglySorted (fun a b => key b <= key a) (sort_desc key l).
Proof.
  unfold sort_desc. induction l as [|x l IH]; cbn [fold_right].
  - constructor.
  - now apply insert_desc_sorted.
Qed.

Lemma firstn_sorted (R : A -> A -> Prop) (n : nat) (l : list A) :
  StronglySorted R l -> StronglySorted R (firstn n l).
Proof.
  intros H. revert n. induction H as [|x l Hs IH Hx]; intros [|n];
    cbn [firstn]; try constructor.
  - apply IH.
  - rewrite List.Forall_forall in Hx |- *. intros y Hy. apply Hx.
    eapply firstn_incl_In. exact Hy.
Qed.

Lemma sorted_head_max (x : A) (l : list A) :
  StronglySorted (fun a b => key b <= key a) (x :: l) ->
  forall y, In y (x :: l) -> key y <= key x.
Proof.
  intros H y [<-|Hy]; [apply Qle_refl|].
  apply StronglySorted_inv in H. destruct H as [_ H].
  rewrite List.Forall_forall in H. now apply H.
Qed.

End Sorting.

(** ** The candidates of the scan *)

Lemma tile_candidates_In (min_lat min_lon max_lat max_lon : Q)
    (t : tile) (b : bounds) (elevs : grid) (s : site) :
  In s (tile_candidates min_lat min_lon max_lat max_lon t b elevs) ->
  exists r c, In (r, c) (peak_indices elevs) /\
    in_bbox min_lat min_lon max_lat max_lon (cell_lat b r c) (cell_lon b r c)
      = true /\
    s = mkSite (cell_lat b r c) (cell_lon b r c) (cell elevs r c)
               (tile_x t) (tile_y t).
Proof.
  unfold tile_candidates. rewrite in_flat_map.
  intros ([r c] & Hrc & H). cbn [fst snd] in H.
  destruct (in_bbox _ _ _ _ _ _) eqn:Hb; [|destruct H].
  destruct H as [<-|[]]. now exists r, c.
Qed.

Lemma scan_tile_sites (E : env) (min_lat min_lon max_lat max_lon : Q)
    (c c' : cache) (t : tile) (sites : list site) (s : site) :
  scan_tile E min_lat min_lon max_lat max_lon c t = Scanned (sites, c') ->
  In s sites ->
  in_bbox min_lat min_lon max_lat max_lon (lat s) (lon s) = true /\
  site_tile_x s = tile_x t /\ site_tile_y s = tile_y t.
Proof.
  unfold scan_tile.
  destruct (get_tile_data_at E c _ _) as [[d1|e1] c1]; [|discriminate].
  cbv zeta.
  destruct (get_tile_data_at E c1 _ _) as [[[d|]|e2] c2]; [| |discriminate].
  - destruct (negb (truthy (Some d)) || negb (has_key "elevation" d)).
    + intros H. injection H as <- <-. intros [].
    + destruct (reshape16 _) as [elevs|]; [|discriminate].
      intros H. injection H as <- <-.
      intros Hs. apply tile_candidates_In in Hs.
      destruct Hs as (r & c0 & _ & Hb & ->).
      now cbn [lat lon site_tile_x site_tile_y].
  - intros H. injection H as <- <-. intros [].
Qed.

Lemma scan_tiles_sites (E : env) (min_lat min_lon max_lat max_lon : Q)
    (tiles : list tile) :
  forall (c : cache) (acc all : list site) (s : site),
  scan_tiles E min_lat min_lon max_lat max_lon c tiles acc = Scanned all ->
  In s all ->
  In s acc \/
  (in_bbox min_lat min_lon max_lat max_lon (lat s) (lon s) = true /\
   exists t, In t tiles /\
     site_tile_x s = tile_x t /\ site_tile_y s = tile_y t).
Proof.
  induction tiles as [|t tiles IH]; intros c acc all s; cbn [scan_tiles].
  - intros H. injection H as <-. now left.
  - destruct (scan_tile E min_lat min_lon max_lat max_lon c t)
      as [[sites c']| |e] eqn:Hs; [|discriminate|discriminate].
    cbn [fst snd]. intros H Hin.
    destruct (IH _ _ _ _ H Hin) as [Ha|(Hb & t' & Ht' & Hx)].
    + apply in_app_iff in Ha. destruct Ha as [Ha|Ha]; [now left|].
      right. destruct (scan_tile_sites _ _ _ _ _ _ _ _ _ _ Hs Ha) as (? & ? & ?).
      split; [assumption|]. exists t. split; [now left|now split].
    + right. split; [assumption|]. exists t'. split; [now right|assumption].
Qed.

(** X25.  A successful sieve run returns at most three locations, in order
    of decreasing score; each is a flagged cell of one of the scanned tiles
    that lies inside the query box, scored by its elevation; and the first
    location is at least as high as every candidate the scan produced. *)
Theorem sieve_result_shape (E : env) (tiles : list tile) (c : cache)
    (min_lat min_lon max_lat max_lon freq_mhz height_m : Q)
    (locations : list scored_site) :
  optimize_location_task E tiles c min_lat min_lon max_lat max_lon
    freq_mhz height_m = Success locations ->
  exists all,
    scan_tiles E min_lat min_lon max_lat max_lon c tiles [] = Scanned all /\
    length locations = Nat.min 3 (length all) /\
    StronglySorted (fun a b => score b <= score a) locations /\
    (forall s, In s locations ->
       In (the_site s) all /\
       score s == elev (the_site s) /\
       in_bbox min_lat min_lon max_lat max_lon
         (lat (the_site s)) (lon (the_site s)) = true /\
       exists t, In t tiles /\ site_tile_x (the_site s) = tile_x t
                 /\ site_tile_y (the_site s) = tile_y t) /\
    (forall cand, In cand all ->
       exists s rest, locations = s :: rest /\ elev cand <= score s).
Proof.
  unfold optimize_location_task.
  destruct tiles as [|t0 tiles0] eqn:Ht; [discriminate|]. rewrite <- Ht.
  destruct (scan_tiles E min_lat min_lon max_lat max_lon c tiles [])
    as [all| |e] eqn:Hscan; [|discriminate|discriminate].
  cbv zeta. intros H. injection H as <-. exists all.
  split; [reflexivity|].
  set (top := firstn 20 (sort_desc elev all)).
  set (scored := map (fun cand => mkScored cand (elev cand * 1)) top).
  assert (Htop : forall x, In x top -> In x all).
  { intros x Hx. apply -> (sort_desc_In elev). eapply firstn_incl_In. exact Hx. }
  assert (Hscored : forall s, In s scored ->
            In (the_site s) top /\ score s == elev (the_site s)).
  { intros s Hs. apply in_map_iff in Hs. destruct Hs as (x & <- & Hx).
    cbn [the_site score]. split; [assumption|ring]. }
  split; [|split; [|split]].
  - rewrite length_firstn, sort_desc_length. unfold scored.
    rewrite length_map. unfold top.
    rewrite length_firstn, sort_desc_length. lia.
  - apply firstn_sorted, sort_desc_sorted.
  - intros s Hs. apply firstn_incl_In in Hs.
    apply -> (sort_desc_In score) in Hs.
    destruct (Hscored s Hs) as [Hst Hsc].
    pose proof (Htop _ Hst) as Hall.
    split; [assumption|]. split; [assumption|].
    destruct (scan_tiles_sites _ _ _ _ _ _ _ _ _ _ Hscan Hall) as [[]|[Hb Hx]].
    now split.
  - intros cand Hcand.
    (* the head of the first sort is a highest candidate *)
    destruct (sort_desc elev all) as [|h1 l1] eqn:Hs1.
    { apply <- (sort_desc_In elev) in Hcand. rewrite Hs1 in Hcand.
      destruct Hcand. }
    assert (Hh1 : elev cand <= elev h1).
    { apply (sorted_head_max elev h1 l1).
      - rewrite <- Hs1. apply sort_desc_sorted.
      - rewrite <- Hs1. now apply <- (sort_desc_In elev). }
    assert (Hin1 : In (mkScored h1 (elev h1 * 1)) scored).
    { unfold scored, top. cbn [firstn map]. now left. }
    destruct (sort_desc score scored) as [|h2 l2] eqn:Hs2.
    { apply <- (sort_desc_In score) in Hin1. rewrite Hs2 in Hin1.
      destruct Hin1. }
    exists h2, (firstn 2 l2). split; [reflexivity|].
    assert (Hh2 : score (mkScored h1 (elev h1 * 1)) <= score h2).
    { apply (sorted_head_max score h2 l2).
      - rewrite <- Hs2. apply sort_desc_sorted.
      - rewrite <- Hs2. now apply <- (sort_desc_In score). }
    cbn [score] in Hh2. lra.
Qed.

Lemma sieve_result_shape_witness :
  exists locations all,
    optimize_location_task two_tile_env [mkTile 1 0 12] absent_cache
      0 0 2 1 915 10 = Success locations /\
    scan_tiles two_tile_env 0 0 2 1 absent_cache [mkTile 1 0 12] []
      = Scanned all /\
    length locations = Nat.min 3 (length all) /\
    (forall cand, In cand all ->
       exists s rest, locations = s :: rest /\ elev cand <= score s).
Proof.
  pose (res := optimize_location_task two_tile_env [mkTile 1 0 12]
                 absent_cache 0 0 2 1 915 10).
  assert (H : res = Success (match res with
                             | Success l => l
                             | _ => []
                             end)) by (vm_compute; reflexivity).
  destruct (sieve_result_shape two_tile_env [mkTile 1 0 12] absent_cache
              0 0 2 1 915 10 _ H) as (all & Hscan & Hlen & _ & _ & Hmax).
  eexists _, all. split; [exact H|]. repeat split; assumption.
Defined.

(** ** The sieve on a freshly fetched tile *)

Lemma chunks_nth (fuel w r : nat) (raw : list Q) :
  (r < fuel)%nat ->
  nth r (chunks fuel w raw) [] = firstn w (skipn (r * w) raw).
Proof.
  revert r raw. induction fuel as [|fuel IH]; intros r raw Hr; [lia|].
  cbn [chunks]. destruct r as [|r]; [reflexivity|].
  cbn [nth]. rewrite IH by lia. rewrite skipn_skipn.
  f_equal. f_equal. lia.
Qed.

Lemma cell_chunks (raw : list Q) (r c : nat) :
  (r < 16)%nat -> (c < 16)%nat ->
  cell (chunks 16 16 raw) r c = nth (r * 16 + c) raw 0.
Proof.
  intros Hr Hc. unfold cell. rewrite chunks_nth by assumption.
  rewrite nth_firstn. destruct (Nat.ltb_spec c 16); [|lia].
  now rewrite nth_skipn.
Qed.

(** X26.  The sieve and the fetch agree on where each sample lies: on a
    tile fetched during the scan, every site the sieve reports carries the
    elevation the API gave for exactly the site's coordinates. *)
Theorem sieve_sites_carry_api_elevation (tile_of : Q -> Q -> option tile)
    (bounds_of : tile -> bounds) (f : Q -> Q -> Q) (c : cache) (t : tile)
    (min_lat min_lon max_lat max_lon : Q) :
  let E := env_over tile_of bounds_of (terrain_api f) in
  tile_of (tile_lon_center E t) (tile_lat_center E t) = Some t ->
  c !! tile_key t = None ->
  exists sites c',
    scan_tile E min_lat min_lon max_lat max_lon c t = Scanned (sites, c') /\
    forall s, In s sites -> elev s = f (lat s) (lon s).
Proof.
  intros E Hcenter Hc.
  set (rec := ({[ "elevation" := map (fun p => f (fst p) (snd p))
                                     (tile_points (bounds_of t)) ]} : dict)).
  unfold scan_tile, get_tile_data_at.
  change (mercantile_tile E) with tile_of.
  change (mercantile_bounds E t) with (bounds_of t).
  unfold tile_lon_center, tile_lat_center in Hcenter.
  change (mercantile_bounds E t) with (bounds_of t) in Hcenter.
  unfold tile_lon_center, tile_lat_center.
  change (mercantile_bounds E t) with (bounds_of t).
  rewrite Hcenter.
  unfold E. rewrite (get_tile_data_terrain tile_of bounds_of f c t Hc).
  cbv zeta. fold rec.
  assert (Hhit : get_tile_data (env_over tile_of bounds_of (terrain_api f))
                   (<[tile_key t := rec]> c) t
                 = (Returns (Some rec), <[tile_key t := rec]> c)).
  { unfold get_tile_data. now rewrite lookup_insert_eq. }
  rewrite Hhit. unfold rec at 1 2.
  rewrite truthy_elevation_record, has_key_elevation_record.
  cbn [negb orb]. unfold rec. rewrite lookup_singleton_eq.
  cbn [default from_option Datatypes.id].
  unfold reshape16. rewrite length_map, tile_points_length.
  cbn [grid_size Nat.mul Nat.add Nat.eqb].
  eexists _, _. split; [reflexivity|].
  intros s Hs. apply tile_candidates_In in Hs.
  destruct Hs as (r & c0 & Hrc & _ & ->). cbn [elev lat lon].
  apply peak_indices_In in Hrc. destruct Hrc as (Hr & Hc0 & _).
  rewrite cell_chunks by assumption.
  rewrite cell_lat_eq, cell_lon_eq by assumption.
  rewrite (nth_map_lt _ _ _ 0 (0, 0)) by (rewrite tile_points_length; lia).
  now rewrite tile_points_nth by assumption.
Qed.

Lemma sieve_sites_carry_api_elevation_witness :
  exists sites c',
    scan_tile
      (env_over (fun _ _ => Some (mkTile 0 0 12)) (fun _ => mkBounds 0 0 1 1)
                (terrain_api (fun la lo => 100 * la + lo)))
      0 0 1 1 ∅ (mkTile 0 0 12) = Scanned (sites, c') /\
    forall s, In s sites -> elev s = 100 * lat s + lon s.
Proof.
  apply (sieve_sites_carry_api_elevation (fun _ _ => Some (mkTile 0 0 12))
           (fun _ => mkBounds 0 0 1 1) (fun la lo => 100 * la + lo) ∅
           (mkTile 0 0 12) 0 0 1 1); reflexivity.
Defined.

(** ** An exception of the fetch *)

(** X31.  What the fetch of a tile that is not cached raises is caught
    nowhere in the tile manager: [get_tile_data] raises it and leaves the
    cache as it was, and so do [get_interpolated_grid] and
    [get_elevation_tile]; a sieve task whose first tile has that tile at
    its centre ends with the status [error], no tile being scanned. *)
Theorem fetch_exception_propagates (E : env) (zoom : grid -> Q -> grid)
    (c : cache) (t : tile) (e : exception) (rest : list tile)
    (min_lat min_lon max_lat max_lon freq_mhz height_m : Q) :
  c !! tile_key t = None ->
  Tiles._fetch_tile_from_api E t = Raises e ->
  get_tile_data E c t = (Raises e, c) /\
  get_interpolated_grid E zoom c t 256 = (Raises e, c) /\
  TerrainRGB.get_elevation_tile E zoom c (tile_z t) (tile_x t) (tile_y t)
    = (Raises e, c) /\
  (mercantile_tile E (tile_lon_center E t) (tile_lat_center E t) = Some t ->
   scan_tile E min_lat min_lon max_lat max_lon c t = TileManagerRaised e /\
   optimize_location_task E (t :: rest) c min_lat min_lon max_lat max_lon
     freq_mhz height_m
   = ErrorOf e).
Proof.
  intros Hc He.
  assert (Hg : get_tile_data E c t = (Raises e, c)).
  { unfold get_tile_data. now rewrite Hc, He. }
  assert (Hi : get_interpolated_grid E zoom c t 256 = (Raises e, c)).
  { unfold get_interpolated_grid. now rewrite Hg. }
  split; [exact Hg|]. split; [exact Hi|]. split.
  - unfold TerrainRGB.get_elevation_tile. destruct t as [x y z].
    cbn [tile_x tile_y tile_z]. now rewrite Hi.
  - intros Ht.
    assert (Hs : scan_tile E min_lat min_lon max_lat max_lon c t
                 = TileManagerRaised e).
    { unfold scan_tile, get_tile_data_at. now rewrite Ht, Hg. }
    split; [exact Hs|].
    unfold optimize_location_task. cbn [scan_tiles]. rewrite Hs.
    reflexivity.
Qed.

Lemma fetch_exception_propagates_witness :
  let E := env_over (fun _ _ => Some (mkTile 0 0 12))
                    (fun _ => mkBounds 0 0 1 1) null_api in
  get_tile_data E ∅ (mkTile 0 0 12) = (Raises TypeError, ∅) /\
  get_interpolated_grid E (fun g _ => g) ∅ (mkTile 0 0 12) 256
    = (Raises TypeError, ∅) /\
  TerrainRGB.get_elevation_tile E (fun g _ => g) ∅ 12 0 0
    = (Raises TypeError, ∅) /\
  scan_tile E 0 0 1 1 ∅ (mkTile 0 0 12) = TileManagerRaised TypeError /\
  optimize_location_task E [mkTile 0 0 12] ∅ 0 0 1 1 915 10
    = ErrorOf TypeError.
Proof.
  intros E.
  destruct (fetch_exception_propagates E (fun g _ => g) ∅ (mkTile 0 0 12)
              TypeError [] 0 0 1 1 915 10)
    as (H1 & H2 & H3 & H4).
  - reflexivity.
  - vm_compute. reflexivity.
  - destruct (H4 eq_refl) as [H5 H6].
    repeat (split; [assumption|]). exact H6.
Defined.

End SieveMore.

(* ================================================================== *)
(** * Properties of target sampling and graph building *)
(* ================================================================== *)

Module BuilderProofs.
Import Tiles Planner Builder PlannerProofs.

Local Open Scope Q_scope.

(** ** Node identifiers *)

Lemma cand_id_inj (i j : nat) : cand_id i = cand_id j -> i = j.
Proof.
  unfold cand_id. intros H. apply String.app_inj in H.
  now apply pretty_nat_inj in H.
Qed.

Lemma tgt_id_inj (i j : nat) : tgt_id i = tgt_id j -> i = j.
Proof.
  unfold tgt_id. intros H. apply String.app_inj in H.
  now apply pretty_nat_inj in H.
Qed.

Lemma tgt_id_not_cand_id (k i : nat) : tgt_id k <> cand_id i.
Proof. unfold tgt_id, cand_id. cbn [String.append]. discriminate. Qed.

(** ** The node dictionary *)

Lemma add_node_keys (l : list (string * attrs node_data)) (n : string)
    (new : attrs node_data) (update : attrs node_data -> attrs node_data) :
  (In n (map fst l) -> map fst (add_node l n new update) = map fst l) /\
  (~ In n (map fst l) ->
   add_node l n new update = l ++ [(n, new)]).
Proof.
  induction l as [|[k a] l [IH1 IH2]]; cbn [add_node map fst In app].
  - split; [intros []|reflexivity].
  - destruct (String.eqb_spec k n) as [->|Hne].
    + split; [reflexivity|]. intros H. exfalso. apply H. now left.
    + split.
      * intros [H|H]; [contradiction|]. cbn [map fst]. now rewrite IH1.
      * intros H. rewrite IH2; [reflexivity|]. intros H'. apply H. now right.
Qed.

Lemma NoDup_snoc {A : Type} (l : list A) (x : A) :
  List.NoDup l -> ~ In x l -> List.NoDup (l ++ [x]).
Proof.
  induction 1 as [|y l Hy Hl IH]; cbn [app]; intros Hx.
  - constructor; [intros []|constructor].
  - constructor.
    + rewrite in_app_iff. intros [H|[<-|[]]]; [contradiction|].
      apply Hx. now left.
    + apply IH. intros H. apply Hx. now right.
Qed.

Lemma add_node_NoDup (l : list (string * attrs node_data)) (n : string)
    (new : attrs node_data) (update : attrs node_data -> attrs node_data) :
  List.NoDup (map fst l) -> List.NoDup (map fst (add_node l n new update)).
Proof.
  intros Hnd. destruct (add_node_keys l n new update) as [H1 H2].
  destruct (in_dec String.string_dec n (map fst l)) as [Hin|Hnin].
  - now rewrite H1.
  - rewrite H2 by assumption. rewrite map_app. cbn [map fst].
    now apply NoDup_snoc.
Qed.

Lemma add_node_Forall (P : string * attrs node_data -> Prop)
    (l : list (string * attrs node_data)) (n : string)
    (new : attrs node_data) (update : attrs node_data -> attrs node_data) :
  List.Forall P l -> P (n, new) -> (forall k a, P (k, update a)) ->
  List.Forall P (add_node l n new update).
Proof.
  intros Hl Hnew Hup. induction Hl as [|[k a] l Hx Hl IH]; cbn [add_node].
  - constructor; [assumption|constructor].
  - destruct (String.eqb k n); constructor; auto.
Qed.

Lemma weight_attr_number (c : candidate_site) :
  weight_is_number c ->
  exists w, weight_attr (default (Number 1) (c_weight c)) = Some w.
Proof.
  unfold weight_is_number.
  destruct (c_weight c) as [[q|]|]; cbn; intros H; eauto. congruence.
Qed.

Lemma add_candidate_node_inv (l : list (string * attrs node_data))
    (i : nat) (c : candidate_site) :
  weight_is_number c ->
  List.NoDup (map fst l) /\ List.Forall weighted_if_candidate l ->
  List.NoDup (map fst (add_candidate_node l i c)) /\
  List.Forall weighted_if_candidate (add_candidate_node l i c).
Proof.
  intros Hc [H1 H2]. unfold add_candidate_node. cbv zeta. split.
  - now apply add_node_NoDup.
  - apply add_node_Forall; [assumption| |];
      intros; unfold weighted_if_candidate; cbn [snd weight];
      intros _; now apply weight_attr_number.
Qed.

Lemma add_target_node_inv (l : list (string * attrs node_data))
    (t : target_point) :
  List.NoDup (map fst l) /\ List.Forall weighted_if_candidate l ->
  List.NoDup (map fst (add_target_node l t)) /\
  List.Forall weighted_if_candidate (add_target_node l t).
Proof.
  intros [H1 H2]. unfold add_target_node. split.
  - now apply add_node_NoDup.
  - apply add_node_Forall; [assumption| |];
      intros; unfold weighted_if_candidate; cbn [snd ntype]; discriminate.
Qed.

Lemma fold_left_inv {A B : Type} (P : A -> Prop) (f : A -> B -> A)
    (l : list B) (a : A) :
  (forall a b, P a -> P (f a b)) -> P a -> P (fold_left f l a).
Proof.
  intros Hf. revert a. induction l as [|b l IH]; intros a Ha; cbn [fold_left];
    [assumption|]. apply IH, Hf, Ha.
Qed.

Lemma weights_present_nodes (G : graph node_data) :
  List.NoDup (map fst (nodes G)) ->
  List.Forall weighted_if_candidate (nodes G) ->
  weights_present G = true.
Proof.
  intros Hnd Hw. apply weights_present_of_nodes; [assumption|].
  intros n a Hin Hty. rewrite List.Forall_forall in Hw.
  now apply (Hw (n, a) Hin).
Qed.

Lemma fold_left_inv_In {A B : Type} (P : A -> Prop) (f : A -> B -> A)
    (l : list B) (a : A) :
  (forall a b, In b l -> P a -> P (f a b)) -> P a -> P (fold_left f l a).
Proof.
  revert a. induction l as [|b l IH]; intros a Hf Ha; cbn [fold_left];
    [assumption|].
  apply IH.
  - intros a' b' Hb'. apply Hf. now right.
  - apply Hf; [now left|assumption].
Qed.

Lemma built_nodes_inv (candidates : list candidate_site)
    (targets : list target_point) :
  List.Forall weight_is_number candidates ->
  let nodes1 :=
    fold_left (fun l ic => add_candidate_node l (fst ic) (snd ic))
              (enumerate candidates) [] in
  let nodes2 := fold_left add_target_node targets nodes1 in
  List.NoDup (map fst nodes2) /\ List.Forall weighted_if_candidate nodes2.
Proof.
  intros Hc nodes1 nodes2. unfold nodes2.
  apply (fold_left_inv
           (fun l => List.NoDup (map fst l)
                     /\ List.Forall weighted_if_candidate l)).
  - intros l t. apply add_target_node_inv.
  - unfold nodes1.
    apply (fold_left_inv_In
             (fun l => List.NoDup (map fst l)
                       /\ List.Forall weighted_if_candidate l)).
    + intros l ic Hic. apply add_candidate_node_inv.
      rewrite List.Forall_forall in Hc. apply Hc.
      unfold enumerate in Hic. destruct ic as [i c].
      now apply in_combine_r in Hic.
    + split; constructor.
Qed.

(** X27.  When the [weight] of every candidate of the request is missing
    or a number, a graph that [build_coverage_graph] returns gives every
    candidate node a weight to divide, whatever the targets and links, so
    [optimize_sites] on it raises nothing: it returns the data of the
    selected sites and the coverage fraction. *)
Theorem built_graph_never_raises (physics : physics_engine)
    (candidates : list candidate_site) (targets : list target_point)
    (freq_mhz rx_height : Q) (G : graph node_data) :
  List.Forall weight_is_number candidates ->
  build_coverage_graph physics candidates targets freq_mhz rx_height
    = Some G ->
  weights_present G = true /\
  exists selected ds,
    select_sites G = Ok (selected, covered_by G selected) /\
    optimize_sites G = Ok (ds, coverage_fraction G (covered_by G selected)) /\
    length ds = length selected.
Proof.
  intros Hc. unfold build_coverage_graph. cbv zeta.
  destruct (add_edges _ _ _ _ _ _) as [adj|]; [|discriminate].
  cbn [mbind option_bind]. intros HG. injection HG as <-.
  set (G := mkGraph _ adj).
  assert (Hw : weights_present G = true).
  { destruct (built_nodes_inv candidates targets Hc) as [H1 H2].
    now apply weights_present_nodes. }
  split; [exact Hw|].
  pose proof (select_sites_spec G) as Hs. unfold optimize_sites.
  destruct (select_sites G) as [[sel cov]| |]; [|congruence|contradiction].
  destruct Hs as (-> & _ & Hsel).
  destruct (selected_data G sel Hsel) as [ds Hds].
  exists sel, ds. rewrite Hds. split; [reflexivity|]. split; [reflexivity|].
  apply length_mapM in Hds. now symmetry.
Qed.

Lemma built_graph_never_raises_witness :
  exists G,
    build_coverage_graph south_engine two_candidates two_targets 915 2
      = Some G /\
    weights_present G = true /\
    exists selected ds,
      select_sites G = Ok (selected, covered_by G selected) /\
      optimize_sites G
        = Ok (ds, coverage_fraction G (covered_by G selected)) /\
      length ds = length selected.
Proof.
  destruct (build_coverage_graph south_engine two_candidates two_targets
              915 2) as [G|] eqn:H.
  - exists G. split; [reflexivity|].
    apply (built_graph_never_raises south_engine two_candidates two_targets
             915 2 G); [|exact H].
    repeat constructor; discriminate.
  - vm_compute in H. discriminate.
Defined.

(** A [weight] that is [null] is stored as it is, and the division of the
    first round raises. *)
Example null_weight_raises :
  exists G,
    build_coverage_graph south_engine null_weight_candidates two_targets
      915 2 = Some G /\
    weights_present G = false /\
    optimize_sites G = Raised.
Proof.
  eexists. split; [reflexivity|]. split; vm_compute; reflexivity.
Qed.

(** ** The nodes of a graph built without identifier clashes *)

Lemma enumerate_In {A : Type} (l : list A) (s i : nat) (x : A) :
  In (i, x) (combine (seq s (length l)) l) <->
  (s <= i)%nat /\ l !! (i - s)%nat = Some x.
Proof.
  revert s. induction l as [|y l IH]; intros s; cbn [length seq combine].
  - split; [intros []|intros [_ H]; discriminate].
  - cbn [In]. rewrite IH. split.
    + intros [H|[H1 H2]].
      * injection H as <- <-. split; [lia|].
        now replace (s - s)%nat with 0%nat by lia.
      * split; [lia|].
        replace (i - s)%nat with (S (i - S s)) by lia. exact H2.
    + intros [H1 H2]. destruct (Nat.eq_dec s i) as [<-|Hne].
      * left. replace (s - s)%nat with 0%nat in H2 by lia.
        cbn in H2. congruence.
      * right. split; [lia|].
        replace (i - s)%nat with (S (i - S s)) in H2 by lia. exact H2.
Qed.

Lemma combine_seq_fst {A : Type} (l : list A) (s : nat) :
  map fst (combine (seq s (length l)) l) = seq s (length l).
Proof.
  revert s. induction l as [|y l IH]; intros s; cbn [length seq combine map fst];
    [reflexivity|]. now rewrite IH.
Qed.

(** The candidate nodes are appended in order, none replacing another. *)
Lemma candidate_nodes (l : list candidate_site) :
  forall (s : nat) (acc : list (string * attrs node_data)),
  (forall k, In k (map fst acc) -> exists j, (j < s)%nat /\ k = cand_id j) ->
  fold_left (fun l ic => add_candidate_node l (fst ic) (snd ic))
            (combine (seq s (length l)) l) acc
  = acc ++ map (fun ic => (cand_id (fst ic),
                            mkAttrs candidate
                              (weight_attr (default (Number 1) (c_weight (snd ic))))
                              (inl (snd ic))))
               (combine (seq s (length l)) l).
Proof.
  induction l as [|c l IH]; intros s acc Hacc;
    cbn [length seq combine fold_left map].
  - now rewrite app_nil_r.
  - cbn [fst snd].
    assert (Hfresh : ~ In (cand_id s) (map fst acc)).
    { intros H. destruct (Hacc _ H) as (j & Hj & Heq).
      apply cand_id_inj in Heq. lia. }
    unfold add_candidate_node at 2. cbv zeta.
    destruct (add_node_keys acc (cand_id s)
                (mkAttrs candidate (weight_attr (default (Number 1) (c_weight c)))
                         (inl c))
                (fun _ => mkAttrs candidate
                            (weight_attr (default (Number 1) (c_weight c)))
                            (inl c))) as [_ H2].
    rewrite (H2 Hfresh). rewrite IH.
    + now rewrite <- app_assoc.
    + intros k Hk. rewrite map_app, in_app_iff in Hk.
      destruct Hk as [Hk|[<-|[]]].
      * destruct (Hacc k Hk) as (j & Hj & ->). exists j. split; [lia|reflexivity].
      * exists s. split; [lia|reflexivity].
Qed.

Lemma add_node_app_skip (l1 l2 : list (string * attrs node_data))
    (n : string) (new : attrs node_data)
    (update : attrs node_data -> attrs node_data) :
  ~ In n (map fst l1) ->
  add_node (l1 ++ l2) n new update = l1 ++ add_node l2 n new update.
Proof.
  induction l1 as [|[k a] l1 IH]; cbn [app add_node map fst In];
    [reflexivity|].
  intros H. destruct (String.eqb_spec k n) as [->|Hne].
  - exfalso. apply H. now left.
  - rewrite IH; [reflexivity|]. intros H'. apply H. now right.
Qed.

Lemma add_target_node_keys (l : list (string * attrs node_data))
    (t : target_point) (k : string) :
  In k (map fst (add_target_node l t)) <-> In k (map fst l) \/ k = t_id t.
Proof.
  unfold add_target_node.
  destruct (add_node_keys l (t_id t) (mkAttrs target None (inr t))
              (fun a => mkAttrs target (weight a) (inr t))) as [H1 H2].
  destruct (in_dec String.string_dec (t_id t) (map fst l)) as [Hin|Hnin].
  - rewrite (H1 Hin). split; [auto|]. intros [H| ->]; assumption.
  - rewrite (H2 Hnin), map_app, in_app_iff. cbn [map fst In].
    split; [intros [H|[<-|[]]]; auto|intros [H| ->]; auto].
Qed.

(** The target nodes come after the candidate nodes and leave them alone. *)
Lemma target_nodes (l1 : list (string * attrs node_data))
    (targets : list target_point) :
  forall l2 : list (string * attrs node_data),
  (forall t, In t targets -> ~ In (t_id t) (map fst l1)) ->
  List.Forall (fun p => ntype (snd p) = target) l2 ->
  exists l2',
    fold_left add_target_node targets (l1 ++ l2) = l1 ++ l2' /\
    List.Forall (fun p => ntype (snd p) = target) l2' /\
    forall k, In k (map fst l2') <->
              In k (map fst l2) \/ In k (map t_id targets).
Proof.
  induction targets as [|t targets IH]; intros l2 Hfresh Hl2;
    cbn [fold_left map In].
  - exists l2. split; [reflexivity|]. split; [assumption|]. tauto.
  - unfold add_target_node at 2.
    rewrite add_node_app_skip by (apply Hfresh; now left).
    fold (add_target_node l2 t).
    destruct (IH (add_target_node l2 t)) as (l2' & Heq & Hty & Hkeys).
    + intros t' Ht'. apply Hfresh. now right.
    + unfold add_target_node. apply add_node_Forall; [assumption| |];
        intros; reflexivity.
    + exists l2'. split; [assumption|]. split; [assumption|].
      intros k. rewrite Hkeys, add_target_node_keys. intuition.
Qed.

Lemma filter_all {A : Type} (f : A -> bool) (l : list A) :
  (forall x, In x l -> f x = true) -> List.filter f l = l.
Proof.
  induction l as [|x l IH]; intros H; cbn [List.filter]; [reflexivity|].
  rewrite (H x) by now left. f_equal. apply IH. intros y Hy. apply H.
  now right.
Qed.

Lemma filter_none {A : Type} (f : A -> bool) (l : list A) :
  (forall x, In x l -> f x = false) -> List.filter f l = [].
Proof.
  induction l as [|x l IH]; intros H; cbn [List.filter]; [reflexivity|].
  rewrite (H x) by now left. apply IH. intros y Hy. apply H. now right.
Qed.

(** ** The edges *)

Lemma add_edge_spec (adj : string -> gset string) (u v n x : string) :
  x ∈ add_edge adj u v n <->
  x ∈ adj n \/ (n = u /\ x = v) \/ (n = v /\ x = u).
Proof.
  unfold add_edge. rewrite !elem_of_union.
  destruct (String.eqb_spec n u) as [Eu|Hu];
    destruct (String.eqb_spec n v) as [Ev|Hv];
    rewrite ?elem_of_singleton, ?elem_of_empty; intuition congruence.
Qed.

Lemma add_edges_for_spec (physics : physics_engine) (freq_mhz rx_height : Q)
    (c_id : string) (c : candidate_site) (targets : list target_point) :
  forall adj adj' : string -> gset string,
  add_edges_for physics freq_mhz rx_height c_id c targets adj = Some adj' ->
  forall n x,
    x ∈ adj' n <->
    x ∈ adj n \/
    exists t, In t targets /\ link_counts physics freq_mhz rx_height c t /\
      ((n = c_id /\ x = t_id t) \/ (n = t_id t /\ x = c_id)).
Proof.
  induction targets as [|t targets IH]; intros adj adj';
    cbn [add_edges_for].
  - intros H. injection H as <-. intros n x. split; [auto|].
    intros [H|(t & [] & _)]. exact H.
  - cbv zeta.
    destruct (physics _ _ _ _ _ _ _) as [s|] eqn:Hp; [|discriminate].
    cbn [mbind option_bind]. intros H n x.
    rewrite (IH _ _ H n x). destruct (link_ok s) eqn:Hok.
    + rewrite add_edge_spec. split.
      * intros [[H1|H1]|(t' & Ht' & Hl & Hx)].
        -- now left.
        -- right. exists t. split; [now left|]. split; [|exact H1].
           exists s. now split.
        -- right. exists t'. split; [now right|]. now split.
      * intros [H1|(t' & [<-|Ht'] & Hl & Hx)].
        -- left. now left.
        -- left. right. exact Hx.
        -- right. exists t'. now split.
    + split.
      * intros [H1|(t' & Ht' & Hl & Hx)]; [now left|].
        right. exists t'. split; [now right|]. now split.
      * intros [H1|(t' & [<-|Ht'] & Hl & Hx)]; [now left| |].
        -- destruct Hl as (s' & Hs' & Hok'). rewrite Hp in Hs'.
           injection Hs' as <-. congruence.
        -- right. exists t'. now split.
Qed.

Lemma add_edges_spec (physics : physics_engine) (freq_mhz rx_height : Q)
    (targets : list target_point) (cands : list (nat * candidate_site)) :
  forall adj adj' : string -> gset string,
  add_edges physics freq_mhz rx_height cands targets adj = Some adj' ->
  forall n x,
    x ∈ adj' n <->
    x ∈ adj n \/
    exists i c t, In (i, c) cands /\ In t targets /\
      link_counts physics freq_mhz rx_height c t /\
      ((n = cand_id i /\ x = t_id t) \/ (n = t_id t /\ x = cand_id i)).
Proof.
  induction cands as [|[i c] cands IH]; intros adj adj'; cbn [add_edges].
  - intros H. injection H as <-. intros n x. split; [auto|].
    intros [H|(i & c & t & [] & _)]. exact H.
  - destruct (add_edges_for _ _ _ _ _ _ adj) as [adj1|] eqn:H1;
      [|discriminate].
    cbn [mbind option_bind]. intros H n x.
    rewrite (IH _ _ H n x).
    rewrite (add_edges_for_spec _ _ _ _ _ _ _ _ H1 n x). split.
    + intros [[Ha|(t & Ht & Hl & Hx)]|(i' & c' & t & Hin & Ht & Hl & Hx)].
      * now left.
      * right. exists i, c, t. split; [now left|]. now split.
      * right. exists i', c', t. split; [now right|]. now split.
    + intros [Ha|(i' & c' & t & [Heq|Hin] & Ht & Hl & Hx)].
      * left. now left.
      * injection Heq as <- <-. left. right. exists t. now split.
      * right. exists i', c', t. now split.
Qed.

(** X28.  When no target identifier is a candidate identifier, the built
    graph has the candidates [cand_0, cand_1, ...] in request order, the
    targets' identifiers as its universe, and a candidate is adjacent to
    exactly the targets whose link from it the physics engine reports as
    viable or degraded, with the candidate's height (10 m by default) as
    transmitter height. *)
Theorem built_graph_structure (physics : physics_engine)
    (cands : list candidate_site) (targets : list target_point)
    (freq_mhz rx_height : Q) (G : graph node_data) :
  build_coverage_graph physics cands targets freq_mhz rx_height = Some G ->
  (forall t i, In t targets -> t_id t <> cand_id i) ->
  candidates G = map cand_id (seq 0 (length cands)) /\
  universe G = list_to_set (map t_id targets) /\
  forall i c, cands !! i = Some c ->
    forall x, x ∈ adjacency G (cand_id i) <->
      exists t, In t targets /\ x = t_id t /\
                link_counts physics freq_mhz rx_height c t.
Proof.
  unfold build_coverage_graph. cbv zeta.
  destruct (add_edges _ _ _ _ _ _) as [adj|] eqn:Hadj; [|discriminate].
  cbn [mbind option_bind]. intros HG Hfree. injection HG as <-.
  unfold enumerate in *.
  rewrite (candidate_nodes cands 0 []) by (intros k []).
  cbn [app].
  set (l1 := map _ (combine (seq 0 (length cands)) cands)).
  assert (Hk1 : map fst l1 = map cand_id (seq 0 (length cands))).
  { unfold l1. rewrite map_map. cbn [fst].
    rewrite <- (combine_seq_fst cands 0) at 2. now rewrite map_map. }
  assert (Hty1 : forall p, In p l1 -> ntype (snd p) = candidate).
  { intros p Hp. unfold l1 in Hp. apply in_map_iff in Hp.
    now destruct Hp as (ic & <- & _). }
  destruct (target_nodes l1 targets []) as (l2 & Hnodes & Hty2 & Hk2).
  { intros t Ht Hin.
    assert (Hin' : In (t_id t) (map cand_id (seq 0 (length cands))))
      by (rewrite <- Hk1; exact Hin).
    apply in_map_iff in Hin'.
    destruct Hin' as (i & Hi & _). now apply (Hfree t i). }
  { constructor. }
  rewrite app_nil_r in Hnodes. rewrite Hnodes.
  rewrite List.Forall_forall in Hty2.
  split; [|split].
  - unfold candidates. cbn [nodes]. rewrite List.filter_app, map_app.
    rewrite (filter_all _ l1)
      by (intros p Hp; apply is_type_candidate; now apply Hty1).
    rewrite (filter_none _ l2).
    + now rewrite app_nil_r.
    + intros p Hp. destruct (is_type candidate p) eqn:Et; [|exact Et || reflexivity].
      apply is_type_candidate in Et. rewrite (Hty2 p Hp) in Et.
      discriminate.
  - unfold universe. cbn [nodes]. rewrite List.filter_app, map_app.
    rewrite (filter_none _ l1).
    2:{ intros p Hp. destruct (is_type target p) eqn:Et; [|exact Et || reflexivity].
        apply is_type_target in Et. rewrite (Hty1 p Hp) in Et.
        discriminate. }
    rewrite (filter_all _ l2)
      by (intros p Hp; apply is_type_target; now apply Hty2).
    cbn [app]. apply set_eq. intros k.
    rewrite !elem_of_list_to_set, !list_elem_of_In, Hk2.
    cbn [map In]. tauto.
  - intros i c Hi x. cbn [adjacency].
    rewrite (add_edges_spec _ _ _ _ _ _ _ Hadj (cand_id i) x).
    rewrite elem_of_empty. split.
    + intros [[]|(j & c' & t & Hin & Ht & Hl & Hx)].
      apply enumerate_In in Hin. destruct Hin as [_ Hin].
      rewrite Nat.sub_0_r in Hin.
      destruct Hx as [[Hid ->]|[Hid _]].
      * apply cand_id_inj in Hid. subst j.
        rewrite Hi in Hin. injection Hin as <-. now exists t.
      * exfalso. now apply (Hfree t i).
    + intros (t & Ht & -> & Hl). right. exists i, c, t.
      split; [|split; [assumption|split; [assumption|now left]]].
      apply enumerate_In. split; [lia|]. now rewrite Nat.sub_0_r.
Qed.

Lemma built_graph_structure_witness :
  exists G,
    build_coverage_graph south_engine two_candidates two_targets 915 2
      = Some G /\
    candidates G = map cand_id (seq 0 (length two_candidates)) /\
    universe G = list_to_set (map t_id two_targets) /\
    forall i c, two_candidates !! i = Some c ->
      forall x, x ∈ adjacency G (cand_id i) <->
        exists t, In t two_targets /\ x = t_id t /\
                  link_counts south_engine 915 2 c t.
Proof.
  destruct (build_coverage_graph south_engine two_candidates two_targets
              915 2) as [G|] eqn:H.
  - exists G. split; [reflexivity|].
    apply (built_graph_structure south_engine two_candidates two_targets
             915 2 G H).
    intros t i [<-|[<-|[]]]; apply tgt_id_not_cand_id.
  - vm_compute in H. discriminate.
Defined.

(** ** Sampling *)

Lemma arange_range (start stop step x : Q) :
  0 < step -> In x (arange start stop step) -> start <= x /\ x < stop.
Proof.
  intros Hs Hx. unfold arange in Hx. apply in_map_iff in Hx.
  destruct Hx as (k & <- & Hk). apply in_seq in Hk.
  set (q := (stop - start) / step) in *.
  assert (Hkq : inject_Z (Z.of_nat k) < q).
  { eapply Qle_lt_trans; [|apply (Qceiling_lt q)].
    rewrite <- Zle_Qle. lia. }
  assert (Hk0 : 0 <= inject_Z (Z.of_nat k)).
  { change 0 with (inject_Z 0). rewrite <- Zle_Qle. lia. }
  assert (Hq : q * step == stop - start) by (unfold q; field; lra).
  split; [nra|]. nra.
Qed.

Lemma sample_points_spec (E : env) (poly : polygon) (pts : list (Q * Q)) :
  forall (c c' : cache) (points res : list target_point),
  sample_points E poly pts c points = Some (res, c') ->
  exists new,
    res = points ++ new /\
    forall k p, new !! k = Some p ->
      t_id p = tgt_id (length points + k) /\
      In (t_lon p, t_lat p) pts /\
      contains poly (t_lon p) (t_lat p) = true /\
      exists c0, fst (get_elevation E c0 (t_lat p) (t_lon p))
                 = Returns (t_elev p).
Proof.
  induction pts as [|[x y] pts IH]; intros c c' points res;
    cbn [sample_points].
  - intros H. injection H as <- <-. exists []. split; [now rewrite app_nil_r|].
    intros k p Hk. discriminate.
  - destruct (contains poly x y) eqn:Hin.
    + destruct (get_elevation E c y x) as [e c1] eqn:He.
      destruct e as [elev|e]; [|discriminate].
      intros H.
      destruct (IH _ _ _ _ H) as (new & -> & Hnew).
      exists (mkTarget (tgt_id (length points)) y x elev :: new).
      split; [now rewrite <- app_assoc|].
      intros [|k] p Hk.
      * cbn in Hk. injection Hk as <-. cbn [t_id t_lat t_lon t_elev].
        split; [now rewrite Nat.add_0_r|]. split; [now left|].
        split; [assumption|]. exists c. now rewrite He.
      * cbn in Hk. destruct (Hnew k p Hk) as (Hid & Hp & Hc & Hel).
        rewrite length_app in Hid. cbn [length] in Hid.
        split; [rewrite Hid; f_equal; lia|].
        split; [now right|]. now split.
    + intros H. destruct (IH _ _ _ _ H) as (new & -> & Hnew).
      exists new. split; [reflexivity|].
      intros k p Hk. destruct (Hnew k p Hk) as (Hid & Hp & Hc & Hel).
      split; [assumption|]. split; [now right|]. now split.
Qed.

(** X29.  The targets sampled from a polygon with a positive spacing are
    numbered [tgt_0, tgt_1, ...] in order of creation; each lies inside the
    polygon and inside its bounding box (the upper bounds excluded), carries
    the elevation the tile manager returned for its coordinates, and has an
    identifier that differs from every other target's and from every
    candidate identifier. *)
Theorem sampled_targets (E : env) (poly : polygon) (spacing_meters : Q)
    (c c' : cache) (points : list target_point) :
  0 < spacing_meters ->
  sample_target_points E poly spacing_meters c = Some (points, c') ->
  List.NoDup (map t_id points) /\
  forall k p, points !! k = Some p ->
    t_id p = tgt_id k /\
    contains poly (t_lon p) (t_lat p) = true /\
    minx poly <= t_lon p /\ t_lon p < maxx poly /\
    miny poly <= t_lat p /\ t_lat p < maxy poly /\
    (exists c0, fst (get_elevation E c0 (t_lat p) (t_lon p))
                = Returns (t_elev p)) /\
    forall i, t_id p <> cand_id i.
Proof.
  intros Hsp. unfold sample_target_points. cbv zeta.
  set (step := spacing_meters / 111000).
  assert (Hstep : 0 < step) by (unfold step; apply Qlt_shift_div_l; lra).
  destruct (Qeq_bool step 0) eqn:Hz;
    [apply Qeq_bool_iff in Hz; lra|].
  intros H. apply sample_points_spec in H.
  destruct H as (new & Hres & Hnew). cbn [app length] in *. subst new.
  assert (Hall : forall k p, points !! k = Some p ->
            t_id p = tgt_id k /\
            contains poly (t_lon p) (t_lat p) = true /\
            minx poly <= t_lon p /\ t_lon p < maxx poly /\
            miny poly <= t_lat p /\ t_lat p < maxy poly /\
            (exists c0, fst (get_elevation E c0 (t_lat p) (t_lon p))
                        = Returns (t_elev p)) /\
            forall i, t_id p <> cand_id i).
  { intros k p Hk. destruct (Hnew k p Hk) as (Hid & Hp & Hc & Hel).
    apply in_flat_map in Hp. destruct Hp as (x & Hx & Hp).
    apply in_map_iff in Hp. destruct Hp as (y & Heq & Hy).
    injection Heq as Ex Ey. subst x y.
    destruct (arange_range _ _ _ _ Hstep Hx) as [Hx1 Hx2].
    destruct (arange_range _ _ _ _ Hstep Hy) as [Hy1 Hy2].
    split; [exact Hid|].
    repeat (split; [assumption|]).
    intros i. rewrite Hid. apply tgt_id_not_cand_id. }
  split; [|exact Hall].
  apply NoDup_ListNoDup, NoDup_alt. intros i j s Hi Hj.
  rewrite list_lookup_fmap in Hi, Hj.
  destruct (points !! i) as [p|] eqn:Hpi; [|discriminate].
  destruct (points !! j) as [q|] eqn:Hpj; [|discriminate].
  cbn in Hi, Hj. injection Hi as <-. injection Hj as Hj.
  destruct (Hall i p Hpi) as (Hip & _). destruct (Hall j q Hpj) as (Hjq & _).
  apply tgt_id_inj. congruence.
Qed.

Lemma sampled_targets_witness :
  exists points c',
    sample_target_points ramp_env unit_square 55500 ∅ = Some (points, c') /\
    List.NoDup (map t_id points) /\
    forall k p, points !! k = Some p ->
      t_id p = tgt_id k /\
      contains unit_square (t_lon p) (t_lat p) = true /\
      minx unit_square <= t_lon p /\ t_lon p < maxx unit_square /\
      miny unit_square <= t_lat p /\ t_lat p < maxy unit_square /\
      (exists c0, fst (get_elevation ramp_env c0 (t_lat p) (t_lon p))
                  = Returns (t_elev p)) /\
      forall i, t_id p <> cand_id i.
Proof.
  destruct (sample_target_points ramp_env unit_square 55500 ∅)
    as [[points c']|] eqn:H.
  - exists points, c'. split; [reflexivity|].
    apply (sampled_targets ramp_env unit_square 55500 ∅ c' points);
      [reflexivity|exact H].
  - vm_compute in H. discriminate.
Defined.

End BuilderProofs.

(* ================================================================== *)
(** * Properties of the view score *)
(* ================================================================== *)

Module ViewshedProofs.
Import Sieve Viewshed.

Local Open Scope Q_scope.

(** The distance found from iteration [i] on lies between the distance so
    far and the last iteration. *)
Lemma look_bounds (g : grid) (site_elev : Q) (dr dc : Z) (steps : nat) :
  forall (current_r current_c : Z) (i dist : nat),
  i = S dist ->
  (dist <= look g site_elev dr dc current_r current_c i steps dist
        <= dist + steps)%nat /\
  (0 < steps ->
   i <= look g site_elev dr dc current_r current_c i steps dist)%nat.
Proof.
  induction steps as [|steps IH]; intros current_r current_c i dist Hi;
    cbn [look].
  - split; lia.
  - cbv zeta.
    destruct (negb (in_map g (current_r + dr) (current_c + dc)));
      [split; lia|].
    destruct (Qle_bool site_elev _); [split; lia|].
    destruct (IH (current_r + dr)%Z (current_c + dc)%Z (S i) i eq_refl)
      as [H _].
    split; lia.
Qed.

Lemma in_map_same_shape (g g' : grid) (r c : Z) :
  same_shape g g' -> in_map g' r c = in_map g r c.
Proof. intros [Hr Hc]. unfold in_map. now rewrite Hr, Hc. Qed.

Lemma direction_steps (d : Z * Z) :
  In d directions ->
  (-1 <= fst d <= 1)%Z /\ (-1 <= snd d <= 1)%Z /\
  (fst d <> 0 \/ snd d <> 0)%Z.
Proof.
  unfold directions. cbn [In].
  intros H; repeat (destruct H as [<-|H]; [cbn [fst snd]; lia|]).
  destruct H.
Qed.

(** Along a direction the walk never comes back to the site, so only the
    other cells are compared with the site's height. *)
Lemma look_monotone (g g' : grid) (site site' : Q) (r c dr dc : Z)
    (steps : nat) :
  same_shape g g' -> site <= site' ->
  (-1 <= dr <= 1)%Z -> (-1 <= dc <= 1)%Z -> (dr <> 0 \/ dc <> 0)%Z ->
  (forall r' c', in_map g r' c' = true -> (r' <> r \/ c' <> c)%Z ->
     elev_at g' r' c' <= elev_at g r' c') ->
  forall (i dist : nat),
  i = S dist ->
  (look g site dr dc (r + Z.of_nat dist * dr) (c + Z.of_nat dist * dc)
        i steps dist
   <= look g' site' dr dc (r + Z.of_nat dist * dr) (c + Z.of_nat dist * dc)
        i steps dist)%nat.
Proof.
  intros Hshape Hsite Hdr Hdc Hd Hcells.
  induction steps as [|steps IH]; intros i dist Hi; cbn [look]; [lia|].
  cbv zeta.
  set (nr := (r + Z.of_nat dist * dr + dr)%Z).
  set (nc := (c + Z.of_nat dist * dc + dc)%Z).
  rewrite (in_map_same_shape g g' nr nc Hshape).
  destruct (in_map g nr nc) eqn:Hin; cbn [negb]; [|lia].
  assert (Hnext : (nr = r + Z.of_nat i * dr /\ nc = c + Z.of_nat i * dc)%Z)
    by (unfold nr, nc; subst i; split; lia).
  destruct Hnext as [Hnr Hnc].
  assert (Haway : (nr <> r \/ nc <> c)%Z).
  { rewrite Hnr, Hnc. subst i.
    destruct Hd as [Hd|Hd]; [left|right]; nia. }
  pose proof (Hcells nr nc Hin Haway) as Hle.
  destruct (Qle_bool site (elev_at g nr nc)) eqn:Hb.
  - destruct (Qle_bool site' (elev_at g' nr nc)); [lia|].
    rewrite Hnr, Hnc.
    destruct (look_bounds g' site' dr dc steps
                (r + Z.of_nat i * dr)%Z (c + Z.of_nat i * dc)%Z (S i) i
                eq_refl) as [H _].
    lia.
  - assert (Hb' : Qle_bool site' (elev_at g' nr nc) = false).
    { destruct (Qle_bool site' (elev_at g' nr nc)) eqn:Hb'; [|reflexivity].
      apply Qle_bool_iff in Hb'.
      assert (Hc : site <= elev_at g nr nc) by lra.
      apply Qle_bool_iff in Hc. congruence. }
    rewrite Hb', Hnr, Hnc. apply IH. reflexivity.
Qed.

Lemma view_distance_bounds (g : grid) (r c : nat) (d : Z * Z) :
  (1 <= view_distance g r c d <= 49)%nat.
Proof.
  unfold view_distance, max_dist.
  destruct (look_bounds g (elev_at g (Z.of_nat r) (Z.of_nat c) + 10)
              (fst d) (snd d) (50 - 1) (Z.of_nat r) (Z.of_nat c) 1 0 eq_refl)
    as [H1 H2].
  cbn [Nat.sub] in *. split; [apply H2; lia|exact (proj2 H1)].
Qed.

Lemma list_sum_map_le {A : Type} (f f' : A -> nat) (l : list A) :
  (forall x, In x l -> (f x <= f' x)%nat) ->
  (list_sum (map f l) <= list_sum (map f' l))%nat.
Proof.
  unfold list_sum.
  induction l as [|x l IH]; intros H; cbn [map fold_right]; [lia|].
  pose proof (H x (or_introl eq_refl)).
  assert (fold_right Nat.add 0 (map f l)
          <= fold_right Nat.add 0 (map f' l))%nat
    by (apply IH; intros y Hy; apply H; now right).
  lia.
Qed.

(** X30.  The view score of a site inside the grid lies between 8 and 392;
    and it does not drop when the site is raised and the other cells are
    not: with the same shape, a site at least as high and all other cells
    at most as high give a score at least as large. *)
Theorem view_score_monotone (g g' : grid) (r c : nat) :
  same_shape g g' ->
  in_map g (Z.of_nat r) (Z.of_nat c) = true ->
  elev_at g (Z.of_nat r) (Z.of_nat c)
    <= elev_at g' (Z.of_nat r) (Z.of_nat c) ->
  (forall r' c', in_map g r' c' = true ->
     (r' <> Z.of_nat r \/ c' <> Z.of_nat c)%Z ->
     elev_at g' r' c' <= elev_at g r' c') ->
  exists s s',
    calculate_view_score r c g = Some s /\
    calculate_view_score r c g' = Some s' /\
    (8 <= s)%nat /\ (s <= s')%nat /\ (s' <= 392)%nat.
Proof.
  intros Hshape Hin Hsite Hcells.
  unfold calculate_view_score.
  rewrite (in_map_same_shape g g' _ _ Hshape), Hin.
  eexists _, _. split; [reflexivity|]. split; [reflexivity|].
  split; [|split].
  - unfold directions, list_sum. cbn [map fold_right].
    pose proof (fun d => proj1 (view_distance_bounds g r c d)) as H.
    repeat match goal with
           | |- context [view_distance g r c ?d] =>
               let x := fresh "x" in
               pose proof (H d); set (x := view_distance g r c d) in *;
               clearbody x
           end.
    lia.
  - apply list_sum_map_le. intros d Hd.
    destruct (direction_steps d Hd) as (Hdr & Hdc & Hne).
    unfold view_distance.
    pose proof (look_monotone g g'
                  (elev_at g (Z.of_nat r) (Z.of_nat c) + 10)
                  (elev_at g' (Z.of_nat r) (Z.of_nat c) + 10)
                  (Z.of_nat r) (Z.of_nat c) (fst d) (snd d) (max_dist - 1)
                  Hshape ltac:(lra) Hdr Hdc Hne Hcells 1%nat 0%nat eq_refl)
      as H.
    cbn [Z.of_nat Z.mul] in H. now rewrite !Z.add_0_r in H.
  - unfold directions, list_sum. cbn [map fold_right].
    pose proof (fun d => proj2 (view_distance_bounds g' r c d)) as H.
    repeat match goal with
           | |- context [view_distance g' r c ?d] =>
               let x := fresh "x" in
               pose proof (H d); set (x := view_distance g' r c d) in *;
               clearbody x
           end.
    lia.
Qed.

Lemma view_score_monotone_witness :
  exists s s',
    calculate_view_score 8 8 (TileFetch.zeros 16 16) = Some s /\
    calculate_view_score 8 8 peak_grid = Some s' /\
    (8 <= s)%nat /\ (s <= s')%nat /\ (s' <= 392)%nat.
Proof.
  apply (view_score_monotone (TileFetch.zeros 16 16) peak_grid 8 8).
  - split; reflexivity.
  - reflexivity.
  - vm_compute. discriminate.
  - intros r' c' Hin Hne.
    unfold in_map in Hin.
    change (rows (TileFetch.zeros 16 16)) with 16%Z in Hin.
    change (cols (TileFetch.zeros 16 16)) with 16%Z in Hin.
    rewrite !andb_true_iff, !Z.leb_le, !Z.ltb_lt in Hin.
    assert (Hr : (0 <= r' < 16)%Z) by lia.
    assert (Hc : (0 <= c' < 16)%Z) by lia.
    assert (Hz : elev_at (TileFetch.zeros 16 16) r' c' = 0).
    { unfold elev_at, TileFetch.zeros.
      rewrite (nth_repeat_lt (repeat 0 16)) by lia.
      apply nth_repeat_lt. lia. }
    rewrite Hz. apply Qnot_lt_le. intros Hpos.
    assert (Hcell : elev_at peak_grid r' c'
                    = cell peak_grid (Z.to_nat r') (Z.to_nat c'))
      by reflexivity.
    rewrite Hcell in Hpos.
    apply SieveProofs.peak_grid_cell_positive in Hpos; lia.
Defined.

End ViewshedProofs.
